(** * sdrpp_radiosonde: the bit-synchronising framer and the RS41 frame decoder

    A shallow embedding of [src/decode/framer.cpp] and
    [src/decode/rs41/decoder.cpp].  Bytes are [Byte.byte]; C integers are [Z]
    with the wrap-around of [uint64_t] written out where the code relies on
    it; buffers are lists of bytes. *)

From Stdlib Require Import ZArith List Lia Bool PArith.
From Stdlib.Strings Require Import Byte.
From Stdlib Require String Ascii.
Import ListNotations.
Open Scope Z_scope.

(** ** Bytes and machine integers *)

Definition u8 (b : byte) : Z := Z.of_N (Byte.to_N b).

Definition to_u8 (z : Z) : byte :=
  match Byte.of_N (Z.to_N (z mod 256)) with
  | Some b => b
  | None => x00
  end.

Definition wrap64 (z : Z) : Z := z mod 2 ^ 64.

Definition ones64 : Z := 2 ^ 64 - 1.

(** ** The framer: [dsp::Framer] *)

Module Framer.

(** [inverseCorrelateU64]: the loop [for (corr = 0; v; corr++) v &= v-1].
    A [uint64_t] has at most 64 set bits, so 64 rounds always reach [v = 0]
    (lemma [popcount_loop_spec] below). *)
Fixpoint popcount_loop (fuel : nat) (v corr : Z) : Z :=
  match fuel with
  | O => corr
  | S fuel' =>
      if v =? 0 then corr
      else popcount_loop fuel' (Z.land v (v - 1)) (corr + 1)
  end.

Definition inverseCorrelateU64 (x y : Z) : Z :=
  popcount_loop 64 (Z.lxor x y) 0.

(** The variables the search loop of [correlateU64] updates.  [inverted] is
    the caller's [int *inverted]: [None] while the function has not written
    to it. *)
Record search := mkSearch {
  window : Z;
  bestCorr : Z;
  bestOffset : Z;
  inverted : option bool
}.

Section Correlate.

(** The fields [_syncWord] and [_syncLen] of the framer object. *)
Variable _syncWord : Z.
Variable _syncLen : Z.

(** [const uint64_t syncMask = (_syncLen < 8) ? ((1ULL << (8*_syncLen))) : ~0ULL;] *)
Definition syncMask : Z :=
  if _syncLen <? 8 then wrap64 (Z.shiftl 1 (8 * _syncLen)) else ones64.

(** [const uint64_t syncWord = _syncWord & syncMask;] *)
Definition syncWord : Z := Z.land (wrap64 _syncWord) syncMask.

(** [window = window << 8 | *frame++], [_syncLen] times. *)
Definition initial_window (frame : list byte) : Z :=
  fold_left (fun w b => wrap64 (Z.lor (Z.shiftl w 8) (u8 b)))
            (firstn (Z.to_nat _syncLen) frame) 0.

(** The body of the loop over [j], for the byte [tmp] read at round [i]. *)
Definition bit_step (tmp : Z) (i : Z) (s : search) (j : Z) : search :=
  let corr := inverseCorrelateU64 syncWord (Z.land (window s) syncMask) in
  let s1 :=
    if corr <? bestCorr s
    then mkSearch (window s) corr (i * 8 + j) (Some false)
    else s in
  let corr' := _syncLen * 8 - corr in
  let s2 :=
    if corr' <? bestCorr s1
    then mkSearch (window s1) corr' (i * 8 + j) (Some true)
    else s1 in
  mkSearch
    (wrap64 (Z.lor (Z.shiftl (window s2) 1) (Z.land (Z.shiftr tmp (7 - j)) 1)))
    (bestCorr s2) (bestOffset s2) (inverted s2).

(** [for (j=0; j<8; j++) ...] *)
Definition byte_step (s : search) (ib : Z * byte) : search :=
  fold_left (bit_step (u8 (snd ib)) (fst ib)) [0; 1; 2; 3; 4; 5; 6; 7] s.

(** The bytes [tmp = *frame++] of the rounds [i = 0 .. len - _syncLen - 1],
    each with its round number. *)
Definition rounds (frame : list byte) (len : Z) : list (Z * byte) :=
  let body := firstn (Z.to_nat (len - _syncLen))
                     (skipn (Z.to_nat _syncLen) frame) in
  combine (map Z.of_nat (seq 0 (length body))) body.

(** [int Framer::correlateU64(int *inverted, uint8_t *frame, int len)]:
    the offset returned and what was written to [*inverted]. *)
Definition correlateU64 (frame : list byte) (len : Z) : Z * option bool :=
  let w0 := initial_window frame in
  let best0 := inverseCorrelateU64 syncWord (Z.land w0 syncMask) in
  if best0 =? 0 then (0, None)
  else
    let s := fold_left byte_step (rounds frame len) (mkSearch w0 best0 0 None) in
    (bestOffset s, inverted s).

End Correlate.

(** *** The buffer seen as a sequence of bits

    Bit [n] of a buffer is bit [7 - n mod 8] of its byte [n / 8]: the most
    significant bit of each byte comes first, as in the search loop's
    [(tmp >> (7-j)) & 0x1]. *)
Definition frame_bit (frame : list byte) (n : nat) : bool :=
  Z.testbit (u8 (nth (n / 8) frame x00)) (7 - Z.of_nat (n mod 8)).

(** The [n] bits from bit [k] on, read as one number, first bit highest. *)
Fixpoint bits_value (frame : list byte) (k n : nat) : Z :=
  match n with
  | O => 0
  | S n' => 2 * bits_value frame k n' + Z.b2z (frame_bit frame (k + n'))
  end.

(** What one round of the search does to the best match so far, given the
    distance [d] found at offset [p] for a pattern of [total] bits. *)
Definition consider (total p d : Z) (s : search) : search :=
  let s1 := if d <? bestCorr s then mkSearch (window s) d p (Some false) else s in
  if total - d <? bestCorr s1
  then mkSearch (window s1) (total - d) p (Some true)
  else s1.

(** One round of a search that reads its 64-bit window straight from the
    bits of the buffer: the round at offset [p]. *)
Definition set_window (w : Z) (s : search) : search :=
  mkSearch w (bestCorr s) (bestOffset s) (inverted s).

Definition scan_step (sw : Z) (frame : list byte) (s : search) (p : nat) : search :=
  set_window (bits_value frame (S p) 64)
    (consider 64 (Z.of_nat p)
       (inverseCorrelateU64 sw (bits_value frame p 64)) s).

(** The bitwise inverse of a 64-bit pattern. *)
Definition invert64 (w : Z) : Z := Z.lxor w ones64.

(** *** The correlation search as the specification words it

    The number of set bits of a binary numeral. *)
Fixpoint popcount_pos (p : positive) : nat :=
  match p with
  | xH => 1
  | xO q => popcount_pos q
  | xI q => S (popcount_pos q)
  end.

Definition popcount (z : Z) : nat :=
  match z with
  | Zpos p => popcount_pos p
  | _ => O
  end.

(** "Comparison always happens on the low [8*syncLen] bits of both the
    pattern and the sliding window": the count of differing bits among the
    low [n] bits. *)
Definition hamming (n : nat) (x y : Z) : Z :=
  Z.of_nat (popcount (Z.lxor (x mod 2 ^ Z.of_nat n) (y mod 2 ^ Z.of_nat n))).

(** The best match so far: its distance, its bit offset, and whether it came
    from the inverted comparison.  "Ties keep the earliest offset". *)
Definition keep_min (best : option (Z * nat * bool)) (cand : Z * nat * bool)
  : option (Z * nat * bool) :=
  match best with
  | None => Some cand
  | Some (bd, _, _) => if fst (fst cand) <? bd then Some cand else best
  end.

(** "At each position compute the Hamming distance between the window and
    the sync pattern, and separately the distance to the bitwise-inverted
    pattern (totalBits - distance). Track the minimum distance found and its
    bit offset; an exact match (distance 0) short-circuits the search". *)
Fixpoint slide (pattern : Z) (n : nat) (frame : list byte)
    (positions : list nat) (best : option (Z * nat * bool))
  : option (Z * nat * bool) :=
  match positions with
  | [] => best
  | p :: rest =>
      let d := hamming n pattern (bits_value frame p n) in
      let b1 := keep_min best (d, p, false) in
      let b2 := keep_min b1 (Z.of_nat n - d, p, true) in
      match b2 with
      | Some (0, _, _) => b2
      | _ => slide pattern n frame rest b2
      end
  end.

Definition correlate_spec (pattern : Z) (syncLen : nat) (frame : list byte)
    (frameLen : nat) : option (Z * nat * bool) :=
  slide pattern (8 * syncLen) frame
        (seq 0 (8 * frameLen - 8 * syncLen)) None.

(** *** Sample buffers

    Sixteen bytes, all zero but for the 64-bit word [0x086D53884469481F]
    from bit 37 on. *)
Definition sync_at_37 : list byte :=
  [x00; x00; x00; x00; x00; x43; x6a; x9c; x42; x23; x4a; x40; xf8; x00; x00; x00].

(** The same with every bit of the embedded word inverted. *)
Definition inverse_sync_at_37 : list byte :=
  [x00; x00; x00; x00; x07; xbc; x95; x63; xbd; xdc; xb5; xbf; x00; x00; x00; x00].

(** Sixteen bytes, all zero but for [0xAAAAAAAAAAAAAAAA] from bit 37 on. *)
Definition alternating_at_37 : list byte :=
  [x00; x00; x00; x00; x05; x55; x55; x55; x55; x55; x55; x55; x50; x00; x00; x00].

(** A frame of ten bytes that carries the 16-bit pattern [0xAAAA] from bit 37
    on, bit 36 set, every other bit zero. *)
Definition aaaa_at_37 : list byte :=
  [x00; x00; x00; x00; x0d; x55; x50; x00; x00; x00].

(** *** [Framer::run]

    The states of the framer. *)
Inductive framer_state := READ | DEOFFSET.

(** The fields of the framer that [run] updates.  Of [_rawData] the model
    keeps the bits below the cursor [_dataOffset], first bit of the buffer
    first: [run] reads no bit of the buffer at or behind the cursor. *)
Record framer := mkFramer {
  _state : framer_state;
  _rawData : list bool;
  _dataOffset : Z;
  _syncOffset : Z
}.

(** The bits of a byte, most significant first, and back. *)
Definition byte_bits (b : byte) : list bool :=
  map (fun j => Z.testbit (u8 b) (7 - j)) [0; 1; 2; 3; 4; 5; 6; 7].

Definition bits_of_bytes (l : list byte) : list bool := flat_map byte_bits l.

Definition bits_byte (bits : list bool) : byte :=
  to_u8 (fold_left (fun acc (b : bool) => 2 * acc + Z.b2z b) bits 0).

(** The first [n] bytes of a buffer of bits. *)
Fixpoint bytes_of_bits (n : nat) (bits : list bool) : list byte :=
  match n with
  | O => []
  | S n' => bits_byte (firstn 8 bits) :: bytes_of_bits n' (skipn 8 bits)
  end.

(** Modelled from the spec: [bitcpy(dst, src, offset, bits)] of [utils.c],
    which is not among the sources, for [dst = src]: "a bit-level left
    shift of the buffer": bits [offset .. offset + bits - 1] move to the
    start of the buffer, the bits behind them stay. *)
Definition bitcpy (raw : list bool) (offset bits : Z) : list bool :=
  firstn (Z.to_nat bits) (skipn (Z.to_nat offset) raw) ++
  skipn (Z.to_nat bits) raw.

(** What one pass through the [switch] ends in: [return] for want of input,
    or a frame written to the output with input left over. *)
Inductive outcome :=
| Suspend (f : framer)
| Emit (f : framer) (frame : list byte) (rest : list byte).

Section Run.

Variable _syncWord : Z.
Variable _syncLen : Z.
Variable _frameLen : Z.

(** [Framer::init]: [_state = READ; _dataOffset = 0;] *)
Definition init : framer := mkFramer READ [] 0 0.

(** Modelled from the spec: the [memcpy] of [numBytes] bytes behind the
    cursor and the [bitpack] (of [utils.c], not among the sources) that
    closes the gap when the cursor is not byte-aligned: "append incoming
    bytes to the accumulator (bit-packing them at the current bit cursor)";
    then [_dataOffset += 8*numBytes]. *)
Definition append_input (f : framer) (src : list byte) (numBytes : Z) : framer :=
  mkFramer (_state f)
           (_rawData f ++ bits_of_bytes (firstn (Z.to_nat numBytes) src))
           (_dataOffset f + 8 * numBytes)
           (_syncOffset f).

(** The end of [case DEOFFSET]: the frame at [_syncOffset] is shifted to
    the start of the buffer and written out, the eight bits at
    [_syncOffset] of the shifted buffer are copied to its start, and
    [_syncOffset % 8] of them are kept for the next frame. *)
Definition emit (f : framer) (rest : list byte) : outcome :=
  let raw1 := bitcpy (_rawData f) (_syncOffset f) (8 * _frameLen) in
  let frame := bytes_of_bits (Z.to_nat _frameLen) raw1 in
  let raw2 := bitcpy raw1 (_syncOffset f) 8 in
  Emit (mkFramer READ
          (firstn (Z.to_nat (_syncOffset f mod 8)) raw2)
          (_syncOffset f mod 8)
          (_syncOffset f))
       frame rest.

(** [case DEOFFSET]: read what is missing behind the frame at
    [_syncOffset], return if the input ends there.  The divisions are
    those of C on operands that are never negative (lemma [step_wf]). *)
Definition deoffset (f : framer) (src : list byte) : outcome :=
  let count := Z.of_nat (length src) in
  let numBytes :=
    Z.min (_frameLen - (_dataOffset f - _syncOffset f) / 8) count in
  let f1 := append_input f src numBytes in
  if count - numBytes <=? 0 then Suspend f1
  else emit f1 (skipn (Z.to_nat numBytes) src).

(** The search for the sync word, and [_state = DEOFFSET]. *)
Definition correlated (f : framer) : framer :=
  mkFramer DEOFFSET (_rawData f) (_dataOffset f)
    (fst (correlateU64 _syncWord _syncLen
            (bytes_of_bits (Z.to_nat _frameLen) (_rawData f)) _frameLen)).

(** [case READ], falling through to [case DEOFFSET]. *)
Definition read (f : framer) (src : list byte) : outcome :=
  let count := Z.of_nat (length src) in
  let numBytes := Z.min (_frameLen - _dataOffset f / 8) count in
  let f1 := append_input f src numBytes in
  if count - numBytes <=? 0 then Suspend f1
  else deoffset (correlated f1) (skipn (Z.to_nat numBytes) src).

(** One pass through the [switch]. *)
Definition step (f : framer) (src : list byte) : outcome :=
  match _state f with
  | READ => read f src
  | DEOFFSET => deoffset f src
  end.

(** [while (count > 0)], for at most [fuel] rounds: the framer and the
    frames written to [out] when [run] returns. *)
Fixpoint loop (fuel : nat) (f : framer) (src : list byte)
    (out : list (list byte)) : option (framer * list (list byte)) :=
  match fuel with
  | O => None
  | S fuel' =>
      match src with
      | [] => Some (f, out)
      | _ :: _ =>
          match step f src with
          | Suspend f' => Some (f', out)
          | Emit f' frame rest => loop fuel' f' rest (out ++ [frame])
          end
      end
  end.

(** [Framer::run] on the bytes of one [_in->read()].  A round that writes
    no frame returns, and of two rounds that write a frame one at least
    takes input, so [length src + 2] rounds are enough (lemma
    [loop_terminates]). *)
Definition run (f : framer) (src : list byte) : framer * list (list byte) :=
  match loop (length src + 2) f src [] with
  | Some r => r
  | None => (f, [])
  end.

(** The framer fed one chunk after the other: its state at the end and all
    the frames it has written. *)
Definition feed (f : framer) (chunks : list (list byte))
  : framer * list (list byte) :=
  fold_left (fun s chunk =>
               let '(f', frames) := run (fst s) chunk in
               (f', snd s ++ frames))
            chunks (f, []).

(** The states [run] is entered and left in: the cursor and the offset are
    such that the byte counts [run] computes are not negative. *)
Definition wf (f : framer) : Prop :=
  0 <= _syncOffset f /\
  match _state f with
  | READ => 0 <= _dataOffset f < 8 * _frameLen + 8
  | DEOFFSET => 0 <= _dataOffset f - _syncOffset f < 8 * _frameLen + 8
  end.

(** The bytes that [case READ] and [case DEOFFSET] still want. *)
Definition need_read (f : framer) : Z := _frameLen - _dataOffset f / 8.

Definition need_deoffset (f : framer) : Z :=
  _frameLen - (_dataOffset f - _syncOffset f) / 8.

(** The buffer of the model holds just the bits below the cursor. *)
Definition cursor_ok (f : framer) : Prop :=
  Z.of_nat (length (_rawData f)) = _dataOffset f.

(** A framer that has just written a frame, or none yet. *)
Definition fresh (f : framer) : bool :=
  match _state f with
  | READ => _dataOffset f <? 8
  | DEOFFSET => false
  end.

End Run.

(** A stream of three times sixteen bytes with other bytes between them. *)
Definition sample_stream : list byte :=
  sync_at_37 ++
  [x11; x22; x33; x44; x55; x66; x77; x88; x99; xaa; xbb;
   xcc; xdd; xee; xff; x01; x02; x03; x04; x05; x06] ++
  sync_at_37 ++ sync_at_37.

(** *** Measures of the search

    The number of bit positions, of the 64 of a [uint64_t], at which two
    words differ. *)
Definition differing_bits (x y : Z) : nat :=
  length (filter (fun i => xorb (Z.testbit x (Z.of_nat i)) (Z.testbit y (Z.of_nat i)))
                 (seq 0 64)).

(** What [correlateU64] computes at bit offset [p] with an eight-byte sync
    word: the distance [corr] of the 64 bits at [p] to the sync word, and the
    lesser of [corr] and [_syncLen*8 - corr]. *)
Definition distance (sw : Z) (frame : list byte) (p : nat) : Z :=
  inverseCorrelateU64 sw (bits_value frame p 64).

Definition mismatch (sw : Z) (frame : list byte) (p : nat) : Z :=
  Z.min (distance sw frame p) (64 - distance sw frame p).

(** What the search has found when the offsets below [k] are done: the
    offset [o] it holds is the first among them of the least [mismatch], and
    the inversion flag, once written, tells which of the two distances at
    [o] was the lesser. *)
Definition best_so_far (sw : Z) (frame : list byte) (k : nat) (s : search) : Prop :=
  exists o : nat,
    bestOffset s = Z.of_nat o /\
    (forall p, (p < k)%nat -> bestCorr s <= mismatch sw frame p) /\
    (forall p, (p < o)%nat -> bestCorr s < mismatch sw frame p) /\
    match inverted s with
    | None => o = 0%nat /\ bestCorr s = distance sw frame 0
    | Some b =>
        (o < k)%nat /\ bestCorr s = mismatch sw frame o /\
        bestCorr s < distance sw frame 0 /\
        b = (64 - distance sw frame o <? distance sw frame o)
    end.

(** [Framer::setInput]: [_state = READ; _dataOffset = 0;].  With the cursor
    at 0 no bit of the buffer lies below it. *)
Definition setInput (f : framer) : framer :=
  mkFramer READ [] 0 (_syncOffset f).

(** A frame of sixteen bytes that begins with the sync word
    [0x086D53884469481F]. *)
Definition aligned_frame : list byte :=
  [x08; x6d; x53; x88; x44; x69; x48; x1f;
   x01; x02; x03; x04; x05; x06; x07; x08].

(** The states [run] is left in, with what the search guarantees of the
    sync offset while the frame at it is being completed. *)
Definition within_buffer (sl F : Z) (f : framer) : Prop :=
  wf F f /\
  (_state f = DEOFFSET ->
   _syncOffset f = 0 \/ _syncOffset f + 8 * sl < 8 * F).

(** *** Inverted streams

    A byte, a sequence of bytes and the buffered bits of a framer with every
    bit inverted. *)
Definition invert_byte (b : byte) : byte := to_u8 (Z.lxor (u8 b) 0xFF).

Definition invert_bytes (l : list byte) : list byte := map invert_byte l.

Definition invert_state (f : framer) : framer :=
  mkFramer (_state f) (map negb (_rawData f)) (_dataOffset f) (_syncOffset f).

Definition invert_outcome (o : outcome) : outcome :=
  match o with
  | Suspend f => Suspend (invert_state f)
  | Emit f frame rest => Emit (invert_state f) (invert_bytes frame) (invert_bytes rest)
  end.

End Framer.

(** ** The RS41 frame decoder: [RS41Decoder] *)

Module RS41.

(** *** Arrays

    A C array is a list of bytes.  [rd] reads an element; [wr] stores one.
    An index outside the array is undefined in C: [rd] then yields [0] and
    [wr] leaves the array as it is.  Where a store of the decoder can fall
    outside its array on received data ([updateCalibData]), the model
    records it in the flag [ub] of the decoder state. *)
Definition rd (a : list byte) (i : Z) : byte :=
  if i <? 0 then x00 else nth (Z.to_nat i) a x00.

Fixpoint update (a : list byte) (n : nat) (b : byte) : list byte :=
  match a, n with
  | [], _ => []
  | _ :: t, O => b :: t
  | h :: t, S n' => h :: update t n' b
  end.

Definition wr (a : list byte) (i : Z) (b : byte) : list byte :=
  if i <? 0 then a else update a (Z.to_nat i) b.

(** [for (i = 0; i < n; i++) body] *)
Definition for_loop {S : Type} (n : Z) (body : Z -> S -> S) (s : S) : S :=
  fold_left (fun s i => body (Z.of_nat i) s) (seq 0 (Z.to_nat n)) s.

(** The [n] bytes of [a] from index [i] on. *)
Definition slice (a : list byte) (i n : Z) : list byte :=
  map (fun t => rd a (i + Z.of_nat t)) (seq 0 (Z.to_nat n)).

(** [memcpy(dst + i, src, n)] inside [dst]. *)
Definition memcpy (dst : list byte) (i : Z) (src : list byte) (n : Z) : list byte :=
  for_loop n (fun t d => wr d (i + t) (rd src t)) dst.

(** A 16-bit little-endian field. *)
Definition rd16 (a : list byte) (i : Z) : Z :=
  Z.lor (u8 (rd a i)) (Z.shiftl (u8 (rd a (i + 1))) 8).

(** *** The constants and layouts of [rs41.h] and [decoder.hpp]

    The headers are not part of the sources at hand, so the constants the
    decoder uses, and the offsets of the struct members it touches, are
    parameters of the model. *)
Record rs41_h := {
  RS41_DATA_LEN : Z;
  RS41_XDATA_LEN : Z;
  RS41_FLAG_EXTENDED : Z;
  RS41_REEDSOLOMON_INTERLEAVING : Z;
  RS41_REEDSOLOMON_T : Z;
  RS41_REEDSOLOMON_K : Z;
  RS41_REEDSOLOMON_N : Z;
  RS41_CALIB_FRAGSIZE : Z;
  RS41_CALIB_FRAGCOUNT : Z;
  RS41_SERIAL_LEN : Z;
  RS41_SFTYPE_INFO : Z;
  RS41_SFTYPE_GPSPOS : Z;
  (** [sizeof(RS41Frame)] and the offsets of its members *)
  sizeof_RS41Frame : Z;
  offsetof_rs_checksum : Z;
  offsetof_extended_flag : Z;
  offsetof_data : Z;
  (** offsets of the members of [RS41Subframe_Status] *)
  offsetof_frame_seq : Z;
  offsetof_serial : Z;
  offsetof_frag_seq : Z;
  offsetof_frag_data : Z;
  (** [sizeof(_calibData)], the offset of its [burstkill_timer], and
      [sizeof(_calibDataBitmap)] *)
  sizeof_calibData : Z;
  offsetof_burstkill_timer : Z;
  sizeof_calibDataBitmap : Z
}.

(** The values of the Vaisala RS41 air interface: a 518-byte frame of an
    8-byte sync word, 48 parity bytes, the flag byte and 263 + 198 data
    bytes; two interleaved RS(255,231) codewords; 51 calibration fragments
    of 16 bytes. *)
Definition vaisala : rs41_h := {|
  RS41_DATA_LEN := 263;
  RS41_XDATA_LEN := 198;
  RS41_FLAG_EXTENDED := 0xF0;
  RS41_REEDSOLOMON_INTERLEAVING := 2;
  RS41_REEDSOLOMON_T := 24;
  RS41_REEDSOLOMON_K := 231;
  RS41_REEDSOLOMON_N := 255;
  RS41_CALIB_FRAGSIZE := 16;
  RS41_CALIB_FRAGCOUNT := 51;
  RS41_SERIAL_LEN := 8;
  RS41_SFTYPE_INFO := 0x79;
  RS41_SFTYPE_GPSPOS := 0x7B;
  sizeof_RS41Frame := 518;
  offsetof_rs_checksum := 8;
  offsetof_extended_flag := 56;
  offsetof_data := 57;
  offsetof_frame_seq := 2;
  offsetof_serial := 4;
  offsetof_frag_seq := 25;
  offsetof_frag_data := 26;
  sizeof_calibData := 816;
  offsetof_burstkill_timer := 790;
  sizeof_calibDataBitmap := 7
|}.

(** *** Descrambling *)

Definition _prn : list byte :=
  [x96; x83; x3e; x51; xb1; x49; x08; x98;
   x32; x05; x59; x0e; xf9; x44; xc6; x26;
   x21; x60; xc2; xea; x79; x5d; x6d; xa1;
   x54; x69; x47; x0c; xdc; xe8; x5c; xf1;
   xf7; x76; x82; x7f; x07; x99; xa2; x2c;
   x93; x7c; x30; x63; xf5; x10; x2e; x61;
   xd0; xbc; xb4; xb6; x06; xaa; xf4; x23;
   x78; x6e; x3b; xae; xbf; x7b; x4c; xc1].

(** [RS41_PRN_PERIOD]: the table above has 64 entries. *)
Definition RS41_PRN_PERIOD : Z := 64.

(** [tmp |= ((rawFrame[i] >> (7-j)) & 0x1) << j] for [j = 0 .. 7]. *)
Definition reorder_bits (x : Z) : Z :=
  for_loop 8 (fun j tmp =>
    Z.lor tmp (Z.shiftl (Z.land (Z.shiftr x (7 - j)) 1) j)) 0.

(** [rawFrame[i] = 0xFF ^ tmp ^ _prn[i % RS41_PRN_PERIOD]] *)
Definition descramble_byte (i : Z) (b : byte) : byte :=
  to_u8 (Z.lxor (Z.lxor 0xFF (reorder_bits (u8 b)))
                (u8 (rd _prn (i mod RS41_PRN_PERIOD)))).

(** *** Checksums *)

(** Modelled from the spec: [crc16] of [utils.c], which is not among the
    sources; "CRC-16 with polynomial 0x1021, initial value 0xFFFF (the
    CCITT-FALSE variant)": most significant bit first, no reflection, no
    final exclusive-or. *)
Definition crc16_shift (poly crc : Z) : Z :=
  if Z.testbit crc 15
  then Z.land (Z.lxor (Z.shiftl crc 1) poly) 0xFFFF
  else Z.land (Z.shiftl crc 1) 0xFFFF.

Definition crc16_byte (poly crc : Z) (b : byte) : Z :=
  for_loop 8 (fun _ c => crc16_shift poly c) (Z.lxor crc (Z.shiftl (u8 b) 8)).

Definition crc16 (poly init : Z) (data : list byte) : Z :=
  fold_left (crc16_byte poly) data init.

(** Modelled from the spec: the two constants [crcCheck] passes to [crc16]. *)
Definition CCITT_FALSE_POLY : Z := 0x1021.
Definition CCITT_FALSE_INIT : Z := 0xFFFF.

(** *** C strings

    The assignment of a [char] pointer to a [std::string] copies the bytes
    from the pointer up to the first NUL.  The bytes at hand end with the list; where the
    source would read on behind them, the model stops. *)
Fixpoint c_str (bytes : list byte) : list byte :=
  match bytes with
  | [] => []
  | b :: rest => if u8 b =? 0 then [] else b :: c_str rest
  end.

(** *** The decoder object and the record it delivers *)

(** The persistent fields of [RS41Decoder].  [ub] is not a field of the
    class: it is set when a store of [updateCalibData] falls outside its
    array. *)
Record decoder := mkDecoder {
  _calibData : list byte;
  _calibDataBitmap : list byte;
  _calibrated : bool;
  ub : bool
}.

Section Decoder.

(** What the GPS position sub-record is turned into by [ecef_to_lla] and
    [ecef_to_spd_hdg] (floating point, not modelled): a function of the
    bytes of the frame from the sub-record on. *)
Variable gps_fix : Type.
Variable no_fix : gps_fix.
Variable gps_solution : list byte -> gps_fix.

(** [SondeData]: identity, sequence number ([seq] in the source), burst-kill
    timer, calibration flag, and the six values of the position fix. *)
Record SondeData := mkSondeData {
  calibrated : bool;
  serial : list byte;
  burstkill : Z;
  seqno : Z;
  position : gps_fix
}.

(** Modelled from the spec: the "default-valued" record that
    [SondeData sondeData;] constructs. *)
Definition default_SondeData : SondeData :=
  mkSondeData false [] 0 0 no_fix.

Variable H : rs41_h.

(** [correct_reed_solomon_decode(_rs, rsBlock, N, rsBlock)] of libcorrect:
    from the block it is given, the value it returns (negative on failure)
    and the bytes it writes to the start of the output buffer. *)
Variable rs_decode : list byte -> Z * list byte.

(** [frame->data[j]]; [j = -1] is the byte before the data region. *)
Definition data_at (frame : list byte) (j : Z) : byte :=
  rd frame (offsetof_data H + j).

Definition set_data_at (frame : list byte) (j : Z) (b : byte) : list byte :=
  wr frame (offsetof_data H + j) b.

(** [RS41Decoder::descramble] *)
Definition descramble (frame : list byte) : list byte :=
  for_loop (sizeof_RS41Frame H)
    (fun i raw => wr raw i (descramble_byte i (rd raw i))) frame.

(** **** [RS41Decoder::rsCorrect] *)

Definition chunk_len (frame : list byte) : Z :=
  if negb (u8 (rd frame (offsetof_extended_flag H)) =? RS41_FLAG_EXTENDED H)
  then (RS41_DATA_LEN H + 1) / RS41_REEDSOLOMON_INTERLEAVING H
  else RS41_REEDSOLOMON_K H.

(** "Deinterleave": the two loops that fill [rsBlock]. *)
Definition deinterleave (frame : list byte) (chunk block : Z)
    (rsBlock : list byte) : list byte :=
  let rsBlock1 :=
    for_loop chunk (fun i blk =>
      wr blk i (data_at frame (RS41_REEDSOLOMON_INTERLEAVING H * i + block - 1)))
      rsBlock in
  for_loop (RS41_REEDSOLOMON_T H) (fun i blk =>
    wr blk (RS41_REEDSOLOMON_K H + i)
       (rd frame (offsetof_rs_checksum H + (i + RS41_REEDSOLOMON_T H * block))))
    rsBlock1.

(** "Reinterleave": the two loops that copy [rsBlock] back. *)
Definition reinterleave (frame : list byte) (chunk block : Z)
    (rsBlock : list byte) : list byte :=
  let frame1 :=
    for_loop chunk (fun i fr =>
      set_data_at fr (RS41_REEDSOLOMON_INTERLEAVING H * i + block - 1) (rd rsBlock i))
      frame in
  for_loop (RS41_REEDSOLOMON_T H) (fun i fr =>
    wr fr (offsetof_rs_checksum H + (i + RS41_REEDSOLOMON_T H * block))
       (rd rsBlock (RS41_REEDSOLOMON_K H + i)))
    frame1.

(** The decoder writes its output over the start of [rsBlock]. *)
Definition overwrite (dst src : list byte) : list byte :=
  firstn (length dst) (src ++ skipn (length src) dst).

(** The loop variables of [rsCorrect]. *)
Record rs_state := mkRs {
  rs_frame : list byte;
  rsBlock : list byte;
  valid : bool
}.

(** One round of the loop over [block]. *)
Definition rs_block (chunk block : Z) (s : rs_state) : rs_state :=
  let codeword := deinterleave (rs_frame s) chunk block (rsBlock s) in
  let '(rc, out) := rs_decode codeword in
  let corrected := overwrite codeword out in
  mkRs (reinterleave (rs_frame s) chunk block corrected)
       corrected
       (if rc <? 0 then false else valid s).

(** [uint8_t rsBlock[RS41_REEDSOLOMON_N]] starts as zeros: [memset] for a
    standard frame; for an extended frame the array is not initialised and
    the zeros stand for its unknown content. *)
Definition rsCorrect (frame : list byte) : list byte * bool :=
  let s := for_loop (RS41_REEDSOLOMON_INTERLEAVING H)
             (rs_block (chunk_len frame))
             (mkRs frame (repeat x00 (Z.to_nat (RS41_REEDSOLOMON_N H))) true) in
  (rs_frame s, valid s).

(** **** [RS41Decoder::crcCheck]

    The sub-record at data offset [sub]: type at [sub], length at [sub+1],
    [subframe->data] from [sub+2] on. *)
Definition subframe_type (frame : list byte) (sub : Z) : Z :=
  u8 (data_at frame sub).

Definition subframe_len (frame : list byte) (sub : Z) : Z :=
  u8 (data_at frame (sub + 1)).

Definition subframe_data (frame : list byte) (sub : Z) : list byte :=
  map (fun t => data_at frame (sub + 2 + Z.of_nat t))
      (seq 0 (Z.to_nat (subframe_len frame sub))).

Definition crcCheck (frame : list byte) (sub : Z) : bool :=
  let len := subframe_len frame sub in
  let checksum :=
    crc16 CCITT_FALSE_POLY CCITT_FALSE_INIT (subframe_data frame sub) in
  let expected :=
    Z.land (Z.lor (u8 (data_at frame (sub + 2 + len)))
                  (Z.shiftl (u8 (data_at frame (sub + 2 + len + 1))) 8))
           0xFFFF in
  checksum =? expected.

(** **** [RS41Decoder::init]: the two lines that set up the bitmap

    [memset(_calibDataBitmap, 0xFF, sizeof(_calibDataBitmap));]
    [_calibDataBitmap[sizeof(_calibDataBitmap)-1] &= ~(1 << (7 - RS41_CALIB_FRAGCOUNT%8)) - 1;] *)
Definition init_last_mask : Z :=
  Z.lnot (Z.shiftl 1 (7 - RS41_CALIB_FRAGCOUNT H mod 8)) - 1.

Definition init_bitmap : list byte :=
  let all := repeat xff (Z.to_nat (sizeof_calibDataBitmap H)) in
  let last := sizeof_calibDataBitmap H - 1 in
  wr all last (to_u8 (Z.land (u8 (rd all last)) init_last_mask)).

(** The decoder after [init]; [_calibData] and [_calibrated], which [init]
    does not touch, start as zeros and [false]. *)
Definition init : decoder :=
  mkDecoder (repeat x00 (Z.to_nat (sizeof_calibData H))) init_bitmap false false.

(** **** [RS41Decoder::updateCalibData]

    [frag_seq] and [frag_data] are the members of the status sub-record.
    The source checks neither the [memcpy] nor the store to the bitmap
    against the size of its array.  A store that falls outside is undefined
    in C (it lands on whatever the object holds behind the array); the
    model then leaves the array as it is and sets [ub], and from there on
    the fields of the decoder say nothing about the program: a theorem
    about the state of the decoder is about stores that fall inside. *)
Definition apply_fragment (d : decoder) (frag_seq : Z) (frag_data : list byte)
  : decoder :=
  let frag_offset := frag_seq * RS41_CALIB_FRAGSIZE H in
  let data_in := frag_offset + RS41_CALIB_FRAGSIZE H <=? Z.of_nat (length (_calibData d)) in
  let calib :=
    if data_in
    then memcpy (_calibData d) frag_offset frag_data (RS41_CALIB_FRAGSIZE H)
    else _calibData d in
  let byte_in := frag_seq / 8 <? Z.of_nat (length (_calibDataBitmap d)) in
  let bitmap :=
    wr (_calibDataBitmap d) (frag_seq / 8)
       (to_u8 (Z.land (u8 (rd (_calibDataBitmap d) (frag_seq / 8)))
                      (Z.lnot (Z.shiftl 1 (frag_seq mod 8))))) in
  let complete := forallb (fun b => u8 b =? 0) bitmap in
  mkDecoder calib bitmap
            (if complete then true else _calibrated d)
            (ub d || negb data_in || negb byte_in).

Definition updateCalibData (d : decoder) (frame : list byte) (sub : Z) : decoder :=
  apply_fragment d
    (u8 (data_at frame (sub + offsetof_frag_seq H)))
    (map (fun t => data_at frame (sub + offsetof_frag_data H + Z.of_nat t))
         (seq 0 (Z.to_nat (RS41_CALIB_FRAGSIZE H)))).

(** **** The members of a status sub-record

    [updateSondeData] casts the sub-record to [RS41Subframe_Status] and
    reads its members at their fixed offsets, whatever length the
    sub-record declares.  For a short sub-record at the end of a frame a
    member can lie behind the frame, where the source reads what follows in
    [readBuf] (the next frame, not yet descrambled) and the model, whose
    frame ends there, reads zeros.  [status_inside] tells that the reads
    stay inside the frame: [frame_seq], [frag_seq] and [frag_data] lie in
    it, and so does the NUL that ends the C string at [serial]. *)
Definition status_inside (frame : list byte) (sub : Z) : bool :=
  let base := offsetof_data H + sub in
  let size := Z.of_nat (length frame) in
  (0 <=? base + offsetof_frame_seq H) &&
  (base + offsetof_frame_seq H + 2 <=? size) &&
  (0 <=? base + offsetof_frag_seq H) &&
  (base + offsetof_frag_seq H + 1 <=? size) &&
  (0 <=? base + offsetof_frag_data H) &&
  (base + offsetof_frag_data H + RS41_CALIB_FRAGSIZE H <=? size) &&
  (0 <=? base + offsetof_serial H) &&
  existsb (fun b => u8 b =? 0)
          (skipn (Z.to_nat (base + offsetof_serial H)) frame).

(** [info->serial = status->serial; info->serial[RS41_SERIAL_LEN] = 0;]

    [SondeData] is declared in [decoder.hpp], which is not among the
    sources; its member [serial] takes an assignment from the [char] array
    and an indexed store, as a [std::string] does.  The assignment copies
    the C string that starts at the member: the bytes up to the first NUL,
    which need not come within the [RS41_SERIAL_LEN] bytes of the member.
    The store then puts a NUL at index [RS41_SERIAL_LEN] of a longer
    string and leaves its length; on a string of just that length it
    rewrites the terminator; on a shorter one the index is out of range,
    and the model leaves the string as it is. *)
Definition serial_of (frame : list byte) (sub : Z) : list byte :=
  wr (c_str (skipn (Z.to_nat (offsetof_data H + sub + offsetof_serial H)) frame))
     (RS41_SERIAL_LEN H) x00.


(** **** [RS41Decoder::updateSondeData] *)
Definition burstkill_of (d : decoder) : Z :=
  let timer := rd16 (_calibData d) (offsetof_burstkill_timer H) in
  if timer =? 0xFFFF then -1 else timer.

Definition updateSondeData (ds : decoder * SondeData) (frame : list byte)
    (sub : Z) : decoder * SondeData :=
  let '(d, info) := ds in
  let type := subframe_type frame sub in
  if type =? RS41_SFTYPE_INFO H then
    let d' := updateCalibData d frame sub in
    (d', mkSondeData
           (_calibrated d')
           (serial_of frame sub)
           (burstkill_of d')
           (Z.lor (u8 (data_at frame (sub + offsetof_frame_seq H)))
                  (Z.shiftl (u8 (data_at frame (sub + offsetof_frame_seq H + 1))) 8))
           (position info))
  else if type =? RS41_SFTYPE_GPSPOS H then
    (d, mkSondeData (calibrated info) (serial info) (burstkill info) (seqno info)
          (gps_solution (skipn (Z.to_nat (offsetof_data H + sub)) frame)))
  else ds.

(** **** [RS41Decoder::run]: the walk over the sub-records of one frame *)

Definition bytesLeft (frame : list byte) : Z :=
  RS41_DATA_LEN H +
  (if u8 (rd frame (offsetof_extended_flag H)) =? RS41_FLAG_EXTENDED H
   then RS41_XDATA_LEN H else 0).

(** One round of [while (offset < bytesLeft)]: [inr] when the loop is left
    (condition false, or [break]), [inl] with the next offset otherwise. *)
Definition walk_step (frame : list byte) (offset : Z)
    (ds : decoder * SondeData)
  : (Z * (decoder * SondeData)) + (decoder * SondeData) :=
  if offset <? bytesLeft frame then
    let sub := offset in
    let offset' := offset + subframe_len frame sub + 4 in
    if offset' >? bytesLeft frame then inr ds
    else if negb (crcCheck frame sub) then inl (offset', ds)
    else inl (offset', updateSondeData ds frame sub)
  else inr ds.

(** The loop, for at most [fuel] rounds. *)
Fixpoint walk (fuel : nat) (frame : list byte) (offset : Z)
    (ds : decoder * SondeData) : option (decoder * SondeData) :=
  match fuel with
  | O => None
  | S fuel' =>
      match walk_step frame offset ds with
      | inl (offset', ds') => walk fuel' frame offset' ds'
      | inr ds' => Some ds'
      end
  end.

(** Every round moves the offset forward by at least 4, so
    [bytesLeft / 4 + 2] rounds are enough (theorem [walk_terminates]). *)
Definition walk_fuel (frame : list byte) : nat :=
  Z.to_nat (bytesLeft frame / 4) + 2.

(** The offsets of the sub-records that the loop hands to
    [updateSondeData], in order. *)
Fixpoint accepted_from (fuel : nat) (frame : list byte) (offset : Z) : list Z :=
  match fuel with
  | O => []
  | S fuel' =>
      if offset <? bytesLeft frame then
        let offset' := offset + subframe_len frame offset + 4 in
        if offset' >? bytesLeft frame then []
        else if negb (crcCheck frame offset)
             then accepted_from fuel' frame offset'
             else offset :: accepted_from fuel' frame offset'
      else []
  end.

Definition accepted (frame : list byte) : list Z :=
  accepted_from (walk_fuel frame) frame 0.

(** The body of [for (int i=0; i<numFrames; i++)]: the frame after
    descrambling and error correction, the decoder and the record after the
    walk.  [_rs] may be null, and [rsCorrect] is then skipped; its result
    is dropped by [run]. *)
Definition decoded (with_rs : bool) (frame : list byte) : list byte :=
  let frame1 := descramble frame in
  if with_rs then fst (rsCorrect frame1) else frame1.

Definition decode_frame (with_rs : bool) (ds : decoder * SondeData)
    (frame : list byte) : decoder * SondeData :=
  let frame2 := decoded with_rs frame in
  match walk (walk_fuel frame2) frame2 0 ds with
  | Some ds' => ds'
  | None => ds
  end.

(** The loop variables of [run]: the decoder, the one [sondeData] declared
    before the loop, and the records handed to [_handler] so far. *)
Definition run_frame (with_rs : bool)
    (s : decoder * SondeData * list SondeData) (frame : list byte)
  : decoder * SondeData * list SondeData :=
  let '(d, info, out) := s in
  let '(d', info') := decode_frame with_rs (d, info) frame in
  (d', info', out ++ [info']).

(** [RS41Decoder::run] on the whole frames of one [_in->read()]: the decoder
    afterwards, the records handed to [_handler], and [outCount]. *)
Definition run (with_rs : bool) (d : decoder) (frames : list (list byte))
  : decoder * list SondeData * Z :=
  let '(d', _, out) :=
    fold_left (run_frame with_rs) frames (d, default_SondeData, []) in
  (d', out, Z.of_nat (length frames)).

End Decoder.

Arguments mkSondeData {gps_fix}.
Arguments calibrated {gps_fix}.
Arguments serial {gps_fix}.
Arguments burstkill {gps_fix}.
Arguments seqno {gps_fix}.
Arguments position {gps_fix}.
Arguments default_SondeData {gps_fix}.
Arguments updateSondeData {gps_fix}.
Arguments walk_step {gps_fix}.
Arguments walk {gps_fix}.
Arguments decode_frame {gps_fix}.
Arguments run_frame {gps_fix}.
Arguments run {gps_fix}.

(** *** Applying calibration fragments *)

Definition apply_fragments (H : rs41_h) (d : decoder)
    (frags : list (Z * list byte)) : decoder :=
  fold_left (fun d f => apply_fragment H d (fst f) (snd f)) frags d.

(** The 51 fragments of the RS41, each of sixteen bytes [0x11], in order. *)
Definition all_fragments : list (Z * list byte) :=
  map (fun i => (Z.of_nat i, repeat x11 16)) (seq 0 51).

(** A bit of the last bitmap byte that [init] leaves set although no
    declared fragment owns it (lemma [init_bitmap_stuck]). *)
Definition stuck_bit (H : rs41_h) : Z :=
  if RS41_CALIB_FRAGCOUNT H mod 8 =? 0 then 6 else 7.

(** A decoder that declared fragments cannot complete. *)
Definition stuck (H : rs41_h) (d : decoder) : Prop :=
  Z.of_nat (length (_calibDataBitmap d)) = sizeof_calibDataBitmap H /\
  Z.testbit (u8 (rd (_calibDataBitmap d) (sizeof_calibDataBitmap H - 1)))
            (stuck_bit H) = true /\
  _calibrated d = false.

Section WalkSpec.

Variable H : rs41_h.

(** "Verify its trailing 2-byte checksum using CRC-16 with polynomial
    0x1021, initial value 0xFFFF, computed over the payload and compared
    little-endian against the trailing bytes". *)
Definition checksum_ok (frame : list byte) (sub : Z) : Prop :=
  crc16 0x1021 0xFFFF (subframe_data H frame sub) =
  u8 (data_at H frame (sub + 2 + subframe_len H frame sub)) +
  256 * u8 (data_at H frame (sub + 2 + subframe_len H frame sub + 1)).

(** "Starting at offset 0 in the data region, repeatedly: read
    type+length+payload, compute expected total span = payload length + 4,
    advance offset by that span; if the advance would exceed the region's
    byte bound, stop; on [checksum] mismatch, skip that record only":
    [spec_walk frame bound offset accepted] lists the offsets of the
    records that are handed on, from [offset] to the end of the walk. *)
Inductive spec_walk (frame : list byte) (bound : Z) : Z -> list Z -> Prop :=
| walk_region_end offset :
    bound <= offset ->
    spec_walk frame bound offset []
| walk_partial_record offset :
    offset < bound ->
    bound < offset + subframe_len H frame offset + 4 ->
    spec_walk frame bound offset []
| walk_record offset accepted :
    offset < bound ->
    offset + subframe_len H frame offset + 4 <= bound ->
    checksum_ok frame offset ->
    spec_walk frame bound (offset + subframe_len H frame offset + 4) accepted ->
    spec_walk frame bound offset (offset :: accepted)
| walk_skip_record offset accepted :
    offset < bound ->
    offset + subframe_len H frame offset + 4 <= bound ->
    ~ checksum_ok frame offset ->
    spec_walk frame bound (offset + subframe_len H frame offset + 4) accepted ->
    spec_walk frame bound offset accepted.

End WalkSpec.

(** *** The records of one call of [run], frame by frame *)

Section Records.

Variable gps_fix : Type.
Variable gps_solution : list byte -> gps_fix.
Variable H : rs41_h.
Variable rs_decode : list byte -> Z * list byte.
Variable with_rs : bool.

(** The records delivered for [frames] when the loop is entered with the
    decoder and the record [ds]. *)
Fixpoint records_from (ds : decoder * SondeData gps_fix)
    (frames : list (list byte)) : list (SondeData gps_fix) :=
  match frames with
  | [] => []
  | frame :: rest =>
      let ds' := decode_frame gps_solution H rs_decode with_rs ds frame in
      snd ds' :: records_from ds' rest
  end.


(** Every status sub-record that the walk of a decoded frame hands on is
    read inside the frame. *)
Definition status_reads_inside (frame : list byte) : bool :=
  forallb (fun sub =>
             negb (subframe_type H frame sub =? RS41_SFTYPE_INFO H) ||
             status_inside H frame sub)
          (accepted H frame).

End Records.

Arguments records_from {gps_fix}.

(** *** Sample frames and engines *)

(** The transmit-side scrambling, which [descramble_byte] undoes. *)
Definition scramble_byte (i : Z) (b : byte) : byte :=
  to_u8 (reorder_bits
           (Z.lxor (Z.lxor 0xFF (u8 b)) (u8 (rd _prn (i mod RS41_PRN_PERIOD))))).

Definition scramble (frame : list byte) : list byte :=
  map (fun i => scramble_byte (Z.of_nat i) (nth i frame x00))
      (seq 0 (length frame)).

(** The payload of a status sub-record: sequence number 7, a serial, and
    calibration fragment [0x31] of sixteen bytes [0x11]. *)
Definition status_payload : list byte :=
  [x07; x00] ++ [x53; x34; x38; x31; x30; x32; x39; x36] ++
  repeat x00 13 ++ [x31] ++ repeat x11 16.

Definition status_record : list byte :=
  let crc := crc16 CCITT_FALSE_POLY CCITT_FALSE_INIT status_payload in
  [x79; x28] ++ status_payload ++ [to_u8 crc; to_u8 (Z.shiftr crc 8)].

(** A standard frame, before scrambling, whose data region starts with
    [status_record] and is zero from there on. *)
Definition status_frame : list byte :=
  repeat x00 56 ++ [x0f] ++ status_record ++ repeat x00 417.

(** A standard frame, before scrambling, of zeros. *)
Definition empty_frame : list byte := repeat x00 518.

(** A status sub-record like [status_record] but with fragment index 51
    ([0x33]), the first index behind the 51 declared fragments, and the
    standard frame that carries it. *)
Definition stray_payload : list byte :=
  [x07; x00] ++ [x53; x34; x38; x31; x30; x32; x39; x36] ++
  repeat x00 13 ++ [x33] ++ repeat x11 16.

Definition stray_record : list byte :=
  let crc := crc16 CCITT_FALSE_POLY CCITT_FALSE_INIT stray_payload in
  [x79; x28] ++ stray_payload ++ [to_u8 crc; to_u8 (Z.shiftr crc 8)].

Definition stray_frame : list byte :=
  repeat x00 56 ++ [x0f] ++ stray_record ++ repeat x00 417.

(** The position fix of the samples: the twenty bytes of the sub-record
    that hold its header and the six ECEF values. *)
Definition raw_fix (bytes : list byte) : list byte := firstn 20 bytes.

(** Two engines that write the same 231 bytes back; the first reports
    success, the second failure. *)
Definition engine_pass (block : list byte) : Z * list byte :=
  (231, firstn 231 block).

Definition engine_fail (block : list byte) : Z * list byte :=
  (-1, firstn 231 block).

(** *** The interleaving of the specification, and frames laid out for it *)

Section Interleaving.

Variable H : rs41_h.


(** A frame and a chunk length for which every access of [rsCorrect] falls
    inside the frame and the scratch block: the parity region lies before
    the byte that precedes the data region, and the data region holds
    [I * chunk - 1] bytes at least. *)
Definition well_laid (frame : list byte) (chunk : Z) : Prop :=
  0 < RS41_REEDSOLOMON_INTERLEAVING H /\
  0 <= RS41_REEDSOLOMON_T H /\
  0 <= chunk <= RS41_REEDSOLOMON_K H /\
  RS41_REEDSOLOMON_K H + RS41_REEDSOLOMON_T H <= RS41_REEDSOLOMON_N H /\
  0 <= offsetof_rs_checksum H /\
  offsetof_rs_checksum H +
    RS41_REEDSOLOMON_T H * RS41_REEDSOLOMON_INTERLEAVING H <= offsetof_data H - 1 /\
  offsetof_data H + RS41_REEDSOLOMON_INTERLEAVING H * chunk - 1
    <= Z.of_nat (length frame).

End Interleaving.

(** *** Parts of a frame

    The bytes of a frame that lie outside the parity bytes and outside the
    [I * chunk] bytes from the byte before the data region on. *)
Definition outside_code (H : rs41_h) (chunk j : Z) : Prop :=
  j < offsetof_rs_checksum H \/
  offsetof_rs_checksum H + RS41_REEDSOLOMON_T H * RS41_REEDSOLOMON_INTERLEAVING H
    <= j < offsetof_data H - 1 \/
  offsetof_data H - 1 + RS41_REEDSOLOMON_INTERLEAVING H * chunk <= j.

(** *** Slots of the calibration bitmap

    The bit that [updateCalibData] clears for fragment [k]: bit [k % 8] of
    [_calibDataBitmap[k / 8]]. *)
Definition slot (bitmap : list byte) (k : Z) : bool :=
  Z.testbit (u8 (rd bitmap (k / 8))) (k mod 8).

(** [_calibDataBitmap[k/8] &= ~(1 << k%8)] *)
Definition clear_slot (bitmap : list byte) (k : Z) : list byte :=
  wr bitmap (k / 8)
     (to_u8 (Z.land (u8 (rd bitmap (k / 8))) (Z.lnot (Z.shiftl 1 (k mod 8))))).

End RS41.

(** ** The log of data points: [PTUWriter] *)

Module PTU.
Import String.
Local Open Scope string_scope.

(** The first line of a log. *)
Definition header : string :=
  "Epoch,Temperature,Relative humidity,Dew point,Pressure,Latitude,Longitude,Altitude"
  ++ String (Ascii.ascii_of_nat 10) "".

(** The writer and the files it works on: [_fd] is the stream of the open
    file, here its name, or [None] for a null pointer; [files] gives for
    each name the text handed to the file of that name so far, [None] where
    there is no file. *)
Record state := mkState {
  _fd : option string;
  files : string -> option string
}.

(** A file is created or replaced. *)
Definition put (fs : string -> option string) (name text : string)
  : string -> option string :=
  fun n => if String.eqb n name then Some text else fs n.

(** [fprintf] on an open stream: the text goes behind what the file holds. *)
Definition write (fs : string -> option string) (name text : string)
  : string -> option string :=
  match fs name with
  | Some old => put fs name (old ++ text)
  | None => put fs name text
  end.

Section Writer.

(** Whether [fopen(fname, "wb")] succeeds is up to the host. *)
Variable fopen_succeeds : string -> bool.

(** The eight arguments of [addPoint], and the line that
    [fprintf(_fd, "%ld,%.1f,%.1f,%.1f,%.1f,%.1f,%.1f,%.1f\n", ...)] makes of
    them (floating point, not modelled). *)
Variable point : Type.
Variable format : point -> string.

(** [PTUWriter::deinit] *)
Definition deinit (s : state) : state :=
  match _fd s with
  | None => s
  | Some _ => mkState None (files s)
  end.

(** [PTUWriter::init]: the state afterwards and the value returned.
    [fopen] with mode ["wb"] empties the file. *)
Definition init (s : state) (fname : string) : state * bool :=
  let s1 := match _fd s with Some _ => deinit s | None => s end in
  if fopen_succeeds fname
  then (mkState (Some fname) (write (put (files s1) fname "") fname header), true)
  else (mkState None (files s1), false).

(** [PTUWriter::addPoint] *)
Definition addPoint (s : state) (p : point) : state :=
  match _fd s with
  | None => s
  | Some name => mkState (Some name) (write (files s) name (format p))
  end.

(** The lines of some points, one behind the other. *)
Definition rows (ps : list point) : string :=
  fold_left (fun text p => text ++ format p) ps "".

End Writer.

End PTU.

(** * Properties of the framer *)

Module FramerFacts.
Import Framer.

(** *** Counting bits *)

Lemma popcount_double z : 0 <= z -> popcount (2 * z) = popcount z.
Proof. destruct z; simpl; auto; lia. Qed.

Lemma land_double_pred z :
  0 < z -> Z.land (2 * z) (2 * z - 1) = 2 * Z.land z (z - 1).
Proof.
  intros Hz. apply Z.bits_inj'. intros n Hn.
  rewrite Z.land_spec.
  destruct (Z.eq_dec n 0) as [->|Hn0].
  - rewrite !Z.testbit_even_0. reflexivity.
  - replace n with (Z.succ (n - 1)) by lia.
    replace (2 * z - 1) with (2 * (z - 1) + 1) by lia.
    rewrite Z.testbit_odd_succ, !Z.testbit_even_succ by lia.
    now rewrite Z.land_spec.
Qed.

Lemma land_odd_even z : Z.land (2 * z + 1) (2 * z) = 2 * z.
Proof.
  apply Z.bits_inj'. intros n Hn.
  rewrite Z.land_spec.
  destruct (Z.eq_dec n 0) as [->|Hn0].
  - rewrite Z.testbit_odd_0, Z.testbit_even_0. reflexivity.
  - replace n with (Z.succ (n - 1)) by lia.
    rewrite Z.testbit_odd_succ, !Z.testbit_even_succ by lia.
    apply andb_diag.
Qed.

Lemma clear_lowest_bit p :
  0 <= Z.land (Zpos p) (Zpos p - 1) /\
  S (popcount (Z.land (Zpos p) (Zpos p - 1))) = popcount_pos p.
Proof.
  induction p as [q IH|q IH|].
  - replace (Z.pos q~1 - 1) with (Z.pos q~0) by lia.
    change (Z.pos q~1) with (2 * Z.pos q + 1).
    change (Z.pos q~0) with (2 * Z.pos q).
    rewrite land_odd_even. split; [lia | reflexivity].
  - change (Z.pos q~0) with (2 * Z.pos q).
    rewrite land_double_pred by lia.
    destruct IH as [H0 H1]. split; [lia|].
    rewrite popcount_double by lia. exact H1.
  - split; [reflexivity | reflexivity].
Qed.

Lemma popcount_loop_spec fuel : forall v corr,
  0 <= v -> (popcount v <= fuel)%nat ->
  popcount_loop fuel v corr = corr + Z.of_nat (popcount v).
Proof.
  induction fuel as [|fuel IH]; intros v corr Hv Hf.
  - simpl. destruct v as [|p|p]; simpl in *; lia.
  - simpl. destruct (Z.eqb_spec v 0) as [->|Hne].
    + simpl. lia.
    + destruct v as [|p|p]; try lia.
      destruct (clear_lowest_bit p) as [H0 H1].
      rewrite IH; [|exact H0|simpl in Hf; lia].
      simpl popcount at 2. lia.
Qed.

Lemma popcount_pos_bound n : forall p,
  Zpos p < 2 ^ Z.of_nat n ->
  (popcount_pos p <= n)%nat /\
  (popcount_pos p = n -> Zpos p = 2 ^ Z.of_nat n - 1).
Proof.
  induction n as [|n IH]; intros p Hp.
  - simpl in Hp. lia.
  - rewrite Nat2Z.inj_succ, Z.pow_succ_r in * by lia.
    destruct p as [q|q|]; cbn [popcount_pos].
    + rewrite (Pos2Z.inj_xI q) in *.
      destruct (IH q) as [H1 H2]; [lia|]. split; [lia|].
      intros E. rewrite H2; lia.
    + rewrite (Pos2Z.inj_xO q) in *.
      destruct (IH q) as [H1 H2]; [lia|]. split; [lia|]. lia.
    + split; [lia|]. intros E. assert (n = 0)%nat by lia. subst. reflexivity.
Qed.

Lemma popcount_bound n z :
  0 <= z < 2 ^ Z.of_nat n -> (popcount z <= n)%nat.
Proof.
  destruct z as [|p|p]; simpl; intros H; try lia.
  now apply popcount_pos_bound.
Qed.

Lemma popcount_full n z :
  0 <= z < 2 ^ Z.of_nat n -> popcount z = n -> z = 2 ^ Z.of_nat n - 1.
Proof.
  destruct z as [|p|p]; simpl; intros H E; try lia.
  - subst n. reflexivity.
  - now apply popcount_pos_bound.
Qed.

Lemma popcount_zero z : 0 <= z -> popcount z = O -> z = 0.
Proof.
  destruct z as [|p|p]; simpl; intros H E; try lia.
  destruct p; simpl in E; try lia.
  exfalso. induction p; simpl in E; auto; lia.
Qed.

(** *** [inverseCorrelateU64] is the Hamming distance *)

Lemma lxor_range64 x y :
  0 <= x < 2 ^ 64 -> 0 <= y < 2 ^ 64 -> 0 <= Z.lxor x y < 2 ^ 64.
Proof.
  intros Hx Hy. split.
  - apply Z.lxor_nonneg. lia.
  - destruct (Z.eq_dec (Z.lxor x y) 0) as [->|Hne]; [reflexivity|].
    assert (0 <= Z.lxor x y) by (apply Z.lxor_nonneg; lia).
    apply Z.log2_lt_pow2; [lia|].
    pose proof (Z.log2_lxor x y ltac:(lia) ltac:(lia)) as Hl.
    assert (Z.log2 x < 64).
    { destruct (Z.eq_dec x 0) as [->|]; [reflexivity|apply Z.log2_lt_pow2; lia]. }
    assert (Z.log2 y < 64).
    { destruct (Z.eq_dec y 0) as [->|]; [reflexivity|apply Z.log2_lt_pow2; lia]. }
    lia.
Qed.

Lemma inverseCorrelateU64_popcount x y :
  0 <= x < 2 ^ 64 -> 0 <= y < 2 ^ 64 ->
  inverseCorrelateU64 x y = Z.of_nat (popcount (Z.lxor x y)).
Proof.
  intros Hx Hy. unfold inverseCorrelateU64.
  pose proof (lxor_range64 x y Hx Hy) as Hr.
  rewrite popcount_loop_spec; [lia|lia|].
  apply (popcount_bound 64). exact Hr.
Qed.

Lemma inverseCorrelateU64_range x y :
  0 <= x < 2 ^ 64 -> 0 <= y < 2 ^ 64 ->
  0 <= inverseCorrelateU64 x y <= 64.
Proof.
  intros Hx Hy. rewrite inverseCorrelateU64_popcount by assumption.
  pose proof (popcount_bound 64 _ (lxor_range64 x y Hx Hy)). lia.
Qed.

Lemma inverseCorrelateU64_zero x y :
  0 <= x < 2 ^ 64 -> 0 <= y < 2 ^ 64 ->
  (inverseCorrelateU64 x y = 0 <-> y = x).
Proof.
  intros Hx Hy. rewrite inverseCorrelateU64_popcount by assumption.
  split.
  - intros E. apply Z.lxor_eq. apply popcount_zero.
    + apply Z.lxor_nonneg. lia.
    + rewrite Z.lxor_comm. lia.
  - intros ->. rewrite Z.lxor_nilpotent. reflexivity.
Qed.

Lemma inverseCorrelateU64_full x y :
  0 <= x < 2 ^ 64 -> 0 <= y < 2 ^ 64 ->
  (inverseCorrelateU64 x y = 64 <-> y = invert64 x).
Proof.
  intros Hx Hy. rewrite inverseCorrelateU64_popcount by assumption.
  unfold invert64, ones64. split.
  - intros E.
    assert (Z.lxor x y = 2 ^ 64 - 1) as E'.
    { apply (popcount_full 64); [apply lxor_range64; assumption | lia]. }
    rewrite <- E', <- Z.lxor_assoc, Z.lxor_nilpotent, Z.lxor_0_l. reflexivity.
  - intros ->.
    rewrite <- Z.lxor_assoc, Z.lxor_nilpotent, Z.lxor_0_l. reflexivity.
Qed.

(** *** The sliding window *)

Lemma lor_shiftl_add w n b :
  0 <= n -> 0 <= b < 2 ^ n -> Z.lor (Z.shiftl w n) b = w * 2 ^ n + b.
Proof.
  intros Hn Hb.
  assert (Z.land (Z.shiftl w n) b = 0) as Hdisj.
  { apply Z.bits_inj'. intros i Hi.
    rewrite Z.land_spec, Z.bits_0.
    destruct (Z.lt_ge_cases i n) as [Hlt|Hge].
    - rewrite Z.shiftl_spec_low by lia. reflexivity.
    - replace (Z.testbit b i) with false; [apply andb_false_r|].
      symmetry. destruct (Z.eq_dec b 0) as [->|Hb0]; [apply Z.bits_0|].
      apply Z.bits_above_log2; [lia|].
      assert (Z.log2 b < n) by (apply Z.log2_lt_pow2; lia). lia. }
  rewrite <- Z.lxor_lor by exact Hdisj.
  rewrite <- Z.add_nocarry_lxor by exact Hdisj.
  rewrite Z.shiftl_mul_pow2 by lia. reflexivity.
Qed.

Lemma land_shiftr_bit a s :
  0 <= s -> Z.land (Z.shiftr a s) 1 = Z.b2z (Z.testbit a s).
Proof.
  intros Hs. change 1 with (Z.ones 1).
  rewrite Z.land_ones by lia. change (2 ^ 1) with 2.
  rewrite <- Z.bit0_mod, Z.shiftr_spec by lia. reflexivity.
Qed.

Lemma u8_range b : 0 <= u8 b < 256.
Proof.
  unfold u8. pose proof (Byte.to_N_bounded b). lia.
Qed.

Lemma bits_value_range f k n : 0 <= bits_value f k n < 2 ^ Z.of_nat n.
Proof.
  induction n as [|n IH].
  - simpl. lia.
  - cbn [bits_value]. rewrite Nat2Z.inj_succ, Z.pow_succ_r by lia.
    destruct (frame_bit f (k + n)); simpl Z.b2z; lia.
Qed.

Lemma bits_value_range_pow f k n m :
  m = Z.of_nat n -> 0 <= bits_value f k n < 2 ^ m.
Proof. intros ->. apply bits_value_range. Qed.

Lemma bits_value64_range f p : 0 <= bits_value f p 64 < 2 ^ 64.
Proof. apply bits_value_range_pow. reflexivity. Qed.

Lemma bits_value_app f k n m :
  bits_value f k (n + m) =
  bits_value f k n * 2 ^ Z.of_nat m + bits_value f (k + n) m.
Proof.
  induction m as [|m IH].
  - rewrite Nat.add_0_r. simpl. lia.
  - rewrite Nat.add_succ_r. cbn [bits_value].
    rewrite IH, Nat2Z.inj_succ, Z.pow_succ_r by lia.
    rewrite Nat.add_assoc. lia.
Qed.

Lemma bits_value_head f k n :
  bits_value f k (S n) =
  Z.b2z (frame_bit f k) * 2 ^ Z.of_nat n + bits_value f (S k) n.
Proof.
  change (S n) with (1 + n)%nat. rewrite bits_value_app.
  cbn [bits_value]. rewrite Nat.add_0_r, Nat.add_1_r. lia.
Qed.

Lemma bits_value_snoc f k n :
  bits_value f k (S n) =
  2 * bits_value f k n + Z.b2z (frame_bit f (k + n)).
Proof. reflexivity. Qed.

(** Shifting one more bit into a full 64-bit window drops its first bit. *)
Lemma window_slide f p :
  wrap64 (Z.lor (Z.shiftl (bits_value f p 64) 1)
                (Z.b2z (frame_bit f (p + 64)))) =
  bits_value f (S p) 64.
Proof.
  rewrite lor_shiftl_add; [|lia|destruct (frame_bit f (p + 64)); simpl; lia].
  change (2 ^ 1) with 2.
  pose proof (bits_value_head f p 64) as Hh.
  rewrite bits_value_snoc in Hh.
  pose proof (bits_value64_range f (S p)) as Hr.
  change (Z.of_nat 64) with 64 in *.
  unfold wrap64.
  replace (bits_value f p 64 * 2 + Z.b2z (frame_bit f (p + 64)))
    with (bits_value f (S p) 64 + Z.b2z (frame_bit f p) * 2 ^ 64) by lia.
  rewrite Z.mod_add by lia.
  apply Z.mod_small. exact Hr.
Qed.

Lemma frame_bit_at f i j :
  (j < 8)%nat ->
  frame_bit f (8 * i + j) = Z.testbit (u8 (nth i f x00)) (7 - Z.of_nat j).
Proof.
  intros Hj. unfold frame_bit.
  rewrite <- (Nat.div_unique (8 * i + j) 8 i j) by lia.
  rewrite <- (Nat.mod_unique (8 * i + j) 8 i j) by lia.
  reflexivity.
Qed.

Lemma byte_value (b : byte) :
  2 * (2 * (2 * (2 * (2 * (2 * (2 * (2 * 0
    + Z.b2z (Z.testbit (u8 b) 7)) + Z.b2z (Z.testbit (u8 b) 6))
    + Z.b2z (Z.testbit (u8 b) 5)) + Z.b2z (Z.testbit (u8 b) 4))
    + Z.b2z (Z.testbit (u8 b) 3)) + Z.b2z (Z.testbit (u8 b) 2))
    + Z.b2z (Z.testbit (u8 b) 1)) + Z.b2z (Z.testbit (u8 b) 0) = u8 b.
Proof. destruct b; reflexivity. Qed.

Lemma bits_value_byte f m : bits_value f (8 * m) 8 = u8 (nth m f x00).
Proof.
  cbn [bits_value].
  rewrite !frame_bit_at by lia.
  apply byte_value.
Qed.

Lemma firstn_snoc_nth (l : list byte) m :
  (m < length l)%nat -> firstn (S m) l = firstn m l ++ [nth m l x00].
Proof.
  revert l. induction m as [|m IH]; intros [|x l] H; simpl in *; try lia.
  - reflexivity.
  - f_equal. apply IH. lia.
Qed.

Lemma initial_window_bits f m :
  (m <= 8)%nat -> (m <= length f)%nat ->
  fold_left (fun w b => wrap64 (Z.lor (Z.shiftl w 8) (u8 b))) (firstn m f) 0 =
  bits_value f 0 (8 * m).
Proof.
  induction m as [|m IH]; intros H8 Hlen.
  - reflexivity.
  - rewrite firstn_snoc_nth, fold_left_app by lia.
    rewrite IH by lia. cbn [fold_left].
    rewrite lor_shiftl_add by (pose proof (u8_range (nth m f x00)); lia).
    replace (8 * S m)%nat with (8 * m + 8)%nat by lia.
    rewrite bits_value_app, Nat.add_0_l, bits_value_byte.
    change (2 ^ Z.of_nat 8) with (2 ^ 8).
    unfold wrap64. apply Z.mod_small.
    pose proof (bits_value_range f 0 (8 * m)) as Hr.
    pose proof (u8_range (nth m f x00)) as Hb.
    assert (2 ^ Z.of_nat (8 * m) <= 2 ^ 56)
      by (apply Z.pow_le_mono_r; lia).
    change (2 ^ 8) with 256. change (2 ^ 64) with (2 ^ 56 * 256). nia.
Qed.

(** *** The search with an eight-byte sync word

    With [_syncLen = 8] the mask is [~0ULL] and the window is the 64 bits of
    the buffer at the current offset. *)

Section FullMask.

Variable sw : Z.
Hypothesis sw_range : 0 <= sw < 2 ^ 64.
Variable f : list byte.

Lemma syncMask_8 : syncMask 8 = ones64.
Proof. reflexivity. Qed.

Lemma land_ones64 w : 0 <= w < 2 ^ 64 -> Z.land w ones64 = w.
Proof.
  intros Hw. change ones64 with (Z.ones 64).
  rewrite Z.land_ones by lia. apply Z.mod_small. exact Hw.
Qed.

Lemma syncWord_8 : syncWord sw 8 = sw.
Proof.
  unfold syncWord. rewrite syncMask_8. unfold wrap64.
  rewrite Z.mod_small by exact sw_range. apply land_ones64. exact sw_range.
Qed.

Lemma bit_step_window tmp i j s :
  window (bit_step sw 8 tmp i s j) =
  wrap64 (Z.lor (Z.shiftl (window s) 1) (Z.land (Z.shiftr tmp (7 - j)) 1)).
Proof.
  unfold bit_step.
  generalize (inverseCorrelateU64 (syncWord sw 8) (Z.land (window s) (syncMask 8))).
  intros d. cbn [window].
  destruct (d <? bestCorr s); cbn [window bestCorr];
    match goal with |- context [if ?c then _ else _] => destruct c end;
    reflexivity.
Qed.

Lemma bit_step_best tmp i j s :
  let c := consider 64 (i * 8 + j)
             (inverseCorrelateU64 (syncWord sw 8) (Z.land (window s) (syncMask 8))) s in
  bestCorr (bit_step sw 8 tmp i s j) = bestCorr c /\
  bestOffset (bit_step sw 8 tmp i s j) = bestOffset c /\
  inverted (bit_step sw 8 tmp i s j) = inverted c.
Proof.
  unfold bit_step, consider.
  generalize (inverseCorrelateU64 (syncWord sw 8) (Z.land (window s) (syncMask 8))).
  intros d. cbn [bestCorr bestOffset inverted]. change (8 * 8) with 64.
  auto.
Qed.

Lemma bit_step_full i j s :
  (j < 8)%nat ->
  window s = bits_value f (8 * i + j) 64 ->
  let p := (8 * i + j)%nat in
  let s' := bit_step sw 8 (u8 (nth (8 + i) f x00)) (Z.of_nat i) s (Z.of_nat j) in
  let c := consider 64 (Z.of_nat p) (inverseCorrelateU64 sw (bits_value f p 64)) s in
  window s' = bits_value f (S p) 64 /\
  bestCorr s' = bestCorr c /\ bestOffset s' = bestOffset c /\
  inverted s' = inverted c.
Proof.
  intros Hj Hw p s' c. subst s' c. split.
  - rewrite bit_step_window, Hw.
    rewrite land_shiftr_bit by lia.
    rewrite <- (frame_bit_at f (8 + i) j Hj).
    replace (8 * (8 + i) + j)%nat with (p + 64)%nat by (subst p; lia).
    apply window_slide.
  - pose proof (bit_step_best (u8 (nth (8 + i) f x00)) (Z.of_nat i) (Z.of_nat j) s) as H.
    cbv zeta in H.
    rewrite syncWord_8, syncMask_8, Hw in H.
    rewrite land_ones64 in H by (apply bits_value64_range).
    replace (Z.of_nat i * 8 + Z.of_nat j) with (Z.of_nat p) in H by (subst p; lia).
    exact H.
Qed.

Lemma bit_step_scan i j s :
  (j < 8)%nat ->
  window s = bits_value f (8 * i + j) 64 ->
  bit_step sw 8 (u8 (nth (8 + i) f x00)) (Z.of_nat i) s (Z.of_nat j) =
  scan_step sw f s (8 * i + j).
Proof.
  intros Hj Hw.
  destruct (bit_step_full i j s Hj Hw) as (H1 & H2 & H3 & H4).
  unfold scan_step, set_window.
  destruct (bit_step sw 8 (u8 (nth (8 + i) f x00)) (Z.of_nat i) s (Z.of_nat j))
    as [w b o v].
  cbn [window bestCorr bestOffset inverted] in H1, H2, H3, H4.
  now subst.
Qed.

Lemma scan_step_window s p :
  window (scan_step sw f s p) = bits_value f (S p) 64.
Proof. reflexivity. Qed.

Lemma scan_step_eq s p :
  scan_step sw f s p =
  set_window (bits_value f (S p) 64)
    (consider 64 (Z.of_nat p) (inverseCorrelateU64 sw (bits_value f p 64)) s).
Proof. reflexivity. Qed.

Lemma set_window_best w (s : search) : bestCorr (set_window w s) = bestCorr s.
Proof. reflexivity. Qed.

Lemma set_window_offset w (s : search) : bestOffset (set_window w s) = bestOffset s.
Proof. reflexivity. Qed.

Lemma set_window_inverted w (s : search) : inverted (set_window w s) = inverted s.
Proof. reflexivity. Qed.

Lemma scan_step_best s p :
  bestCorr (scan_step sw f s p) =
  bestCorr (consider 64 (Z.of_nat p)
              (inverseCorrelateU64 sw (bits_value f p 64)) s).
Proof. rewrite scan_step_eq. apply set_window_best. Qed.

Lemma scan_step_offset s p :
  bestOffset (scan_step sw f s p) =
  bestOffset (consider 64 (Z.of_nat p)
                (inverseCorrelateU64 sw (bits_value f p 64)) s).
Proof. rewrite scan_step_eq. apply set_window_offset. Qed.

Lemma scan_step_inverted s p :
  inverted (scan_step sw f s p) =
  inverted (consider 64 (Z.of_nat p)
              (inverseCorrelateU64 sw (bits_value f p 64)) s).
Proof. rewrite scan_step_eq. apply set_window_inverted. Qed.

Lemma bits_scan i m : forall j0 s,
  (j0 + m <= 8)%nat ->
  window s = bits_value f (8 * i + j0) 64 ->
  fold_left (bit_step sw 8 (u8 (nth (8 + i) f x00)) (Z.of_nat i))
            (map Z.of_nat (seq j0 m)) s =
  fold_left (scan_step sw f) (seq (8 * i + j0) m) s.
Proof.
  induction m as [|m IH]; intros j0 s Hm Hw.
  - reflexivity.
  - cbn [seq map fold_left].
    rewrite bit_step_scan by (lia || exact Hw).
    replace (S (8 * i + j0)) with (8 * i + S j0)%nat by lia.
    apply IH; [lia|].
    rewrite scan_step_window. f_equal. lia.
Qed.

Lemma byte_step_scan i s :
  window s = bits_value f (8 * i) 64 ->
  byte_step sw 8 s (Z.of_nat i, nth (8 + i) f x00) =
  fold_left (scan_step sw f) (seq (8 * i) 8) s.
Proof.
  intros Hw. unfold byte_step. cbn [fst snd].
  change [0; 1; 2; 3; 4; 5; 6; 7] with (map Z.of_nat (seq 0 8)).
  rewrite (bits_scan i 8 0%nat s) by (lia || (rewrite Nat.add_0_r; exact Hw)).
  rewrite Nat.add_0_r. reflexivity.
Qed.

Lemma fold_scan_window n : forall p s,
  window s = bits_value f p 64 ->
  window (fold_left (scan_step sw f) (seq p n) s) = bits_value f (p + n) 64.
Proof.
  induction n as [|n IH]; intros p s Hw.
  - rewrite Nat.add_0_r. exact Hw.
  - cbn [seq fold_left]. rewrite IH by apply scan_step_window.
    f_equal. lia.
Qed.

Lemma skipn_cons_nth (l : list byte) m :
  (m < length l)%nat -> skipn m l = nth m l x00 :: skipn (S m) l.
Proof.
  revert l. induction m as [|m IH]; intros [|x l] H; simpl in *; try lia.
  - reflexivity.
  - apply IH. lia.
Qed.

Lemma rounds_cons a n (x : byte) l :
  combine (map Z.of_nat (seq a (S n))) (firstn (S n) (x :: l)) =
  (Z.of_nat a, x) :: combine (map Z.of_nat (seq (S a) n)) (firstn n l).
Proof. reflexivity. Qed.

Lemma fold_left_cons {A B} (g : A -> B -> A) x l s :
  fold_left g (x :: l) s = fold_left g l (g s x).
Proof. reflexivity. Qed.

Lemma rounds_scan n : forall a s,
  (8 + a + n <= length f)%nat ->
  window s = bits_value f (8 * a) 64 ->
  fold_left (byte_step sw 8)
            (combine (map Z.of_nat (seq a n)) (firstn n (skipn (8 + a) f))) s =
  fold_left (scan_step sw f) (seq (8 * a) (8 * n)) s.
Proof.
  induction n as [|n IH]; intros a s Hlen Hw.
  - rewrite Nat.mul_0_r. reflexivity.
  - rewrite (skipn_cons_nth f (8 + a)) by lia.
    rewrite rounds_cons, fold_left_cons.
    rewrite byte_step_scan by exact Hw.
    replace (8 * S n)%nat with (8 + 8 * n)%nat by lia.
    rewrite seq_app, fold_left_app.
    replace (8 * a + 8)%nat with (8 * S a)%nat by lia.
    replace (S (8 + a)) with (8 + S a)%nat by lia.
    apply IH; [lia|].
    rewrite fold_scan_window by exact Hw. f_equal. lia.
Qed.

Lemma correlateU64_scan len :
  length f = Z.to_nat len -> 8 <= len ->
  correlateU64 sw 8 f len =
  if inverseCorrelateU64 sw (bits_value f 0 64) =? 0 then (0, None)
  else
    (bestOffset
       (fold_left (scan_step sw f) (seq 0 (8 * (Z.to_nat len - 8)))
          (mkSearch (bits_value f 0 64)
             (inverseCorrelateU64 sw (bits_value f 0 64)) 0 None)),
     inverted
       (fold_left (scan_step sw f) (seq 0 (8 * (Z.to_nat len - 8)))
          (mkSearch (bits_value f 0 64)
             (inverseCorrelateU64 sw (bits_value f 0 64)) 0 None))).
Proof.
  intros Hlen H8. unfold correlateU64, initial_window, rounds.
  change (Z.to_nat 8) with 8%nat.
  rewrite initial_window_bits by lia.
  change (8 * 8)%nat with 64%nat.
  rewrite syncWord_8, syncMask_8.
  rewrite land_ones64 by (apply bits_value64_range).
  cbv zeta.
  destruct (inverseCorrelateU64 sw (bits_value f 0 64) =? 0); [reflexivity|].
  rewrite length_firstn, length_skipn.
  replace (Init.Nat.min (Z.to_nat (len - 8)) (length f - 8))
    with (Z.to_nat len - 8)%nat by lia.
  replace (Z.to_nat (len - 8)) with (Z.to_nat len - 8)%nat by lia.
  change (skipn 8 f) with (skipn (8 + 0) f).
  rewrite rounds_scan by (reflexivity || lia).
  reflexivity.
Qed.

(** Search rounds, as a function of the distance found. *)

Lemma consider_miss p d s :
  0 < d < 64 -> 0 < bestCorr s -> 0 < bestCorr (consider 64 p d s).
Proof.
  intros Hd Hb. unfold consider.
  destruct (Z.ltb_spec d (bestCorr s)); cbn [bestCorr];
    match goal with |- context [if ?c then _ else _] => destruct c end;
    cbn [bestCorr]; lia.
Qed.

Lemma consider_exact p s :
  0 < bestCorr s ->
  consider 64 p 0 s = mkSearch (window s) 0 p (Some false).
Proof.
  intros Hb. unfold consider.
  destruct (Z.ltb_spec 0 (bestCorr s)); [|lia].
  cbn [bestCorr window].
  destruct (Z.ltb_spec (64 - 0) 0); [lia|reflexivity].
Qed.

Lemma consider_inverse p s :
  0 < bestCorr s ->
  consider 64 p 64 s = mkSearch (window s) 0 p (Some true).
Proof.
  intros Hb. unfold consider. change (64 - 64) with 0.
  destruct (Z.ltb_spec 64 (bestCorr s)); cbn [bestCorr window].
  - reflexivity.
  - destruct (Z.ltb_spec 0 (bestCorr s)); [reflexivity|lia].
Qed.

Lemma consider_done p d s :
  0 <= d <= 64 -> bestCorr s = 0 -> consider 64 p d s = s.
Proof.
  intros Hd Hb. unfold consider.
  destruct (Z.ltb_spec d (bestCorr s)); [lia|].
  destruct (Z.ltb_spec (64 - d) (bestCorr s)); [lia|reflexivity].
Qed.

Lemma distance_range p :
  0 <= inverseCorrelateU64 sw (bits_value f p 64) <= 64.
Proof.
  apply inverseCorrelateU64_range; [exact sw_range|].
  apply bits_value64_range.
Qed.

Lemma scan_before n : forall p s,
  (forall q, (p <= q < p + n)%nat ->
     bits_value f q 64 <> sw /\ bits_value f q 64 <> invert64 sw) ->
  0 < bestCorr s ->
  0 < bestCorr (fold_left (scan_step sw f) (seq p n) s).
Proof.
  induction n as [|n IH]; intros p s Hno Hb.
  - exact Hb.
  - rewrite <- cons_seq, fold_left_cons. apply IH.
    + intros q Hq. apply Hno. lia.
    + rewrite scan_step_best.
      destruct (Hno p ltac:(lia)) as [H1 H2].
      pose proof (distance_range p) as Hr.
      pose proof (bits_value64_range f p) as Hv.
      apply consider_miss; [|exact Hb].
      assert (inverseCorrelateU64 sw (bits_value f p 64) <> 0).
      { intros E. apply (inverseCorrelateU64_zero sw _ sw_range Hv) in E. auto. }
      assert (inverseCorrelateU64 sw (bits_value f p 64) <> 64).
      { intros E. apply (inverseCorrelateU64_full sw _ sw_range Hv) in E. auto. }
      lia.
Qed.

Lemma scan_after n : forall p s,
  bestCorr s = 0 ->
  let s' := fold_left (scan_step sw f) (seq p n) s in
  bestCorr s' = 0 /\ bestOffset s' = bestOffset s /\ inverted s' = inverted s.
Proof.
  induction n as [|n IH]; intros p s Hb.
  - cbn. auto.
  - cbv zeta. rewrite <- cons_seq, fold_left_cons.
    assert (consider 64 (Z.of_nat p)
              (inverseCorrelateU64 sw (bits_value f p 64)) s = s) as Hc
      by (apply consider_done; [apply distance_range|exact Hb]).
    destruct (IH (S p) (scan_step sw f s p)) as (H1 & H2 & H3).
    + rewrite scan_step_best, Hc. exact Hb.
    + rewrite H1, H2, H3, scan_step_offset, scan_step_inverted, Hc. auto.
Qed.

Lemma seq_split_at n k :
  (k < n)%nat -> seq 0 n = seq 0 k ++ k :: seq (S k) (n - k - 1).
Proof.
  intros Hk. replace n with (k + S (n - k - 1))%nat at 1 by lia.
  rewrite seq_app, Nat.add_0_l, <- cons_seq. reflexivity.
Qed.

(** The search stops moving at the first offset where the window is the
    sync word or its inverse. *)
Lemma scan_first_match n k (flag : bool) s :
  (k < n)%nat ->
  (forall q, (q < k)%nat ->
     bits_value f q 64 <> sw /\ bits_value f q 64 <> invert64 sw) ->
  bits_value f k 64 = (if flag then invert64 sw else sw) ->
  0 < bestCorr s ->
  let s' := fold_left (scan_step sw f) (seq 0 n) s in
  bestOffset s' = Z.of_nat k /\ inverted s' = Some flag.
Proof.
  intros Hk Hno Hat Hb.
  pose proof (bits_value64_range f k) as Hv.
  rewrite (seq_split_at n k Hk), fold_left_app, fold_left_cons.
  set (s1 := fold_left (scan_step sw f) (seq 0 k) s).
  assert (0 < bestCorr s1) as Hb1
    by (apply scan_before; [intros q Hq; apply Hno; lia | exact Hb]).
  set (s2 := scan_step sw f s1 k).
  assert (bestCorr s2 = 0 /\ bestOffset s2 = Z.of_nat k /\ inverted s2 = Some flag)
    as (H1 & H2 & H3).
  { subst s2. rewrite scan_step_best, scan_step_offset, scan_step_inverted.
    rewrite Hat. destruct flag.
    - replace (inverseCorrelateU64 sw (invert64 sw)) with 64.
      + rewrite consider_inverse by exact Hb1. auto.
      + symmetry. rewrite Hat in Hv.
        apply (inverseCorrelateU64_full sw _ sw_range Hv). reflexivity.
    - replace (inverseCorrelateU64 sw sw) with 0.
      + rewrite consider_exact by exact Hb1. auto.
      + symmetry.
        apply (inverseCorrelateU64_zero sw _ sw_range sw_range). reflexivity. }
  cbv zeta.
  destruct (scan_after (n - k - 1) (S k) s2 H1) as (_ & H5 & H6).
  rewrite H5, H6. auto.
Qed.

End FullMask.

(** C1 (amended) -- with an eight-byte sync word, when the 64 bits of the
    buffer at bit offset [k] (below [8*len - 64]) are the sync word and no
    earlier offset holds the sync word or its bitwise inverse,
    [correlateU64] returns [k]; it writes [0] to the inversion flag when
    [k > 0] and returns without writing it when [k = 0].  When the bits at
    [k] are the inverse of the sync word instead, it returns [k] and writes
    [1] to the flag. *)
Theorem correlateU64_first_match (sw : Z) (f : list byte) (len : Z) (k : nat) :
  0 <= sw < 2 ^ 64 ->
  length f = Z.to_nat len ->
  (k < 8 * (Z.to_nat len - 8))%nat ->
  (forall q, (q < k)%nat ->
     bits_value f q 64 <> sw /\ bits_value f q 64 <> invert64 sw) ->
  (bits_value f k 64 = sw ->
   correlateU64 sw 8 f len =
   (Z.of_nat k, if (k =? 0)%nat then None else Some false)) /\
  (bits_value f k 64 = invert64 sw ->
   correlateU64 sw 8 f len = (Z.of_nat k, Some true)).
Proof.
  intros Hsw Hlen Hk Hno.
  assert (8 <= len) as H8 by lia.
  pose proof (bits_value64_range f 0) as Hv0.
  pose proof (distance_range sw Hsw f 0%nat) as Hd0.
  split; intros Hat; rewrite (correlateU64_scan sw Hsw f len Hlen H8).
  - destruct k as [|k].
    + rewrite Hat.
      replace (inverseCorrelateU64 sw sw) with 0; [reflexivity|].
      symmetry. apply (inverseCorrelateU64_zero sw sw Hsw Hsw). reflexivity.
    + destruct (Hno 0%nat ltac:(lia)) as [Hne _].
      destruct (Z.eqb_spec (inverseCorrelateU64 sw (bits_value f 0 64)) 0) as [E|E].
      { apply (inverseCorrelateU64_zero sw _ Hsw Hv0) in E. contradiction. }
      destruct (scan_first_match sw Hsw f (8 * (Z.to_nat len - 8)) (S k) false
                  (mkSearch (bits_value f 0 64)
                     (inverseCorrelateU64 sw (bits_value f 0 64)) 0 None))
        as [H1 H2]; try assumption.
      { cbn [bestCorr]. lia. }
      rewrite H1, H2. reflexivity.
  - destruct (Z.eqb_spec (inverseCorrelateU64 sw (bits_value f 0 64)) 0) as [E|E].
    { apply (inverseCorrelateU64_zero sw _ Hsw Hv0) in E.
      destruct k as [|k].
      - exfalso.
        assert (inverseCorrelateU64 sw sw = 0) as E0
          by (apply (inverseCorrelateU64_zero sw sw Hsw Hsw); reflexivity).
        assert (inverseCorrelateU64 sw (invert64 sw) = 64) as E1.
        { rewrite Hat in Hv0.
          apply (inverseCorrelateU64_full sw _ Hsw Hv0). reflexivity. }
        rewrite <- Hat, E in E1. lia.
      - destruct (Hno 0%nat ltac:(lia)) as [Hne _]. contradiction. }
    destruct (scan_first_match sw Hsw f (8 * (Z.to_nat len - 8)) k true
                (mkSearch (bits_value f 0 64)
                   (inverseCorrelateU64 sw (bits_value f 0 64)) 0 None))
      as [H1 H2]; try assumption.
    { cbn [bestCorr]. lia. }
    rewrite H1, H2. reflexivity.
Qed.

(** *** Sync words shorter than eight bytes *)

Lemma land_pow2_small w n :
  0 <= n -> 0 <= w < 2 ^ n -> Z.land w (2 ^ n) = 0.
Proof.
  intros Hn Hw. apply Z.bits_inj'. intros i Hi.
  rewrite Z.land_spec, Z.bits_0, Z.pow2_bits_eqb by lia.
  destruct (Z.eqb_spec n i) as [->|Hne]; [|apply andb_false_r].
  rewrite andb_true_r.
  destruct (Z.eq_dec w 0) as [->|Hw0]; [apply Z.bits_0|].
  apply Z.bits_above_log2; [lia|].
  apply Z.log2_lt_pow2; lia.
Qed.

Lemma window_fold_bound l : forall w n,
  (n + length l <= 8)%nat ->
  0 <= w < 2 ^ (8 * Z.of_nat n) ->
  0 <= fold_left (fun w b => wrap64 (Z.lor (Z.shiftl w 8) (u8 b))) l w
    < 2 ^ (8 * Z.of_nat (n + length l)).
Proof.
  induction l as [|b l IH]; intros w n Hn Hw.
  - cbn [fold_left length]. rewrite Nat.add_0_r. exact Hw.
  - rewrite fold_left_cons. cbn [length] in *.
    replace (n + S (length l))%nat with (S n + length l)%nat by lia.
    apply IH; [lia|].
    pose proof (u8_range b) as Hb.
    rewrite lor_shiftl_add by lia.
    assert (2 ^ (8 * Z.of_nat (S n)) = 2 ^ (8 * Z.of_nat n) * 2 ^ 8) as Hpow
      by (rewrite <- Z.pow_add_r by lia; f_equal; lia).
    assert (2 ^ (8 * Z.of_nat (S n)) <= 2 ^ 64)
      by (apply Z.pow_le_mono_r; lia).
    change (2 ^ 8) with 256 in *.
    unfold wrap64. rewrite Z.mod_small by nia. nia.
Qed.

(** With [_syncLen < 8] the mask is the single bit [8*_syncLen], which is
    clear both in a sync word of [_syncLen] bytes and in the first window:
    the first comparison finds distance 0 whatever the buffer holds. *)
Lemma correlateU64_short_sync_word sw sl f len :
  0 <= sl < 8 -> 0 <= sw < 2 ^ (8 * sl) ->
  correlateU64 sw sl f len = (0, None).
Proof.
  intros Hsl Hsw.
  assert (2 ^ (8 * sl) <= 2 ^ 56) as Hp by (apply Z.pow_le_mono_r; lia).
  assert (syncMask sl = 2 ^ (8 * sl)) as Hmask.
  { unfold syncMask. destruct (Z.ltb_spec sl 8); [|lia].
    rewrite Z.shiftl_1_l. unfold wrap64. apply Z.mod_small.
    change (2 ^ 64) with (2 ^ 56 * 256). lia. }
  assert (syncWord sw sl = 0) as Hword.
  { unfold syncWord. rewrite Hmask. unfold wrap64.
    rewrite Z.mod_small by (change (2 ^ 64) with (2 ^ 56 * 256); lia).
    apply land_pow2_small; lia. }
  assert (Z.land (initial_window sl f) (syncMask sl) = 0) as Hwin.
  { rewrite Hmask. apply land_pow2_small; [lia|].
    unfold initial_window.
    pose proof (window_fold_bound (firstn (Z.to_nat sl) f) 0 0%nat) as Hb.
    pose proof (length_firstn (Z.to_nat sl) f) as Hl.
    cbn [Nat.add] in Hb.
    destruct Hb as [Hb1 Hb2]; [lia|simpl; lia|].
    split; [exact Hb1|].
    eapply Z.lt_le_trans; [exact Hb2|].
    apply Z.pow_le_mono_r; lia. }
  unfold correlateU64. rewrite Hword, Hwin. reflexivity.
Qed.

Lemma correlateU64_first_match_witness :
  correlateU64 0x086D53884469481F 8 sync_at_37 16 = (37, Some false) /\
  correlateU64 0x086D53884469481F 8 inverse_sync_at_37 16 = (37, Some true).
Proof.
  split.
  - apply (proj1 (correlateU64_first_match 0x086D53884469481F sync_at_37 16 37
                    ltac:(lia) ltac:(reflexivity) ltac:(vm_compute; lia)
                    ltac:(intros q Hq;
                          do 37 (destruct q as [|q];
                                 [split; vm_compute; discriminate|]);
                          exfalso; lia))).
    vm_compute. reflexivity.
  - apply (proj2 (correlateU64_first_match 0x086D53884469481F inverse_sync_at_37 16 37
                    ltac:(lia) ltac:(reflexivity) ltac:(vm_compute; lia)
                    ltac:(intros q Hq;
                          do 37 (destruct q as [|q];
                                 [split; vm_compute; discriminate|]);
                          exfalso; lia))).
    vm_compute. reflexivity.
Defined.

(** C1 (as stated), refuted: the buffer [alternating_at_37] carries the sync
    word [0xAAAAAAAAAAAAAAAA] at bit offset 37 (below [8*16 - 8*8]), yet the
    correlation returns offset 36 with the inversion flag set, because the
    64 bits at offset 36 are the exact inverse of the sync word. *)
Lemma correlateU64_injected_counterexample :
  bits_value alternating_at_37 37 64 = 0xAAAAAAAAAAAAAAAA /\
  (37 < 8 * 16 - 8 * 8)%nat /\
  correlateU64 0xAAAAAAAAAAAAAAAA 8 alternating_at_37 16 = (36, Some true) /\
  fst (correlateU64 0xAAAAAAAAAAAAAAAA 8 alternating_at_37 16) <> 37.
Proof.
  repeat split; try (vm_compute; reflexivity); try lia.
  vm_compute. discriminate.
Qed.

(** C2, the code at a failing input: with the two-byte sync word [0xAAAA]
    the mask computed by [correlateU64] is the single bit [1 << 16], so the
    comparison at offset 0 sees two zero words, the function returns offset 0
    at once and never writes the inversion flag; the search over the low 16
    bits finds the exact match at offset 37. *)
Theorem correlateU64_short_sync_word_mask :
  syncMask 2 = 0x10000 /\
  correlateU64 0xAAAA 2 aaaa_at_37 10 = (0, None) /\
  correlate_spec 0xAAAA 2 aaaa_at_37 10 = Some (0, 37%nat, false).
Proof. repeat split; vm_compute; reflexivity. Qed.

(** *** The offset returned by the search *)

Lemma bit_step_offset sw sl tmp i j s B :
  0 <= bestOffset s <= B -> 0 <= i * 8 + j <= B ->
  0 <= bestOffset (bit_step sw sl tmp i s j) <= B.
Proof.
  intros Hs Hij. unfold bit_step.
  generalize (inverseCorrelateU64 (syncWord sw sl) (Z.land (window s) (syncMask sl))).
  intros d. cbn [bestOffset].
  destruct (d <? bestCorr s); cbn [bestCorr bestOffset];
    match goal with |- context [if ?c then _ else _] => destruct c end;
    cbn [bestOffset]; lia.
Qed.

Lemma byte_step_offset sw sl s i b B :
  0 <= i -> 0 <= bestOffset s <= B -> i * 8 + 7 <= B ->
  0 <= bestOffset (byte_step sw sl s (i, b)) <= B.
Proof.
  intros Hi Hs HB. unfold byte_step. cbn [fst snd].
  rewrite !fold_left_cons. cbn [fold_left].
  do 8 (apply bit_step_offset; [|lia]). exact Hs.
Qed.

Lemma rounds_offset sw sl (body : list byte) : forall a s,
  0 <= bestOffset s <= 8 * Z.of_nat (a + length body) ->
  0 <= bestOffset
         (fold_left (byte_step sw sl)
                    (combine (map Z.of_nat (seq a (length body))) body) s)
    <= 8 * Z.of_nat (a + length body).
Proof.
  induction body as [|b body IH]; intros a s Hs.
  - exact Hs.
  - cbn [length seq map combine] in *. rewrite fold_left_cons.
    replace (a + S (length body))%nat with (S a + length body)%nat in * by lia.
    apply IH. apply byte_step_offset; lia.
Qed.

Lemma correlateU64_offset_range sw sl frame len :
  0 <= fst (correlateU64 sw sl frame len) <= 8 * Z.max 0 (len - sl).
Proof.
  unfold correlateU64.
  destruct (_ =? 0); cbn [fst]; [lia|].
  unfold rounds.
  set (body := firstn (Z.to_nat (len - sl)) (skipn (Z.to_nat sl) frame)).
  assert (length body <= Z.to_nat (len - sl))%nat
    by (subst body; rewrite length_firstn; lia).
  pose proof (rounds_offset sw sl body 0
                (mkSearch (initial_window sl frame)
                   (inverseCorrelateU64 (syncWord sw sl)
                      (Z.land (initial_window sl frame) (syncMask sl))) 0 None))
    as Hr.
  cbn [bestOffset Nat.add] in Hr. specialize (Hr ltac:(lia)).
  lia.
Qed.

(** *** [run] on input that arrives in pieces *)

Section Chunking.

Variable sw : Z.
Variable sl : Z.
Variable F : Z.
Hypothesis F_pos : 1 <= F.
Hypothesis sl_nonneg : 0 <= sl.

Lemma bits_of_bytes_app xs ys :
  bits_of_bytes (xs ++ ys) = bits_of_bytes xs ++ bits_of_bytes ys.
Proof. apply flat_map_app. Qed.

Lemma append_input_all f xs ys n :
  0 <= n ->
  append_input (append_input f xs (Z.of_nat (length xs))) ys n =
  append_input f (xs ++ ys) (Z.of_nat (length xs) + n).
Proof.
  intros Hn. unfold append_input.
  cbn [_state _rawData _dataOffset _syncOffset].
  rewrite Nat2Z.id, firstn_all.
  rewrite Z2Nat.inj_add, Nat2Z.id by lia.
  rewrite firstn_app_2, bits_of_bytes_app, app_assoc.
  f_equal. lia.
Qed.

Lemma append_input_prefix f xs ys n :
  0 <= n <= Z.of_nat (length xs) ->
  append_input f (xs ++ ys) n = append_input f xs n.
Proof.
  intros Hn. unfold append_input.
  rewrite firstn_app.
  replace (Z.to_nat n - length xs)%nat with 0%nat by lia.
  cbn [firstn]. rewrite app_nil_r. reflexivity.
Qed.

Lemma skipn_app_all (xs ys : list byte) n :
  0 <= n ->
  skipn (Z.to_nat (Z.of_nat (length xs) + n)) (xs ++ ys) = skipn (Z.to_nat n) ys.
Proof.
  intros Hn. rewrite skipn_app.
  rewrite skipn_all2 by lia.
  replace (Z.to_nat (Z.of_nat (length xs) + n) - length xs)%nat
    with (Z.to_nat n) by lia.
  reflexivity.
Qed.

Lemma skipn_app_prefix (xs ys : list byte) n :
  0 <= n <= Z.of_nat (length xs) ->
  skipn (Z.to_nat n) (xs ++ ys) = skipn (Z.to_nat n) xs ++ ys.
Proof.
  intros Hn. rewrite skipn_app.
  replace (Z.to_nat n - length xs)%nat with 0%nat by lia.
  reflexivity.
Qed.

Lemma emit_rest f rest ys :
  match emit F f rest with
  | Emit f' frame rest' => emit F f (rest ++ ys) = Emit f' frame (rest' ++ ys)
  | Suspend _ => False
  end.
Proof. unfold emit. reflexivity. Qed.

(** **** The state [DEOFFSET] *)

Lemma need_deoffset_append f xs n :
  need_deoffset F (append_input f xs n) = need_deoffset F f - n.
Proof.
  unfold need_deoffset, append_input. cbn [_dataOffset _syncOffset].
  replace (_dataOffset f + 8 * n - _syncOffset f)
    with (_dataOffset f - _syncOffset f + n * 8) by lia.
  rewrite Z.div_add by lia. lia.
Qed.

Lemma deoffset_absorb f xs ys :
  Z.of_nat (length xs) <= need_deoffset F f ->
  deoffset F f xs = Suspend (append_input f xs (Z.of_nat (length xs))) /\
  deoffset F f (xs ++ ys) =
  deoffset F (append_input f xs (Z.of_nat (length xs))) ys.
Proof.
  intros Hneed. split.
  - unfold deoffset. fold (need_deoffset F f).
    rewrite Z.min_r by lia.
    rewrite Z.sub_diag. reflexivity.
  - unfold deoffset at 2. fold (need_deoffset F (append_input f xs (Z.of_nat (length xs)))).
    rewrite need_deoffset_append.
    unfold deoffset. fold (need_deoffset F f).
    rewrite length_app, Nat2Z.inj_add.
    replace (Z.min (need_deoffset F f) (Z.of_nat (length xs) + Z.of_nat (length ys)))
      with (Z.of_nat (length xs) +
            Z.min (need_deoffset F f - Z.of_nat (length xs)) (Z.of_nat (length ys)))
      by lia.
    rewrite append_input_all, skipn_app_all by lia.
    replace (Z.of_nat (length xs) + Z.of_nat (length ys) -
             (Z.of_nat (length xs) +
              Z.min (need_deoffset F f - Z.of_nat (length xs)) (Z.of_nat (length ys))))
      with (Z.of_nat (length ys) -
            Z.min (need_deoffset F f - Z.of_nat (length xs)) (Z.of_nat (length ys)))
      by lia.
    reflexivity.
Qed.

Lemma deoffset_overflow f xs ys :
  0 <= need_deoffset F f < Z.of_nat (length xs) ->
  deoffset F f xs =
    emit F (append_input f xs (need_deoffset F f))
         (skipn (Z.to_nat (need_deoffset F f)) xs) /\
  deoffset F f (xs ++ ys) =
    emit F (append_input f xs (need_deoffset F f))
         (skipn (Z.to_nat (need_deoffset F f)) xs ++ ys).
Proof.
  intros Hneed. split.
  - unfold deoffset. fold (need_deoffset F f).
    rewrite Z.min_l by lia.
    destruct (Z.leb_spec (Z.of_nat (length xs) - need_deoffset F f) 0); [lia|].
    reflexivity.
  - unfold deoffset. fold (need_deoffset F f).
    rewrite length_app, Nat2Z.inj_add.
    rewrite Z.min_l by lia.
    destruct (Z.leb_spec (Z.of_nat (length xs) + Z.of_nat (length ys) - need_deoffset F f) 0);
      [lia|].
    rewrite append_input_prefix, skipn_app_prefix by lia.
    reflexivity.
Qed.

(** **** The state [READ] *)

Lemma need_read_append f xs n :
  need_read F (append_input f xs n) = need_read F f - n.
Proof.
  unfold need_read, append_input. cbn [_dataOffset].
  replace (_dataOffset f + 8 * n) with (_dataOffset f + n * 8) by lia.
  rewrite Z.div_add by lia. lia.
Qed.

Lemma read_absorb f xs ys :
  Z.of_nat (length xs) <= need_read F f ->
  read sw sl F f xs = Suspend (append_input f xs (Z.of_nat (length xs))) /\
  read sw sl F f (xs ++ ys) =
  read sw sl F (append_input f xs (Z.of_nat (length xs))) ys.
Proof.
  intros Hneed. split.
  - unfold read. fold (need_read F f).
    rewrite Z.min_r by lia.
    rewrite Z.sub_diag. reflexivity.
  - unfold read at 2. fold (need_read F (append_input f xs (Z.of_nat (length xs)))).
    rewrite need_read_append.
    unfold read. fold (need_read F f).
    rewrite length_app, Nat2Z.inj_add.
    replace (Z.min (need_read F f) (Z.of_nat (length xs) + Z.of_nat (length ys)))
      with (Z.of_nat (length xs) +
            Z.min (need_read F f - Z.of_nat (length xs)) (Z.of_nat (length ys)))
      by lia.
    rewrite append_input_all, skipn_app_all by lia.
    replace (Z.of_nat (length xs) + Z.of_nat (length ys) -
             (Z.of_nat (length xs) +
              Z.min (need_read F f - Z.of_nat (length xs)) (Z.of_nat (length ys))))
      with (Z.of_nat (length ys) -
            Z.min (need_read F f - Z.of_nat (length xs)) (Z.of_nat (length ys)))
      by lia.
    reflexivity.
Qed.

Lemma read_overflow f xs ys :
  0 <= need_read F f < Z.of_nat (length xs) ->
  read sw sl F f xs =
    deoffset F (correlated sw sl F (append_input f xs (need_read F f)))
             (skipn (Z.to_nat (need_read F f)) xs) /\
  read sw sl F f (xs ++ ys) =
    deoffset F (correlated sw sl F (append_input f xs (need_read F f)))
             (skipn (Z.to_nat (need_read F f)) xs ++ ys).
Proof.
  intros Hneed. split.
  - unfold read. fold (need_read F f).
    rewrite Z.min_l by lia.
    destruct (Z.leb_spec (Z.of_nat (length xs) - need_read F f) 0); [lia|].
    reflexivity.
  - unfold read. fold (need_read F f).
    rewrite length_app, Nat2Z.inj_add.
    rewrite Z.min_l by lia.
    destruct (Z.leb_spec (Z.of_nat (length xs) + Z.of_nat (length ys) - need_read F f) 0);
      [lia|].
    rewrite append_input_prefix, skipn_app_prefix by lia.
    reflexivity.
Qed.

(** **** Well-formed states *)

Lemma wf_need_read f :
  wf F f -> _state f = READ -> 0 <= need_read F f.
Proof.
  intros [_ Hwf] Hst. rewrite Hst in Hwf. unfold need_read.
  assert (_dataOffset f / 8 < F + 1) by (apply Z.div_lt_upper_bound; lia).
  lia.
Qed.

Lemma wf_need_deoffset f :
  wf F f -> _state f = DEOFFSET -> 0 <= need_deoffset F f.
Proof.
  intros [_ Hwf] Hst. rewrite Hst in Hwf. unfold need_deoffset.
  assert ((_dataOffset f - _syncOffset f) / 8 < F + 1)
    by (apply Z.div_lt_upper_bound; lia).
  lia.
Qed.

Lemma wf_append_read f xs n :
  wf F f -> _state f = READ -> 0 <= n <= need_read F f ->
  wf F (append_input f xs n).
Proof.
  intros [Hs Hwf] Hst Hn. rewrite Hst in Hwf.
  unfold wf, append_input. cbn [_state _dataOffset _syncOffset].
  rewrite Hst. split; [exact Hs|].
  unfold need_read in Hn.
  pose proof (Z.div_mod (_dataOffset f) 8 ltac:(lia)).
  pose proof (Z.mod_pos_bound (_dataOffset f) 8 ltac:(lia)).
  lia.
Qed.

Lemma wf_append_deoffset f xs n :
  wf F f -> _state f = DEOFFSET -> 0 <= n <= need_deoffset F f ->
  wf F (append_input f xs n).
Proof.
  intros [Hs Hwf] Hst Hn. rewrite Hst in Hwf.
  unfold wf, append_input. cbn [_state _dataOffset _syncOffset].
  rewrite Hst. split; [exact Hs|].
  unfold need_deoffset in Hn.
  pose proof (Z.div_mod (_dataOffset f - _syncOffset f) 8 ltac:(lia)).
  pose proof (Z.mod_pos_bound (_dataOffset f - _syncOffset f) 8 ltac:(lia)).
  lia.
Qed.

Lemma wf_correlated f xs :
  wf F f -> _state f = READ -> 0 <= need_read F f ->
  wf F (correlated sw sl F (append_input f xs (need_read F f))).
Proof.
  intros [Hs Hwf] Hst Hn. rewrite Hst in Hwf.
  unfold wf, correlated, append_input. cbn [_state _dataOffset _syncOffset _rawData].
  pose proof (correlateU64_offset_range sw sl
                (bytes_of_bits (Z.to_nat F)
                   (_rawData f ++ bits_of_bytes (firstn (Z.to_nat (need_read F f)) xs)))
                F) as Hr.
  split; [lia|].
  unfold need_read in *.
  pose proof (Z.div_mod (_dataOffset f) 8 ltac:(lia)).
  pose proof (Z.mod_pos_bound (_dataOffset f) 8 ltac:(lia)).
  lia.
Qed.

Lemma emit_fresh f rest :
  0 <= _syncOffset f ->
  match emit F f rest with
  | Emit f' _ rest' => wf F f' /\ fresh f' = true /\ rest' = rest
  | Suspend _ => False
  end.
Proof.
  intros Hs. unfold emit, wf, fresh. cbn [_state _dataOffset _syncOffset].
  pose proof (Z.mod_pos_bound (_syncOffset f) 8 ltac:(lia)).
  split; [split; lia|]. split; [|reflexivity].
  apply Z.ltb_lt. lia.
Qed.

(** **** One pass through the switch *)

Lemma deoffset_facts f src :
  wf F f -> _state f = DEOFFSET ->
  match deoffset F f src with
  | Suspend f' => wf F f' /\ _state f' = DEOFFSET
  | Emit f' _ rest =>
      wf F f' /\ fresh f' = true /\ (length rest <= length src)%nat
  end.
Proof.
  intros Hwf Hst.
  pose proof (wf_need_deoffset f Hwf Hst) as Hneed.
  destruct (Z.le_gt_cases (Z.of_nat (length src)) (need_deoffset F f)) as [Hle|Hgt].
  - destruct (deoffset_absorb f src [] Hle) as [-> _].
    split; [apply wf_append_deoffset; auto; lia|exact Hst].
  - destruct (deoffset_overflow f src [] ltac:(lia)) as [-> _].
    pose proof (emit_fresh (append_input f src (need_deoffset F f))
                  (skipn (Z.to_nat (need_deoffset F f)) src)) as He.
    destruct (emit F _ _) as [|f' frame rest];
      [exfalso; apply He; exact (proj1 Hwf)|].
    destruct He as (H1 & H2 & ->); [exact (proj1 Hwf)|].
    split; [exact H1|]. split; [exact H2|].
    rewrite length_skipn. lia.
Qed.

Lemma step_READ f src :
  _state f = READ -> step sw sl F f src = read sw sl F f src.
Proof. intros Hst. unfold step. rewrite Hst. reflexivity. Qed.

Lemma step_DEOFFSET f src :
  _state f = DEOFFSET -> step sw sl F f src = deoffset F f src.
Proof. intros Hst. unfold step. rewrite Hst. reflexivity. Qed.

Lemma deoffset_split f xs ys :
  wf F f -> _state f = DEOFFSET ->
  match deoffset F f xs with
  | Suspend f1 => deoffset F f (xs ++ ys) = step sw sl F f1 ys
  | Emit f1 frame rest => deoffset F f (xs ++ ys) = Emit f1 frame (rest ++ ys)
  end.
Proof.
  intros Hwf Hst.
  pose proof (wf_need_deoffset f Hwf Hst) as Hneed.
  destruct (Z.le_gt_cases (Z.of_nat (length xs)) (need_deoffset F f)) as [Hle|Hgt].
  - destruct (deoffset_absorb f xs ys Hle) as [-> ->].
    symmetry. apply step_DEOFFSET. exact Hst.
  - destruct (deoffset_overflow f xs ys ltac:(lia)) as [-> ->].
    apply emit_rest.
Qed.

Lemma step_facts f src :
  wf F f ->
  match step sw sl F f src with
  | Suspend f' => wf F f'
  | Emit f' _ rest =>
      wf F f' /\ fresh f' = true /\ (length rest <= length src)%nat /\
      (fresh f = true -> (length rest < length src)%nat)
  end.
Proof.
  intros Hwf. unfold step. destruct (_state f) eqn:Hst.
  - pose proof (wf_need_read f Hwf Hst) as Hneed.
    destruct (Z.le_gt_cases (Z.of_nat (length src)) (need_read F f)) as [Hle|Hgt].
    + destruct (read_absorb f src [] Hle) as [-> _].
      apply wf_append_read; auto. lia.
    + destruct (read_overflow f src [] ltac:(lia)) as [-> _].
      pose proof (deoffset_facts
                    (correlated sw sl F (append_input f src (need_read F f)))
                    (skipn (Z.to_nat (need_read F f)) src)
                    (wf_correlated f src Hwf Hst Hneed) eq_refl) as Hd.
      destruct (deoffset F _ _) as [f'|f' frame rest]; [apply Hd|].
      destruct Hd as (H1 & H2 & H3). rewrite length_skipn in H3.
      split; [exact H1|]. split; [exact H2|]. split; [lia|].
      intros Hfresh. unfold fresh in Hfresh. rewrite Hst in Hfresh.
      apply Z.ltb_lt in Hfresh.
      assert (need_read F f = F) as Hn.
      { unfold need_read. destruct Hwf as [_ Hwf]. rewrite Hst in Hwf.
        rewrite Z.div_small by lia. lia. }
      lia.
  - pose proof (deoffset_facts f src Hwf Hst) as Hd.
    destruct (deoffset F f src) as [f'|f' frame rest]; [apply Hd|].
    destruct Hd as (H1 & H2 & H3).
    split; [exact H1|]. split; [exact H2|]. split; [exact H3|].
    unfold fresh. rewrite Hst. discriminate.
Qed.

Lemma step_split f xs ys :
  wf F f ->
  match step sw sl F f xs with
  | Suspend f1 => step sw sl F f (xs ++ ys) = step sw sl F f1 ys
  | Emit f1 frame rest => step sw sl F f (xs ++ ys) = Emit f1 frame (rest ++ ys)
  end.
Proof.
  intros Hwf. destruct (_state f) eqn:Hst.
  - rewrite (step_READ f xs Hst), (step_READ f (xs ++ ys) Hst).
    pose proof (wf_need_read f Hwf Hst) as Hneed.
    destruct (Z.le_gt_cases (Z.of_nat (length xs)) (need_read F f)) as [Hle|Hgt].
    + destruct (read_absorb f xs ys Hle) as [-> ->].
      symmetry. apply step_READ. exact Hst.
    + destruct (read_overflow f xs ys ltac:(lia)) as [-> ->].
      apply deoffset_split; [|reflexivity].
      apply wf_correlated; assumption.
  - rewrite (step_DEOFFSET f xs Hst), (step_DEOFFSET f (xs ++ ys) Hst).
    apply deoffset_split; assumption.
Qed.

(** **** The loop *)

Lemma loop_S n f src out :
  loop sw sl F (S n) f src out =
  match src with
  | [] => Some (f, out)
  | _ :: _ =>
      match step sw sl F f src with
      | Suspend f' => Some (f', out)
      | Emit f' frame rest => loop sw sl F n f' rest (out ++ [frame])
      end
  end.
Proof. reflexivity. Qed.

Lemma loop_more_fuel n : forall m f src out r,
  loop sw sl F n f src out = Some r ->
  loop sw sl F (n + m) f src out = Some r.
Proof.
  induction n as [|n IH]; intros m f src out r Hl.
  - discriminate.
  - cbn [Nat.add]. rewrite loop_S in *.
    destruct src as [|x src]; [exact Hl|].
    destruct (step sw sl F f (x :: src)) as [f'|f' frame rest]; [exact Hl|].
    apply IH. exact Hl.
Qed.

Lemma loop_unique n m f src out r r' :
  loop sw sl F n f src out = Some r ->
  loop sw sl F m f src out = Some r' -> r = r'.
Proof.
  intros H1 H2.
  apply (loop_more_fuel n m) in H1. apply (loop_more_fuel m n) in H2.
  rewrite Nat.add_comm in H2. congruence.
Qed.

Lemma loop_out n : forall f src out,
  loop sw sl F n f src out =
  option_map (fun r => (fst r, out ++ snd r)) (loop sw sl F n f src []).
Proof.
  induction n as [|n IH]; intros f src out.
  - reflexivity.
  - rewrite !loop_S. destruct src as [|x src].
    + cbn [option_map fst snd]. rewrite app_nil_r. reflexivity.
    + destruct (step sw sl F f (x :: src)) as [f'|f' frame rest].
      * cbn [option_map fst snd]. rewrite app_nil_r. reflexivity.
      * rewrite (IH f' rest (out ++ [frame])), (IH f' rest ([] ++ [frame])).
        destruct (loop sw sl F n f' rest []) as [[f2 o2]|]; [|reflexivity].
        cbn [option_map fst snd app]. rewrite <- app_assoc. reflexivity.
Qed.

Lemma loop_wf n : forall f src out f1 o1,
  wf F f -> loop sw sl F n f src out = Some (f1, o1) -> wf F f1.
Proof.
  induction n as [|n IH]; intros f src out f1 o1 Hwf Hl.
  - discriminate.
  - rewrite loop_S in Hl. destruct src as [|x src].
    + inversion Hl; subst. exact Hwf.
    + pose proof (step_facts f (x :: src) Hwf) as Hs.
      destruct (step sw sl F f (x :: src)) as [f'|f' frame rest].
      * inversion Hl; subst. exact Hs.
      * apply (IH f' rest (out ++ [frame]) f1 o1); [apply Hs|exact Hl].
Qed.

Lemma loop_terminates n : forall f src out,
  wf F f ->
  (length src + (if fresh f then 0 else 1) < n)%nat ->
  exists r, loop sw sl F n f src out = Some r.
Proof.
  induction n as [|n IH]; intros f src out Hwf Hn.
  - lia.
  - rewrite loop_S. destruct src as [|x src]; [eexists; reflexivity|].
    pose proof (step_facts f (x :: src) Hwf) as Hs.
    destruct (step sw sl F f (x :: src)) as [f'|f' frame rest];
      [eexists; reflexivity|].
    destruct Hs as (Hwf' & Hfresh & Hlen & Hlt).
    apply IH; [exact Hwf'|].
    rewrite Hfresh. destruct (fresh f).
    + specialize (Hlt eq_refl). lia.
    + lia.
Qed.

Lemma loop_app n : forall f xs ys out f1 o1 m r,
  wf F f ->
  loop sw sl F n f xs out = Some (f1, o1) ->
  loop sw sl F m f1 ys o1 = Some r ->
  exists k, loop sw sl F k f (xs ++ ys) out = Some r.
Proof.
  induction n as [|n IH]; intros f xs ys out f1 o1 m r Hwf Hx Hy.
  - discriminate.
  - rewrite loop_S in Hx. destruct xs as [|x xs].
    + inversion Hx; subst. exists m. exact Hy.
    + pose proof (step_split f (x :: xs) ys Hwf) as Hsplit.
      pose proof (step_facts f (x :: xs) Hwf) as Hs.
      destruct (step sw sl F f (x :: xs)) as [f'|f' frame rest] eqn:E.
      * inversion Hx; subst f' o1.
        destruct m as [|m]; [discriminate|].
        destruct ys as [|y ys].
        { rewrite app_nil_r. rewrite loop_S in Hy. inversion Hy; subst.
          exists 1%nat. rewrite loop_S, E. reflexivity. }
        exists (S m). rewrite loop_S in *.
        cbn [app]. cbn [app] in Hsplit. rewrite Hsplit. exact Hy.
      * destruct (IH f' rest ys (out ++ [frame]) f1 o1 m r) as [k Hk];
          [apply Hs|exact Hx|exact Hy|].
        exists (S k). rewrite loop_S. cbn [app]. cbn [app] in Hsplit.
        rewrite Hsplit. exact Hk.
Qed.

(** **** The reads of [run] stay below the cursor *)

Lemma length_bits_of_bytes l :
  length (bits_of_bytes l) = (8 * length l)%nat.
Proof.
  induction l as [|b l IH]; [reflexivity|].
  unfold bits_of_bytes in *. cbn [flat_map]. rewrite length_app, IH.
  cbn [length byte_bits map]. lia.
Qed.

Lemma cursor_append f src n :
  cursor_ok f -> 0 <= n <= Z.of_nat (length src) ->
  cursor_ok (append_input f src n).
Proof.
  unfold cursor_ok, append_input. cbn [_rawData _dataOffset].
  intros Hc Hn.
  rewrite length_app, length_bits_of_bytes, length_firstn. lia.
Qed.

Lemma length_bitcpy raw offset bits :
  0 <= offset -> 0 <= bits ->
  offset + bits <= Z.of_nat (length raw) ->
  length (bitcpy raw offset bits) = length raw.
Proof.
  intros Ho Hb Hlen. unfold bitcpy.
  rewrite length_app, length_firstn, !length_skipn. lia.
Qed.

(** When a frame is written out, the frame at [_syncOffset] and the eight
    bits read for the next one lie below the cursor, and the new buffer
    holds [_syncOffset % 8] bits. *)
Lemma emit_below_cursor f rest :
  cursor_ok f -> 0 <= _syncOffset f ->
  _syncOffset f + 8 * F <= _dataOffset f ->
  match emit F f rest with
  | Emit f' _ _ => cursor_ok f'
  | Suspend _ => False
  end.
Proof.
  intros Hc Hs Hlen. unfold emit, cursor_ok in *.
  cbn [_rawData _dataOffset].
  pose proof (Z.mod_pos_bound (_syncOffset f) 8 ltac:(lia)) as Hm.
  rewrite length_firstn.
  rewrite length_bitcpy; rewrite ?length_bitcpy; lia.
Qed.

Lemma deoffset_cursor f src :
  wf F f -> cursor_ok f -> _state f = DEOFFSET ->
  match deoffset F f src with
  | Suspend f' => cursor_ok f'
  | Emit f' _ _ =>
      cursor_ok f' /\
      _syncOffset f + 8 * F <= _dataOffset f + 8 * need_deoffset F f
  end.
Proof.
  intros Hwf Hc Hst.
  pose proof (wf_need_deoffset f Hwf Hst) as Hneed.
  destruct (Z.le_gt_cases (Z.of_nat (length src)) (need_deoffset F f)) as [Hle|Hgt].
  - destruct (deoffset_absorb f src [] Hle) as [-> _].
    apply cursor_append; [exact Hc|lia].
  - destruct (deoffset_overflow f src [] ltac:(lia)) as [-> _].
    assert (_syncOffset f + 8 * F <= _dataOffset f + 8 * need_deoffset F f) as Hin.
    { unfold need_deoffset.
      destruct Hwf as [Hs Hwf]. rewrite Hst in Hwf.
      pose proof (Z.div_mod (_dataOffset f - _syncOffset f) 8 ltac:(lia)).
      pose proof (Z.mod_pos_bound (_dataOffset f - _syncOffset f) 8 ltac:(lia)).
      lia. }
    pose proof (emit_below_cursor (append_input f src (need_deoffset F f))
                  (skipn (Z.to_nat (need_deoffset F f)) src)
                  (cursor_append f src (need_deoffset F f) Hc ltac:(lia))
                  (proj1 Hwf) Hin) as He.
    destruct (emit F _ _) as [|f' frame rest]; [contradiction|].
    split; [exact He|exact Hin].
Qed.

Lemma correlated_cursor f src :
  wf F f -> cursor_ok f -> _state f = READ ->
  need_read F f < Z.of_nat (length src) ->
  cursor_ok (correlated sw sl F (append_input f src (need_read F f))) /\
  8 * F <= _dataOffset (append_input f src (need_read F f)).
Proof.
  intros Hwf Hc Hst Hlt.
  pose proof (wf_need_read f Hwf Hst) as Hneed.
  split.
  - apply (cursor_append f src (need_read F f) Hc). lia.
  - unfold append_input, need_read. cbn [_dataOffset].
    destruct Hwf as [Hs Hwf]. rewrite Hst in Hwf.
    pose proof (Z.div_mod (_dataOffset f) 8 ltac:(lia)).
    pose proof (Z.mod_pos_bound (_dataOffset f) 8 ltac:(lia)).
    lia.
Qed.

Lemma step_cursor f src :
  wf F f -> cursor_ok f ->
  match step sw sl F f src with
  | Suspend f' => cursor_ok f'
  | Emit f' _ _ => cursor_ok f'
  end.
Proof.
  intros Hwf Hc. destruct (_state f) eqn:Hst.
  - rewrite (step_READ f src Hst).
    pose proof (wf_need_read f Hwf Hst) as Hneed.
    destruct (Z.le_gt_cases (Z.of_nat (length src)) (need_read F f)) as [Hle|Hgt].
    + destruct (read_absorb f src [] Hle) as [-> _].
      apply cursor_append; [exact Hc|lia].
    + destruct (read_overflow f src [] ltac:(lia)) as [-> _].
      destruct (correlated_cursor f src Hwf Hc Hst Hgt) as [Hc' _].
      pose proof (deoffset_cursor
                    (correlated sw sl F (append_input f src (need_read F f)))
                    (skipn (Z.to_nat (need_read F f)) src)
                    (wf_correlated f src Hwf Hst Hneed) Hc' eq_refl) as Hd.
      destruct (deoffset F _ _); [exact Hd|apply Hd].
  - rewrite (step_DEOFFSET f src Hst).
    pose proof (deoffset_cursor f src Hwf Hc Hst) as Hd.
    destruct (deoffset F f src); [exact Hd|apply Hd].
Qed.

(** **** [run] and [feed] *)

Lemma run_loop f src :
  wf F f ->
  loop sw sl F (length src + 2) f src [] = Some (run sw sl F f src).
Proof.
  intros Hwf. unfold run.
  destruct (loop_terminates (length src + 2) f src [] Hwf) as [r Hr].
  - destruct (fresh f); lia.
  - rewrite Hr. reflexivity.
Qed.

Lemma run_wf f src : wf F f -> wf F (fst (run sw sl F f src)).
Proof.
  intros Hwf. pose proof (run_loop f src Hwf) as Hr.
  destruct (run sw sl F f src) as [f1 o1].
  exact (loop_wf _ _ _ _ _ _ Hwf Hr).
Qed.

(** Input in two pieces: the second call takes up where the first
    returned. *)
Lemma run_app f xs ys :
  wf F f ->
  run sw sl F f (xs ++ ys) =
  (fst (run sw sl F (fst (run sw sl F f xs)) ys),
   snd (run sw sl F f xs) ++ snd (run sw sl F (fst (run sw sl F f xs)) ys)).
Proof.
  intros Hwf.
  pose proof (run_loop f xs Hwf) as Hx.
  pose proof (run_wf f xs Hwf) as Hwf1.
  destruct (run sw sl F f xs) as [f1 o1]. cbn [fst snd] in *.
  pose proof (run_loop f1 ys Hwf1) as Hy.
  destruct (run sw sl F f1 ys) as [f2 o2]. cbn [fst snd].
  rewrite loop_out in Hx. 
  assert (loop sw sl F (length ys + 2) f1 ys o1 = Some (f2, o1 ++ o2)) as Hy'.
  { rewrite loop_out, Hy. reflexivity. }
  destruct (loop sw sl F (length xs + 2) f xs []) as [[f1' o1']|] eqn:Hx';
    [|discriminate].
  cbn [option_map fst snd app] in Hx. inversion Hx; subst f1' o1'.
  destruct (loop_app _ _ _ _ _ _ _ _ _ Hwf Hx' Hy') as [k Hk].
  pose proof (run_loop f (xs ++ ys) Hwf) as Hxy.
  exact (loop_unique _ _ _ _ _ _ _ Hxy Hk).
Qed.

Lemma feed_fold chunks : forall f acc,
  fold_left (fun s chunk =>
               let '(f', frames) := run sw sl F (fst s) chunk in
               (f', snd s ++ frames)) chunks (f, acc) =
  (fst (feed sw sl F f chunks), acc ++ snd (feed sw sl F f chunks)).
Proof.
  unfold feed.
  induction chunks as [|c chunks IH]; intros f acc.
  - cbn [fold_left fst snd]. rewrite app_nil_r. reflexivity.
  - cbn [fold_left fst snd].
    destruct (run sw sl F f c) as [f1 o1].
    rewrite (IH f1 (acc ++ o1)), (IH f1 ([] ++ o1)).
    cbn [fst snd app]. rewrite <- app_assoc. reflexivity.
Qed.

Lemma feed_cons f chunk chunks :
  feed sw sl F f (chunk :: chunks) =
  (fst (feed sw sl F (fst (run sw sl F f chunk)) chunks),
   snd (run sw sl F f chunk) ++
   snd (feed sw sl F (fst (run sw sl F f chunk)) chunks)).
Proof.
  unfold feed at 1. cbn [fold_left fst snd].
  destruct (run sw sl F f chunk) as [f1 o1]. cbn [fst snd app].
  apply feed_fold.
Qed.

Lemma run_nil f : wf F f -> run sw sl F f [] = (f, []).
Proof. intros Hwf. reflexivity. Qed.

Lemma feed_concat chunks : forall f,
  wf F f -> feed sw sl F f chunks = run sw sl F f (concat chunks).
Proof.
  induction chunks as [|c chunks IH]; intros f Hwf.
  - reflexivity.
  - rewrite feed_cons. cbn [concat]. rewrite run_app by exact Hwf.
    rewrite IH by (apply run_wf; exact Hwf). reflexivity.
Qed.

Lemma init_wf : wf F init.
Proof. unfold wf, init. cbn [_state _dataOffset _syncOffset]. lia. Qed.

End Chunking.

(** X26 -- for a framer of frame length at least 1 (and a sync length that
    is not negative), feeding a byte stream in one call of [run] or cut
    into chunks of any sizes, empty ones and ones shorter than a frame
    included, over as many calls, writes the same frames in the same order
    and leaves the framer in the same state; and the loop of [run] does
    come to its end with them, within [length + 2] rounds. *)
Theorem feed_chunks_as_one (sw sl F : Z) (chunks : list (list byte)) :
  1 <= F -> 0 <= sl ->
  feed sw sl F init chunks = run sw sl F init (concat chunks) /\
  loop sw sl F (length (concat chunks) + 2) init (concat chunks) [] =
    Some (run sw sl F init (concat chunks)).
Proof.
  intros HF Hsl. split.
  - apply feed_concat; [exact HF|exact Hsl|]. apply init_wf. exact HF.
  - apply run_loop; [exact HF|exact Hsl|]. apply init_wf. exact HF.
Qed.

Lemma feed_chunks_as_one_witness :
  feed 0x086D53884469481F 8 16 init (map (fun b => [b]) sample_stream) =
  run 0x086D53884469481F 8 16 init
      (concat (map (fun b => [b]) sample_stream)).
Proof.
  apply (proj1 (feed_chunks_as_one 0x086D53884469481F 8 16
                  (map (fun b => [b]) sample_stream)
                  ltac:(lia) ltac:(lia))).
Defined.

(** X27 -- a call of [run] that brings no more bytes than the state it is
    entered in still takes ([_frameLen - _dataOffset/8] in [case READ],
    [_frameLen - (_dataOffset-_syncOffset)/8] in [case DEOFFSET]) returns
    for want of input with every byte appended to the buffered bits, in
    order, the cursor moved on by eight bits a byte, the state and the sync
    offset as they were, and no frame written; this also when the bytes
    are just as many as were wanted. *)
Theorem run_suspends_keeping_bits (sw sl F : Z) (f : framer) (src : list byte) :
  Z.of_nat (length src) <=
    match _state f with
    | READ => need_read F f
    | DEOFFSET => need_deoffset F f
    end ->
  run sw sl F f src =
  (mkFramer (_state f) (_rawData f ++ bits_of_bytes src)
            (_dataOffset f + 8 * Z.of_nat (length src)) (_syncOffset f), []).
Proof.
  intros Hlen. unfold run.
  replace (length src + 2)%nat with (S (length src + 1)) by lia.
  rewrite loop_S.
  destruct src as [|x src].
  - cbn [bits_of_bytes flat_map length]. rewrite app_nil_r.
    replace (_dataOffset f + 8 * Z.of_nat 0) with (_dataOffset f) by lia.
    destruct f; reflexivity.
  - assert (append_input f (x :: src) (Z.of_nat (length (x :: src))) =
            mkFramer (_state f) (_rawData f ++ bits_of_bytes (x :: src))
              (_dataOffset f + 8 * Z.of_nat (length (x :: src))) (_syncOffset f))
      as Happ.
    { unfold append_input. rewrite Nat2Z.id, firstn_all. reflexivity. }
    destruct (_state f) eqn:Hst.
    + rewrite (step_READ sw sl F f _ Hst).
      destruct (read_absorb sw sl F f (x :: src) [] Hlen) as [-> _].
      rewrite Happ. reflexivity.
    + rewrite (step_DEOFFSET sw sl F f _ Hst).
      destruct (deoffset_absorb F f (x :: src) [] Hlen) as [-> _].
      rewrite Happ. reflexivity.
Qed.

Lemma run_suspends_keeping_bits_witness :
  _state (fst (run 0x086D53884469481F 8 16 init (sync_at_37 ++ [x11]))) =
    DEOFFSET /\
  run 0x086D53884469481F 8 16
      (fst (run 0x086D53884469481F 8 16 init (sync_at_37 ++ [x11])))
      [x22; x33] =
  (mkFramer DEOFFSET
     (bits_of_bytes (sync_at_37 ++ [x11]) ++ bits_of_bytes [x22; x33])
     (136 + 8 * 2) 37, []).
Proof.
  split; [vm_compute; reflexivity|].
  apply (run_suspends_keeping_bits 0x086D53884469481F 8 16
           (fst (run 0x086D53884469481F 8 16 init (sync_at_37 ++ [x11])))
           [x22; x33]).
  vm_compute. discriminate.
Defined.

(** C9, the code at a failing input: the stream [sync_at_37] followed by six
    more bytes, frames of sixteen bytes.  The sync word is found at bit 37
    and the frame written is the 128 bits of the stream from there on.
    Behind it the stream holds eleven bits still: the last three bits
    [101] of the byte [0x55] and the byte [0x66].  When [run] returns for
    want of input the framer holds thirteen bits: [_syncOffset % 8 = 5]
    bits that the second [bitcpy] has taken from the frame just written
    (its bits 37 .. 41, [10001]), and the byte [0x66].  The three bits
    behind the frame are gone, and the cursor counts five bits that the
    stream does not hold there.  Cutting the stream into chunks changes
    none of this. *)
Theorem run_drops_leftover_bits :
  let sw := 0x086D53884469481F in
  let stream := sync_at_37 ++ [x11; x22; x33; x44; x55; x66] in
  let frame := bytes_of_bits 16 (skipn 37 (bits_of_bytes stream)) in
  fst (correlateU64 sw 8 (firstn 16 stream) 16) = 37 /\
  snd (run sw 8 16 init stream) = [frame] /\
  skipn (37 + 8 * 16) (bits_of_bytes stream) =
    [true; false; true] ++ bits_of_bytes [x66] /\
  _state (fst (run sw 8 16 init stream)) = READ /\
  _dataOffset (fst (run sw 8 16 init stream)) = 5 + 8 /\
  _rawData (fst (run sw 8 16 init stream)) =
    firstn 5 (skipn 37 (bits_of_bytes frame)) ++ bits_of_bytes [x66] /\
  firstn 5 (skipn 37 (bits_of_bytes frame)) =
    [true; false; false; false; true] /\
  feed sw 8 16 init (map (fun b => [b]) stream) = run sw 8 16 init stream.
Proof.
  cbv zeta.
  split; [vm_compute; reflexivity|].
  split; [vm_compute; reflexivity|].
  split; [vm_compute; reflexivity|].
  split; [vm_compute; reflexivity|].
  split; [vm_compute; reflexivity|].
  split; [vm_compute; reflexivity|].
  split; vm_compute; reflexivity.
Qed.

(** *** More on the distance and on the offset found *)

Lemma popcount_half z :
  0 <= z -> popcount z = ((if Z.odd z then 1 else 0) + popcount (Z.div2 z))%nat.
Proof.
  intros Hz. destruct z as [|p|p]; [reflexivity| |lia].
  destruct p as [q|q|]; reflexivity.
Qed.

Lemma popcount_positions n : forall z k,
  0 <= z < 2 ^ Z.of_nat n ->
  popcount z =
  length (filter (fun i => Z.testbit z (Z.of_nat i - Z.of_nat k)) (seq k n)).
Proof.
  induction n as [|n IH]; intros z k Hz.
  - cbn in Hz. assert (z = 0) as -> by lia. reflexivity.
  - rewrite Nat2Z.inj_succ, Z.pow_succ_r in Hz by lia.
    rewrite popcount_half by lia.
    cbn [seq filter]. rewrite Z.sub_diag, Z.bit0_odd.
    assert (length (filter (fun i => Z.testbit z (Z.of_nat i - Z.of_nat k)) (seq (S k) n)) =
            popcount (Z.div2 z)) as Ht.
    { rewrite (IH (Z.div2 z) (S k)).
      2:{ rewrite Z.div2_div.
          split; [apply Z.div_pos; lia|apply Z.div_lt_upper_bound; lia]. }
      f_equal. apply filter_ext_in. intros i Hi. apply in_seq in Hi.
      rewrite Z.div2_spec, Z.shiftr_spec by lia.
      f_equal. lia. }
    destruct (Z.odd z); cbn [length]; rewrite Ht; reflexivity.
Qed.

Lemma inverseCorrelateU64_count x y :
  0 <= x < 2 ^ 64 -> 0 <= y < 2 ^ 64 ->
  inverseCorrelateU64 x y = Z.of_nat (differing_bits x y).
Proof.
  intros Hx Hy.
  rewrite (inverseCorrelateU64_popcount x y Hx Hy). f_equal.
  unfold differing_bits.
  rewrite (popcount_positions 64 (Z.lxor x y) 0)
    by (apply lxor_range64; assumption).
  f_equal. apply filter_ext. intros i.
  rewrite Z.sub_0_r. apply Z.lxor_spec.
Qed.

(** X1 -- [inverseCorrelateU64], the loop that clears the lowest set bit of
    [x ^ y] until nothing is left, returns for two 64-bit words the number
    of bit positions at which they differ; so it is symmetric, at most 64,
    and 0 exactly for equal words. *)
Theorem inverseCorrelateU64_differing_bits (x y : Z) :
  0 <= x < 2 ^ 64 -> 0 <= y < 2 ^ 64 ->
  inverseCorrelateU64 x y = Z.of_nat (differing_bits x y) /\
  inverseCorrelateU64 x y = inverseCorrelateU64 y x /\
  0 <= inverseCorrelateU64 x y <= 64 /\
  (inverseCorrelateU64 x y = 0 <-> x = y).
Proof.
  intros Hx Hy.
  pose proof (inverseCorrelateU64_popcount x y Hx Hy) as Hp.
  pose proof (inverseCorrelateU64_popcount y x Hy Hx) as Hq.
  split; [|split; [|split]].
  - apply inverseCorrelateU64_count; assumption.
  - rewrite Hp, Hq, Z.lxor_comm. reflexivity.
  - apply inverseCorrelateU64_range; assumption.
  - rewrite (inverseCorrelateU64_zero x y Hx Hy). split; intros E; auto.
Qed.

Lemma inverseCorrelateU64_differing_bits_witness :
  inverseCorrelateU64 0xF0 0x0F = Z.of_nat (differing_bits 0xF0 0x0F).
Proof.
  apply (proj1 (inverseCorrelateU64_differing_bits 0xF0 0x0F
                  ltac:(lia) ltac:(lia))).
Defined.

(** **** The search finds the first offset of least mismatch *)

Lemma consider_cases p d s :
  (Z.min d (64 - d) < bestCorr s /\
   consider 64 p d s =
   mkSearch (window s) (Z.min d (64 - d)) p (Some (64 - d <? d))) \/
  (bestCorr s <= Z.min d (64 - d) /\ consider 64 p d s = s).
Proof.
  unfold consider.
  destruct (Z.ltb_spec d (bestCorr s)) as [H1|H1]; cbn [bestCorr window].
  - left. split; [lia|].
    destruct (Z.ltb_spec (64 - d) d) as [H2|H2].
    + rewrite Z.min_r by lia. reflexivity.
    + rewrite Z.min_l by lia. reflexivity.
  - destruct (Z.ltb_spec (64 - d) (bestCorr s)) as [H2|H2].
    + left. split; [lia|].
      destruct (Z.ltb_spec (64 - d) d) as [H3|H3]; [|lia].
      rewrite Z.min_r by lia. reflexivity.
    + right. split; [lia|reflexivity].
Qed.

Lemma distance_eq sw f p :
  distance sw f p = inverseCorrelateU64 sw (bits_value f p 64).
Proof. unfold distance. reflexivity. Qed.

Lemma mismatch_eq sw f p :
  mismatch sw f p = Z.min (distance sw f p) (64 - distance sw f p).
Proof. unfold mismatch. reflexivity. Qed.

Lemma consider_mismatch sw f s k :
  (mismatch sw f k < bestCorr s /\
   consider 64 (Z.of_nat k) (distance sw f k) s =
   mkSearch (window s) (mismatch sw f k) (Z.of_nat k)
            (Some (64 - distance sw f k <? distance sw f k))) \/
  (bestCorr s <= mismatch sw f k /\
   consider 64 (Z.of_nat k) (distance sw f k) s = s).
Proof. unfold mismatch. apply consider_cases. Qed.

Lemma scan_step_distance sw f s p :
  bestCorr (scan_step sw f s p) =
    bestCorr (consider 64 (Z.of_nat p) (distance sw f p) s) /\
  bestOffset (scan_step sw f s p) =
    bestOffset (consider 64 (Z.of_nat p) (distance sw f p) s) /\
  inverted (scan_step sw f s p) =
    inverted (consider 64 (Z.of_nat p) (distance sw f p) s).
Proof.
  unfold distance. split; [|split].
  - apply scan_step_best.
  - apply scan_step_offset.
  - apply scan_step_inverted.
Qed.

Lemma best_so_far_step sw f k s :
  best_so_far sw f k s -> best_so_far sw f (S k) (scan_step sw f s k).
Proof.
  intros (o & Ho & Hall & Hbefore & Hflag).
  destruct (scan_step_distance sw f s k) as (Eb & Eo & Ei).
  unfold best_so_far. rewrite Eb, Eo, Ei.
  destruct (consider_mismatch sw f s k) as [[Hlt ->]|[Hge ->]];
    cbn [bestCorr bestOffset inverted].
  - exists k. split; [reflexivity|].
    assert (forall p, (p < k)%nat -> mismatch sw f k < mismatch sw f p) as Hk.
    { intros p Hp. specialize (Hall p Hp). lia. }
    split; [|split; [exact Hk|]].
    + intros p Hp. destruct (Nat.eq_dec p k) as [->|Hne]; [lia|].
      specialize (Hk p ltac:(lia)). lia.
    + split; [lia|]. split; [reflexivity|]. split; [|reflexivity].
      destruct (inverted s) as [b|].
      * lia.
      * destruct Hflag as [_ Hd]. lia.
  - exists o. split; [exact Ho|]. split; [|split; [exact Hbefore|]].
    + intros p Hp. destruct (Nat.eq_dec p k) as [->|Hne]; [exact Hge|].
      apply Hall. lia.
    + destruct (inverted s) as [b|]; [|exact Hflag].
      destruct Hflag as (H1 & H2 & H3 & H4). repeat split; try assumption. lia.
Qed.

Lemma best_so_far_scan sw f n : forall k s,
  best_so_far sw f k s ->
  best_so_far sw f (k + n) (fold_left (scan_step sw f) (seq k n) s).
Proof.
  induction n as [|n IH]; intros k s Hs.
  - rewrite Nat.add_0_r. exact Hs.
  - rewrite <- cons_seq, fold_left_cons.
    replace (k + S n)%nat with (S k + n)%nat by lia.
    apply IH. apply best_so_far_step. exact Hs.
Qed.

Lemma distance_bounds sw f p :
  0 <= sw < 2 ^ 64 -> 0 <= distance sw f p <= 64.
Proof. intros Hsw. unfold distance. apply distance_range. exact Hsw. Qed.

Lemma mismatch_bounds sw f p :
  0 <= sw < 2 ^ 64 -> 0 <= mismatch sw f p <= 32.
Proof.
  intros Hsw. pose proof (distance_bounds sw f p Hsw). unfold mismatch. lia.
Qed.

(** The result of [correlateU64] with an eight-byte sync word, in terms of
    the search state it ends in. *)
Lemma correlateU64_best_so_far sw f len :
  0 <= sw < 2 ^ 64 -> length f = Z.to_nat len -> 8 <= len ->
  exists s,
    correlateU64 sw 8 f len = (bestOffset s, inverted s) /\
    best_so_far sw f (8 * (Z.to_nat len - 8)) s /\
    (distance sw f 0 = 0 -> bestOffset s = 0 /\ inverted s = None).
Proof.
  intros Hsw Hlen H8.
  rewrite (correlateU64_scan sw Hsw f len Hlen H8).
  rewrite <- !(distance_eq sw f 0).
  generalize (bits_value f 0 64). intros w0.
  assert (best_so_far sw f 0 (mkSearch w0 (distance sw f 0) 0 None)) as H0.
  { exists 0%nat. cbn [bestOffset bestCorr inverted].
    split; [reflexivity|]. split; [intros; lia|]. split; [intros; lia|].
    split; reflexivity. }
  destruct (Z.eqb_spec (distance sw f 0) 0) as [E|E].
  - exists (mkSearch w0 0 0 None).
    cbn [bestOffset inverted]. split; [reflexivity|]. split; [|auto].
    exists 0%nat. cbn [bestOffset bestCorr inverted].
    split; [reflexivity|]. split.
    + intros p _. apply (mismatch_bounds sw f p Hsw).
    + split; [intros; lia|]. split; [reflexivity|].
      symmetry. exact E.
  - eexists. split; [reflexivity|]. split.
    + apply (best_so_far_scan sw f (8 * (Z.to_nat len - 8)) 0). exact H0.
    + intros Hd. contradiction.
Qed.

Lemma correlateU64_offset_spec (sw : Z) (f : list byte) (len : Z) :
  0 <= sw < 2 ^ 64 -> length f = Z.to_nat len -> 8 <= len ->
  exists o : nat,
    fst (correlateU64 sw 8 f len) = Z.of_nat o /\
    (o = 0 \/ o < 8 * (Z.to_nat len - 8))%nat /\
    (forall p, (p < 8 * (Z.to_nat len - 8))%nat ->
       mismatch sw f o <= mismatch sw f p) /\
    (forall p, (p < o)%nat -> mismatch sw f o < mismatch sw f p).
Proof.
  intros Hsw Hlen H8.
  destruct (correlateU64_best_so_far sw f len Hsw Hlen H8)
    as (s & -> & (o & Ho & Hall & Hbefore & Hflag) & _).
  cbn [fst]. exists o. split; [exact Ho|].
  pose proof (distance_bounds sw f 0 Hsw) as Hd0.
  destruct (inverted s) as [b|].
  - destruct Hflag as (Hlt & Hm & _). rewrite <- Hm.
    split; [right; exact Hlt|]. split; assumption.
  - destruct Hflag as [-> Hm].
    split; [left; reflexivity|]. split; [|intros; lia].
    intros p Hp. specialize (Hall p Hp).
    assert (mismatch sw f 0 <= distance sw f 0) by (unfold mismatch; lia).
    lia.
Qed.

(** X2 -- with an eight-byte sync word, [correlateU64] returns the first bit
    offset, of those it tries (the offsets below [8*(len-8)]), at which the
    64 bits of the buffer are nearest to the sync word or to its inverse: no
    offset has a smaller mismatch, and every earlier offset has a greater
    one. *)
Theorem correlateU64_earliest_best (sw : Z) (f : list byte) (len : Z) :
  0 <= sw < 2 ^ 64 -> length f = Z.to_nat len -> 8 <= len ->
  exists o : nat,
    fst (correlateU64 sw 8 f len) = Z.of_nat o /\
    (o = 0 \/ o < 8 * (Z.to_nat len - 8))%nat /\
    (forall p, (p < 8 * (Z.to_nat len - 8))%nat ->
       mismatch sw f o <= mismatch sw f p) /\
    (forall p, (p < o)%nat -> mismatch sw f o < mismatch sw f p).
Proof. apply correlateU64_offset_spec. Qed.

Lemma correlateU64_earliest_best_witness :
  exists o : nat,
    fst (correlateU64 0x086D53884469481F 8 sync_at_37 16) = Z.of_nat o /\
    (o = 0 \/ o < 8 * (Z.to_nat 16 - 8))%nat /\
    (forall p, (p < 8 * (Z.to_nat 16 - 8))%nat ->
       mismatch 0x086D53884469481F sync_at_37 o <=
       mismatch 0x086D53884469481F sync_at_37 p) /\
    (forall p, (p < o)%nat ->
       mismatch 0x086D53884469481F sync_at_37 o <
       mismatch 0x086D53884469481F sync_at_37 p).
Proof.
  apply (correlateU64_earliest_best 0x086D53884469481F sync_at_37 16);
    [lia|reflexivity|lia].
Defined.

(** X3 -- what [correlateU64] writes to [*inverted], with an eight-byte sync
    word and a buffer longer than it.  The flag is left unwritten exactly
    when the offset returned is 0 and the 64 bits there are no farther from
    the sync word than from its inverse; it is 0 only at an offset above 0
    where the sync word is the nearer of the two, and 1 where the inverse
    is strictly nearer. *)
Theorem correlateU64_inverted_flag (sw : Z) (f : list byte) (len : Z) :
  0 <= sw < 2 ^ 64 -> length f = Z.to_nat len -> 8 < len ->
  match snd (correlateU64 sw 8 f len) with
  | None =>
      fst (correlateU64 sw 8 f len) = 0 /\ distance sw f 0 <= 32
  | Some false =>
      0 < fst (correlateU64 sw 8 f len) /\
      distance sw f (Z.to_nat (fst (correlateU64 sw 8 f len))) <= 32
  | Some true =>
      32 < distance sw f (Z.to_nat (fst (correlateU64 sw 8 f len)))
  end.
Proof.
  intros Hsw Hlen H8.
  destruct (correlateU64_best_so_far sw f len Hsw Hlen ltac:(lia))
    as (s & E & (o & Ho & Hall & _ & Hflag) & _).
  rewrite E. cbn [fst snd]. rewrite Ho, Nat2Z.id.
  pose proof (Hall 0%nat ltac:(lia)) as Hall0. clear Hall E.
  rewrite mismatch_eq in Hall0.
  pose proof (distance_bounds sw f o Hsw) as Hdo.
  destruct (inverted s) as [[|]|].
  - destruct Hflag as (_ & _ & _ & Hb). revert Hb Hdo.
    generalize (distance sw f o). intros d Hb Hdo.
    symmetry in Hb. apply Z.ltb_lt in Hb. lia.
  - destruct Hflag as (Hlt & Hm & Hd0 & Hb). rewrite mismatch_eq in Hm.
    destruct o as [|o].
    + exfalso. revert Hm Hd0 Hb.
      generalize (distance sw f 0) (bestCorr s). intros d b Hm Hd0 Hb.
      symmetry in Hb. apply Z.ltb_ge in Hb. lia.
    + split; [lia|]. revert Hb Hdo.
      generalize (distance sw f (S o)). intros d Hb _.
      symmetry in Hb. apply Z.ltb_ge in Hb. lia.
  - destruct Hflag as [-> Hm]. split; [reflexivity|]. revert Hall0 Hm.
    generalize (distance sw f 0) (bestCorr s). intros d b Hall0 Hm. lia.
Qed.

Lemma correlateU64_inverted_flag_witness :
  32 < distance 0x086D53884469481F inverse_sync_at_37
         (Z.to_nat (fst (correlateU64 0x086D53884469481F 8 inverse_sync_at_37 16))).
Proof.
  pose proof (correlateU64_inverted_flag 0x086D53884469481F inverse_sync_at_37 16
                ltac:(lia) ltac:(reflexivity) ltac:(lia)) as Hf.
  cbv zeta in Hf.
  replace (snd (correlateU64 0x086D53884469481F 8 inverse_sync_at_37 16))
    with (Some true) in Hf by (vm_compute; reflexivity).
  exact Hf.
Defined.

(** **** The offset leaves room for the sync word *)

Lemma rounds_offset_tight sw sl (body : list byte) : forall a s B,
  0 <= bestOffset s <= B ->
  (body <> [] -> 8 * Z.of_nat (a + length body) - 1 <= B) ->
  0 <= bestOffset
         (fold_left (byte_step sw sl)
                    (combine (map Z.of_nat (seq a (length body))) body) s)
    <= B.
Proof.
  induction body as [|b body IH]; intros a s B Hs HB.
  - exact Hs.
  - cbn [length seq map combine]. rewrite fold_left_cons.
    specialize (HB ltac:(discriminate)). cbn [length] in HB.
    apply IH.
    + apply byte_step_offset; lia.
    + intros _. lia.
Qed.

Lemma correlateU64_offset_tight sw sl frame len :
  0 <= fst (correlateU64 sw sl frame len) /\
  (fst (correlateU64 sw sl frame len) = 0 \/
   fst (correlateU64 sw sl frame len) + 8 * sl < 8 * len).
Proof.
  unfold correlateU64.
  destruct (_ =? 0); cbn [fst]; [lia|].
  unfold rounds.
  set (body := firstn (Z.to_nat (len - sl)) (skipn (Z.to_nat sl) frame)).
  assert (length body <= Z.to_nat (len - sl))%nat as Hb
    by (subst body; rewrite length_firstn; lia).
  destruct (Nat.eq_dec (length body) 0) as [E|E].
  - rewrite E. cbn [seq map combine fold_left bestOffset]. lia.
  - pose proof (rounds_offset_tight sw sl body 0
                  (mkSearch (initial_window sl frame)
                     (inverseCorrelateU64 (syncWord sw sl)
                        (Z.land (initial_window sl frame) (syncMask sl))) 0 None)
                  (8 * Z.of_nat (length body) - 1)) as Hr.
    cbn [bestOffset Nat.add] in Hr.
    specialize (Hr ltac:(lia) ltac:(intros _; lia)).
    lia.
Qed.

(** X4 -- whatever the sync word, its length and the buffer, the bit offset
    that [correlateU64] returns is never negative and, unless it is 0,
    leaves room for the whole sync word before byte [len]:
    [offset + 8*_syncLen < 8*len]. *)
Theorem correlateU64_offset_leaves_room (sw sl : Z) (frame : list byte)
    (len : Z) :
  0 <= fst (correlateU64 sw sl frame len) /\
  (fst (correlateU64 sw sl frame len) = 0 \/
   fst (correlateU64 sw sl frame len) + 8 * sl < 8 * len).
Proof. apply correlateU64_offset_tight. Qed.

(** *** [run]: what is written and what is kept *)

Lemma length_bytes_of_bits n : forall bits, length (bytes_of_bits n bits) = n.
Proof.
  induction n as [|n IH]; intros bits; [reflexivity|].
  cbn [bytes_of_bits length]. rewrite IH. reflexivity.
Qed.

Lemma bits_byte_bits b : bits_byte (byte_bits b) = b.
Proof. destruct b; reflexivity. Qed.

Lemma byte_bits_bits_byte (l : list bool) :
  length l = 8%nat -> byte_bits (bits_byte l) = l.
Proof.
  intros Hl.
  do 8 (destruct l as [|? l]; [discriminate|]).
  destruct l; [|discriminate].
  repeat match goal with b : bool |- _ => destruct b end; reflexivity.
Qed.

Lemma bits_of_bytes_cons b l :
  bits_of_bytes (b :: l) = byte_bits b ++ bits_of_bytes l.
Proof. reflexivity. Qed.

Lemma bytes_of_bits_bytes l : forall rest,
  bytes_of_bits (length l) (bits_of_bytes l ++ rest) = l.
Proof.
  induction l as [|b l IH]; intros rest; [reflexivity|].
  cbn [length bytes_of_bits]. rewrite bits_of_bytes_cons, <- app_assoc.
  assert (length (byte_bits b) = 8%nat) as H8 by reflexivity.
  rewrite firstn_app, skipn_app, H8, Nat.sub_diag.
  rewrite firstn_all2, skipn_all2 by lia.
  cbn [firstn skipn app]. rewrite app_nil_r, bits_byte_bits, IH. reflexivity.
Qed.

Lemma bytes_of_bits_exact l n :
  length l = n -> bytes_of_bits n (bits_of_bytes l) = l.
Proof.
  intros <-. rewrite <- (app_nil_r (bits_of_bytes l)).
  apply bytes_of_bits_bytes.
Qed.

Lemma bitcpy_0 raw bits : bitcpy raw 0 bits = raw.
Proof. unfold bitcpy. cbn [Z.to_nat skipn]. apply firstn_skipn. Qed.

Lemma firstn_plus {A} (a b : nat) : forall l : list A,
  firstn (a + b) l = firstn a l ++ firstn b (skipn a l).
Proof.
  induction a as [|a IH]; intros l; [reflexivity|].
  destruct l as [|x l]; [cbn; now rewrite firstn_nil|].
  cbn [Nat.add firstn skipn app]. rewrite IH. reflexivity.
Qed.

Lemma bits_of_bytes_of_bits n : forall bits,
  (8 * n <= length bits)%nat ->
  bits_of_bytes (bytes_of_bits n bits) = firstn (8 * n) bits.
Proof.
  induction n as [|n IH]; intros bits Hlen; [reflexivity|].
  cbn [bytes_of_bits]. rewrite bits_of_bytes_cons.
  rewrite IH by (rewrite length_skipn; lia).
  rewrite byte_bits_bits_byte by (rewrite length_firstn; lia).
  replace (8 * S n)%nat with (8 + 8 * n)%nat by lia.
  rewrite firstn_plus. reflexivity.
Qed.

(** **** Input of at most one frame *)

(** X5 -- [run] on a framer fresh from [init], given no more bytes than
    one frame holds: everything is appended to the buffer, the state stays
    [READ], and no frame is written.  A frame is written only once a byte
    behind it has arrived: with exactly [_frameLen] bytes none is. *)
Theorem run_short_input (sw sl F : Z) (src : list byte) :
  Z.of_nat (length src) <= F ->
  run sw sl F init src =
  (mkFramer READ (bits_of_bytes src) (8 * Z.of_nat (length src)) 0, []).
Proof.
  intros Hlen. unfold run.
  replace (length src + 2)%nat with (S (length src + 1)) by lia.
  rewrite loop_S. destruct src as [|x src]; [reflexivity|].
  rewrite step_READ by reflexivity.
  destruct (read_absorb sw sl F init (x :: src) []) as [-> _].
  { unfold need_read, init. cbn [_dataOffset]. rewrite Z.div_0_l by lia. lia. }
  unfold append_input, init. cbn [_state _rawData _dataOffset _syncOffset app].
  rewrite Nat2Z.id, firstn_all. reflexivity.
Qed.

Lemma run_short_input_witness :
  run 0x086D53884469481F 8 16 init sync_at_37 =
  (mkFramer READ (bits_of_bytes sync_at_37) (8 * Z.of_nat (length sync_at_37)) 0, []).
Proof.
  apply (run_short_input 0x086D53884469481F 8 16 sync_at_37).
  vm_compute. discriminate.
Defined.

(** **** Frames that are found at offset 0 *)

Lemma step_aligned sw sl F fr more :
  1 <= F -> length fr = Z.to_nat F -> more <> [] ->
  fst (correlateU64 sw sl fr F) = 0 ->
  step sw sl F init (fr ++ more) = Emit init fr more.
Proof.
  intros HF Hfr Hmore Hcorr.
  assert (0 < Z.of_nat (length more)) as Hm by (destruct more; [contradiction|cbn; lia]).
  rewrite step_READ by reflexivity.
  assert (need_read F init = F) as Hneed.
  { unfold need_read, init. cbn [_dataOffset]. rewrite Z.div_0_l by lia. lia. }
  destruct (read_overflow sw sl F init (fr ++ more) []) as [-> _].
  { rewrite Hneed, length_app. lia. }
  rewrite Hneed.
  assert (append_input init (fr ++ more) F =
          mkFramer READ (bits_of_bytes fr) (8 * F) 0) as ->.
  { unfold append_input, init. cbn [_state _rawData _dataOffset _syncOffset app].
    rewrite <- Hfr, firstn_app, Nat.sub_diag, firstn_all.
    cbn [firstn]. rewrite app_nil_r. reflexivity. }
  assert (correlated sw sl F (mkFramer READ (bits_of_bytes fr) (8 * F) 0) =
          mkFramer DEOFFSET (bits_of_bytes fr) (8 * F) 0) as ->.
  { unfold correlated. cbn [_rawData _dataOffset].
    rewrite (bytes_of_bits_exact fr _ Hfr), Hcorr. reflexivity. }
  rewrite <- Hfr at 1. rewrite skipn_app, Nat.sub_diag, skipn_all. cbn [skipn app].
  assert (need_deoffset F (mkFramer DEOFFSET (bits_of_bytes fr) (8 * F) 0) = 0)
    as Hnd.
  { unfold need_deoffset. cbn [_dataOffset _syncOffset].
    rewrite Z.sub_0_r, Z.mul_comm, Z.div_mul by lia. lia. }
  destruct (deoffset_overflow F (mkFramer DEOFFSET (bits_of_bytes fr) (8 * F) 0)
              more []) as [-> _].
  { rewrite Hnd. lia. }
  rewrite Hnd. cbn [Z.to_nat skipn].
  unfold append_input, emit.
  cbn [_state _rawData _dataOffset _syncOffset firstn].
  rewrite app_nil_r, !bitcpy_0.
  rewrite (bytes_of_bits_exact fr _ Hfr).
  reflexivity.
Qed.

Lemma loop_aligned sw sl F frames : forall tail out,
  1 <= F ->
  Forall (fun fr => length fr = Z.to_nat F /\ fst (correlateU64 sw sl fr F) = 0)
         frames ->
  1 <= Z.of_nat (length tail) <= F ->
  exists n,
    loop sw sl F n init (concat frames ++ tail) out =
    Some (mkFramer READ (bits_of_bytes tail) (8 * Z.of_nat (length tail)) 0,
          out ++ frames).
Proof.
  induction frames as [|fr frames IH]; intros tail out HF Hall Htail.
  - exists 1%nat. cbn [concat app]. rewrite loop_S.
    destruct tail as [|x tail]; [cbn in Htail; lia|].
    rewrite step_READ by reflexivity.
    destruct (read_absorb sw sl F init (x :: tail) []) as [-> _].
    { unfold need_read, init. cbn [_dataOffset]. rewrite Z.div_0_l by lia. lia. }
    unfold append_input, init. cbn [_state _rawData _dataOffset _syncOffset app].
    rewrite Nat2Z.id, firstn_all, app_nil_r. reflexivity.
  - inversion Hall as [|fr' frames' [Hlen Hcorr] Hrest]; subst.
    destruct (IH tail (out ++ [fr]) HF Hrest Htail) as [n Hn].
    exists (S n). cbn [concat]. rewrite <- app_assoc, loop_S.
    assert (concat frames ++ tail <> []) as Hne.
    { destruct tail as [|x tail]; [cbn in Htail; lia|].
      intros E. apply app_eq_nil in E. destruct E; discriminate. }
    rewrite (step_aligned sw sl F fr (concat frames ++ tail) HF Hlen Hne Hcorr).
    destruct (fr ++ concat frames ++ tail) as [|y l] eqn:E.
    { apply app_eq_nil in E. destruct E; contradiction. }
    rewrite Hn, <- app_assoc. reflexivity.
Qed.

Lemma run_aligned sw sl F frames tail :
  1 <= F -> 0 <= sl ->
  Forall (fun fr => length fr = Z.to_nat F /\ fst (correlateU64 sw sl fr F) = 0)
         frames ->
  1 <= Z.of_nat (length tail) <= F ->
  run sw sl F init (concat frames ++ tail) =
  (mkFramer READ (bits_of_bytes tail) (8 * Z.of_nat (length tail)) 0, frames).
Proof.
  intros HF Hsl Hall Htail.
  destruct (loop_aligned sw sl F frames tail [] HF Hall Htail) as [n Hn].
  pose proof (run_loop sw sl F HF Hsl init (concat frames ++ tail) (init_wf F HF))
    as Hr.
  cbn [app] in Hn. symmetry. exact (loop_unique _ _ _ _ _ _ _ _ _ _ Hn Hr).
Qed.

Lemma correlateU64_sync_at_start sw fr F :
  0 <= sw < 2 ^ 64 -> 8 <= F -> length fr = Z.to_nat F ->
  bits_value fr 0 64 = sw ->
  fst (correlateU64 sw 8 fr F) = 0.
Proof.
  intros Hsw HF Hlen Hbits.
  rewrite (correlateU64_scan sw Hsw fr F Hlen HF), Hbits.
  destruct (Z.eqb_spec (inverseCorrelateU64 sw sw) 0) as [_|E]; [reflexivity|].
  exfalso. apply E. apply (inverseCorrelateU64_zero sw sw Hsw Hsw). reflexivity.
Qed.

(** X6 -- a stream of whole frames that each begin with the eight-byte sync
    word, followed by at least one and at most [_frameLen] more bytes, passes
    through [run] unchanged: the frames written are exactly those of the
    stream, in order, and the bytes behind the last one are kept for the
    next frame. *)
Theorem run_passes_aligned_frames (sw F : Z) (frames : list (list byte))
    (tail : list byte) :
  0 <= sw < 2 ^ 64 -> 8 <= F ->
  Forall (fun fr => length fr = Z.to_nat F /\ bits_value fr 0 64 = sw) frames ->
  1 <= Z.of_nat (length tail) <= F ->
  run sw 8 F init (concat frames ++ tail) =
  (mkFramer READ (bits_of_bytes tail) (8 * Z.of_nat (length tail)) 0, frames).
Proof.
  intros Hsw HF Hall Htail.
  apply run_aligned; [lia|lia| |exact Htail].
  apply Forall_impl with (2 := Hall). intros fr [Hlen Hbits].
  split; [exact Hlen|].
  apply correlateU64_sync_at_start; assumption.
Qed.

Lemma run_passes_aligned_frames_witness :
  run 0x086D53884469481F 8 16 init
      (concat [aligned_frame; aligned_frame] ++ [x2a]) =
  (mkFramer READ (bits_of_bytes [x2a]) (8 * Z.of_nat (length [x2a])) 0,
   [aligned_frame; aligned_frame]).
Proof.
  apply (run_passes_aligned_frames 0x086D53884469481F 16
           [aligned_frame; aligned_frame] [x2a]).
  - lia.
  - lia.
  - repeat constructor; vm_compute; reflexivity.
  - cbn. lia.
Defined.

(** X7 -- with a sync word of fewer than eight bytes (that fits its
    length) [run] never realigns: whatever the stream holds, it is cut into
    consecutive pieces of [_frameLen] bytes from its first byte on, each
    written as a frame once a byte behind it has arrived. *)
Theorem run_short_sync_word_cuts_blindly (sw sl F : Z)
    (frames : list (list byte)) (tail : list byte) :
  1 <= F -> 0 <= sl < 8 -> 0 <= sw < 2 ^ (8 * sl) ->
  Forall (fun fr => length fr = Z.to_nat F) frames ->
  1 <= Z.of_nat (length tail) <= F ->
  run sw sl F init (concat frames ++ tail) =
  (mkFramer READ (bits_of_bytes tail) (8 * Z.of_nat (length tail)) 0, frames).
Proof.
  intros HF Hsl Hsw Hall Htail.
  apply run_aligned; [lia|lia| |exact Htail].
  apply Forall_impl with (2 := Hall). intros fr Hlen.
  split; [exact Hlen|].
  rewrite correlateU64_short_sync_word by assumption. reflexivity.
Qed.

Lemma run_short_sync_word_cuts_blindly_witness :
  run 0xAAAA 2 10 init (concat [aaaa_at_37] ++ [x2a]) =
  (mkFramer READ (bits_of_bytes [x2a]) (8 * Z.of_nat (length [x2a])) 0,
   [aaaa_at_37]).
Proof.
  apply (run_short_sync_word_cuts_blindly 0xAAAA 2 10 [aaaa_at_37] [x2a]).
  - lia.
  - lia.
  - vm_compute. split; [discriminate|reflexivity].
  - repeat constructor.
  - cbn. lia.
Defined.

(** **** [setInput] *)

(** X8 -- after [setInput] the framer behaves as after [init]: on any input
    [run] writes the same frames, and ends with the same state, buffer and
    cursor; what was buffered before is not used. *)
Theorem run_after_setInput (sw sl F : Z) (f : framer) (src : list byte) :
  snd (run sw sl F (setInput f) src) = snd (run sw sl F init src) /\
  _state (fst (run sw sl F (setInput f) src)) =
    _state (fst (run sw sl F init src)) /\
  _rawData (fst (run sw sl F (setInput f) src)) =
    _rawData (fst (run sw sl F init src)) /\
  _dataOffset (fst (run sw sl F (setInput f) src)) =
    _dataOffset (fst (run sw sl F init src)).
Proof.
  unfold run.
  replace (length src + 2)%nat with (S (length src + 1)) by lia.
  rewrite !loop_S. destruct src as [|x src]; [cbn; auto|].
  rewrite !step_READ by reflexivity.
  unfold read. cbn [setInput init _dataOffset].
  destruct (_ <=? 0).
  - cbn [fst snd]. unfold append_input.
    cbn [_state _rawData _dataOffset]. auto.
  - assert (correlated sw sl F
              (append_input (setInput f) (x :: src)
                 (Z.min (F - 0 / 8) (Z.of_nat (length (x :: src))))) =
            correlated sw sl F
              (append_input init (x :: src)
                 (Z.min (F - 0 / 8) (Z.of_nat (length (x :: src)))))) as ->
      by reflexivity.
    destruct (deoffset F _ _) as [f'|f' frame rest].
    + split; [reflexivity|]. split; [reflexivity|]. split; reflexivity.
    + destruct (loop sw sl F _ f' rest _) as [r|];
        (split; [reflexivity|]; split; [reflexivity|]; split; reflexivity).
Qed.

(** **** The size of the output *)

Lemma step_frame_length sw sl F f src :
  match step sw sl F f src with
  | Suspend _ => True
  | Emit _ frame _ => length frame = Z.to_nat F
  end.
Proof.
  unfold step, read, deoffset, emit.
  destruct (_state f);
    repeat match goal with
           | |- context [if ?c then _ else _] => destruct c
           end;
    try exact I; apply length_bytes_of_bits.
Qed.

Lemma step_consumes sw sl F f src :
  1 <= F -> 0 <= sl -> wf F f -> fresh f = true ->
  match step sw sl F f src with
  | Suspend _ => True
  | Emit _ _ rest =>
      Z.of_nat (length rest) + F <= Z.of_nat (length src) /\
      (1 <= length rest)%nat
  end.
Proof.
  intros HF Hsl Hwf Hfresh.
  assert (_state f = READ) as Hst.
  { unfold fresh in Hfresh. destruct (_state f); [reflexivity|discriminate]. }
  assert (need_read F f = F) as Hneed.
  { unfold fresh in Hfresh. rewrite Hst in Hfresh. apply Z.ltb_lt in Hfresh.
    destruct Hwf as [_ Hwf]. rewrite Hst in Hwf.
    unfold need_read. rewrite Z.div_small by lia. lia. }
  rewrite (step_READ sw sl F f src Hst).
  destruct (Z.le_gt_cases (Z.of_nat (length src)) F) as [Hle|Hgt].
  - destruct (read_absorb sw sl F f src []) as [-> _]; [lia|exact I].
  - destruct (read_overflow sw sl F f src []) as [-> _]; [lia|].
    rewrite Hneed.
    set (g := correlated sw sl F (append_input f src F)).
    assert (wf F g) as Hg.
    { pose proof (wf_correlated sw sl F HF Hsl f src Hwf Hst ltac:(lia)) as Hg.
      rewrite Hneed in Hg. exact Hg. }
    pose proof (wf_need_deoffset F g Hg eq_refl) as Hnd.
    assert (length (skipn (Z.to_nat F) src) = (length src - Z.to_nat F)%nat)
      as Hskip by apply length_skipn.
    destruct (Z.le_gt_cases (Z.of_nat (length (skipn (Z.to_nat F) src)))
                            (need_deoffset F g)) as [Hle'|Hgt'].
    + destruct (deoffset_absorb F g (skipn (Z.to_nat F) src) []) as [-> _];
        [exact Hle'|exact I].
    + destruct (deoffset_overflow F g (skipn (Z.to_nat F) src) []) as [-> _];
        [lia|].
      unfold emit. rewrite !length_skipn. lia.
Qed.

Lemma loop_frames sw sl F n : forall f src out r,
  Forall (fun fr => length fr = Z.to_nat F) out ->
  loop sw sl F n f src out = Some r ->
  Forall (fun fr => length fr = Z.to_nat F) (snd r).
Proof.
  induction n as [|n IH]; intros f src out r Hout Hl; [discriminate|].
  rewrite loop_S in Hl. destruct src as [|x src].
  - inversion Hl; subst. exact Hout.
  - pose proof (step_frame_length sw sl F f (x :: src)) as Hs.
    destruct (step sw sl F f (x :: src)) as [f'|f' frame rest].
    + inversion Hl; subst. exact Hout.
    + apply (IH f' rest (out ++ [frame]) r); [|exact Hl].
      apply Forall_app. split; [exact Hout|]. constructor; [exact Hs|constructor].
Qed.

Lemma loop_count sw sl F n : forall f src out r,
  1 <= F -> 0 <= sl -> wf F f -> fresh f = true ->
  loop sw sl F n f src out = Some r ->
  exists k,
    length (snd r) = (length out + k)%nat /\
    (k = 0%nat \/ F * Z.of_nat k < Z.of_nat (length src)).
Proof.
  induction n as [|n IH]; intros f src out r HF Hsl Hwf Hfresh Hl; [discriminate|].
  rewrite loop_S in Hl. destruct src as [|x src].
  - inversion Hl; subst. exists 0%nat. cbn [snd]. split; [lia|left; reflexivity].
  - pose proof (step_consumes sw sl F f (x :: src) HF Hsl Hwf Hfresh) as Hc.
    pose proof (step_facts sw sl F HF Hsl f (x :: src) Hwf) as Hs.
    destruct (step sw sl F f (x :: src)) as [f'|f' frame rest].
    + inversion Hl; subst. exists 0%nat. cbn [snd]. split; [lia|left; reflexivity].
    + destruct Hs as (Hwf' & Hfresh' & _).
      destruct (IH f' rest (out ++ [frame]) r HF Hsl Hwf' Hfresh' Hl)
        as (k & Hk & Hb).
      exists (S k). rewrite length_app in Hk. cbn [length] in Hk.
      split; [lia|]. right. destruct Hb as [->|Hb]; lia.
Qed.

(** X9 -- the output of [run], over any number of calls on a framer fresh
    from [init]: every frame written has exactly [_frameLen] bytes, and the
    frames written take up fewer bytes than were put in (the bytes of [n]
    frames and one more must have arrived before the [n]-th is written). *)
Theorem feed_output_size (sw sl F : Z) (chunks : list (list byte)) :
  1 <= F -> 0 <= sl ->
  Forall (fun fr => length fr = Z.to_nat F) (snd (feed sw sl F init chunks)) /\
  (snd (feed sw sl F init chunks) = [] \/
   F * Z.of_nat (length (snd (feed sw sl F init chunks))) <
   Z.of_nat (length (concat chunks))).
Proof.
  intros HF Hsl.
  rewrite (feed_concat sw sl F HF Hsl chunks init (init_wf F HF)).
  pose proof (run_loop sw sl F HF Hsl init (concat chunks) (init_wf F HF)) as Hr.
  split.
  - apply (loop_frames sw sl F _ _ _ _ _ (Forall_nil _) Hr).
  - destruct (loop_count sw sl F _ _ _ _ _ HF Hsl (init_wf F HF) eq_refl Hr)
      as (k & Hk & Hb).
    cbn [length Nat.add] in Hk.
    destruct Hb as [->|Hb].
    + left. destruct (snd (run sw sl F init (concat chunks))); [reflexivity|discriminate].
    + right. rewrite Hk. exact Hb.
Qed.

Lemma feed_output_size_witness :
  Forall (fun fr => length fr = Z.to_nat 16)
         (snd (feed 0x086D53884469481F 8 16 init [sample_stream])) /\
  (snd (feed 0x086D53884469481F 8 16 init [sample_stream]) = [] \/
   16 * Z.of_nat (length (snd (feed 0x086D53884469481F 8 16 init [sample_stream]))) <
   Z.of_nat (length (concat [sample_stream]))).
Proof.
  apply (feed_output_size 0x086D53884469481F 8 16 [sample_stream]); lia.
Defined.

(** **** What is carried over to the next frame *)

(** X10 -- the end of [case DEOFFSET], for a sync offset [s] with
    [s + 8 <= 8*_frameLen]: the frame written is the [8*_frameLen] bits of
    the buffer from bit [s] on; the [s % 8] bits kept for the next frame are
    the bits [s .. s + s%8 - 1] of the frame just written (the second
    [bitcpy] reads the buffer after the first has shifted it), not the bits
    that follow the frame in the buffer. *)
Theorem emit_carries_frame_bits (F : Z) (f : framer) (rest : list byte) :
  1 <= F -> cursor_ok f -> 0 <= _syncOffset f ->
  _syncOffset f + 8 <= 8 * F ->
  _syncOffset f + 8 * F <= _dataOffset f ->
  exists frame,
    emit F f rest =
      Emit (mkFramer READ
              (firstn (Z.to_nat (_syncOffset f mod 8))
                      (skipn (Z.to_nat (_syncOffset f)) (bits_of_bytes frame)))
              (_syncOffset f mod 8) (_syncOffset f))
           frame rest /\
    bits_of_bytes frame =
      firstn (Z.to_nat (8 * F)) (skipn (Z.to_nat (_syncOffset f)) (_rawData f)).
Proof.
  intros HF Hc Hs Hs8 Hlen. unfold cursor_ok in Hc.
  pose proof (Z.mod_pos_bound (_syncOffset f) 8 ltac:(lia)) as Hm.
  set (s := Z.to_nat (_syncOffset f)) in *.
  set (raw := _rawData f) in *.
  set (raw1 := bitcpy raw (_syncOffset f) (8 * F)).
  assert (length raw1 = length raw) as Hl1
    by (subst raw1; apply length_bitcpy; lia).
  assert (firstn (Z.to_nat (8 * F)) raw1 =
          firstn (Z.to_nat (8 * F)) (skipn s raw)) as Hf1.
  { subst raw1. unfold bitcpy. fold s.
    rewrite firstn_app, length_firstn, length_skipn.
    replace (Init.Nat.min (Z.to_nat (8 * F)) (length raw - s))
      with (Z.to_nat (8 * F)) by lia.
    rewrite Nat.sub_diag. cbn [firstn]. rewrite app_nil_r.
    apply firstn_all2. rewrite length_firstn, length_skipn. lia. }
  assert (bits_of_bytes (bytes_of_bits (Z.to_nat F) raw1) =
          firstn (Z.to_nat (8 * F)) (skipn s raw)) as Hbits.
  { rewrite bits_of_bytes_of_bits by lia.
    replace (8 * Z.to_nat F)%nat with (Z.to_nat (8 * F)) by lia.
    exact Hf1. }
  exists (bytes_of_bits (Z.to_nat F) raw1). split; [|exact Hbits].
  unfold emit. fold raw raw1. f_equal. f_equal.
  rewrite Hbits, <- Hf1.
  unfold bitcpy at 1. fold s. change (Z.to_nat 8) with 8%nat.
  rewrite firstn_app, length_firstn, length_skipn.
  replace (Z.to_nat (_syncOffset f mod 8) - Init.Nat.min 8 (length raw1 - s))%nat
    with 0%nat by lia.
  rewrite firstn_O, app_nil_r.
  rewrite firstn_firstn.
  replace (Init.Nat.min (Z.to_nat (_syncOffset f mod 8)) 8)
    with (Z.to_nat (_syncOffset f mod 8)) by lia.
  rewrite skipn_firstn_comm, firstn_firstn.
  f_equal. lia.
Qed.

Lemma emit_carries_frame_bits_witness :
  exists frame,
    emit 2 (mkFramer DEOFFSET (bits_of_bytes [x0f; xf0; x55; xaa]) 32 5) [x2a] =
      Emit (mkFramer READ
              (firstn (Z.to_nat (5 mod 8))
                      (skipn (Z.to_nat 5) (bits_of_bytes frame)))
              (5 mod 8) 5)
           frame [x2a] /\
    bits_of_bytes frame =
      firstn (Z.to_nat (8 * 2))
             (skipn (Z.to_nat 5) (bits_of_bytes [x0f; xf0; x55; xaa])).
Proof.
  apply (emit_carries_frame_bits 2
           (mkFramer DEOFFSET (bits_of_bytes [x0f; xf0; x55; xaa]) 32 5) [x2a]).
  - lia.
  - reflexivity.
  - cbn. lia.
  - cbn. lia.
  - cbn. lia.
Defined.

(** **** The cursor stays inside [_rawData] *)

Lemma deoffset_sync F g src :
  match deoffset F g src with
  | Suspend f' => _state f' = _state g /\ _syncOffset f' = _syncOffset g
  | Emit f' _ _ => _state f' = READ
  end.
Proof.
  unfold deoffset, emit. destruct (_ <=? 0); cbn; auto.
Qed.

Lemma step_within sw sl F f src :
  1 <= F -> 0 <= sl -> within_buffer sl F f ->
  match step sw sl F f src with
  | Suspend f' => within_buffer sl F f'
  | Emit f' _ _ => within_buffer sl F f'
  end.
Proof.
  intros HF Hsl [Hwf Hoff].
  pose proof (step_facts sw sl F HF Hsl f src Hwf) as Hs.
  assert (match step sw sl F f src with
          | Suspend f' | Emit f' _ _ =>
              _state f' = DEOFFSET ->
              _syncOffset f' = 0 \/ _syncOffset f' + 8 * sl < 8 * F
          end) as Hb.
  { destruct (_state f) eqn:Hst.
    - rewrite (step_READ sw sl F f src Hst).
      pose proof (wf_need_read F f Hwf Hst) as Hneed.
      destruct (Z.le_gt_cases (Z.of_nat (length src)) (need_read F f)) as [Hle|Hgt].
      + destruct (read_absorb sw sl F f src [] Hle) as [-> _].
        unfold append_input. cbn [_state]. rewrite Hst. discriminate.
      + destruct (read_overflow sw sl F f src [] ltac:(lia)) as [-> _].
        set (g := correlated sw sl F (append_input f src (need_read F f))).
        pose proof (deoffset_sync F g (skipn (Z.to_nat (need_read F f)) src)) as Hd.
        destruct (deoffset F g _) as [f'|f' frame rest].
        * destruct Hd as [_ ->]. intros _. subst g. unfold correlated.
          cbn [_syncOffset].
          apply (proj2 (correlateU64_offset_tight sw sl _ F)).
        * rewrite Hd. discriminate.
    - rewrite (step_DEOFFSET sw sl F f src Hst).
      pose proof (deoffset_sync F f src) as Hd.
      destruct (deoffset F f src) as [f'|f' frame rest].
      + destruct Hd as [_ ->]. intros _. apply Hoff. reflexivity.
      + rewrite Hd. discriminate. }
  destruct (step sw sl F f src) as [f'|f' frame rest].
  - split; [exact Hs|exact Hb].
  - split; [apply Hs|exact Hb].
Qed.

Lemma loop_within sw sl F n : forall f src out f1 o1,
  1 <= F -> 0 <= sl -> within_buffer sl F f ->
  loop sw sl F n f src out = Some (f1, o1) -> within_buffer sl F f1.
Proof.
  induction n as [|n IH]; intros f src out f1 o1 HF Hsl Hin Hl; [discriminate|].
  rewrite loop_S in Hl. destruct src as [|x src].
  - inversion Hl; subst. exact Hin.
  - pose proof (step_within sw sl F f (x :: src) HF Hsl Hin) as Hs.
    destruct (step sw sl F f (x :: src)) as [f'|f' frame rest].
    + inversion Hl; subst. exact Hs.
    + apply (IH f' rest (out ++ [frame]) f1 o1 HF Hsl Hs Hl).
Qed.

Lemma feed_within sw sl F chunks :
  1 <= F -> 0 <= sl ->
  within_buffer sl F (fst (feed sw sl F init chunks)).
Proof.
  intros HF Hsl.
  rewrite (feed_concat sw sl F HF Hsl chunks init (init_wf F HF)).
  pose proof (run_loop sw sl F HF Hsl init (concat chunks) (init_wf F HF)) as Hr.
  destruct (run sw sl F init (concat chunks)) as [f1 o1]. cbn [fst].
  apply (loop_within sw sl F (length (concat chunks) + 2) init (concat chunks) []
           f1 o1 HF Hsl); [|exact Hr].
  split; [apply init_wf; exact HF|]. discriminate.
Qed.

Lemma append_read_bound F f src n :
  1 <= F -> wf F f -> _state f = READ -> 0 <= n <= need_read F f ->
  _dataOffset (append_input f src n) <= 8 * F + 7.
Proof.
  intros HF [_ Hwf] Hst Hn. rewrite Hst in Hwf.
  unfold append_input, need_read in *. cbn [_dataOffset].
  pose proof (Z.div_mod (_dataOffset f) 8 ltac:(lia)).
  pose proof (Z.mod_pos_bound (_dataOffset f) 8 ltac:(lia)).
  lia.
Qed.

Lemma append_deoffset_bound sl F f src n :
  1 <= F -> 1 <= sl -> within_buffer sl F f -> _state f = DEOFFSET ->
  0 <= n <= need_deoffset F f ->
  _dataOffset (append_input f src n) <= 16 * F.
Proof.
  intros HF Hsl [[Hs Hwf] Hoff] Hst Hn. rewrite Hst in Hwf.
  specialize (Hoff Hst).
  unfold append_input, need_deoffset in *. cbn [_dataOffset].
  pose proof (Z.div_mod (_dataOffset f - _syncOffset f) 8 ltac:(lia)).
  pose proof (Z.mod_pos_bound (_dataOffset f - _syncOffset f) 8 ltac:(lia)).
  lia.
Qed.

(** X11 -- with a sync word of at least one byte, [run] never moves the
    cursor past the [2*_frameLen] bytes of [_rawData].  In whatever state
    the calls so far have left the framer, the cursor after the bytes that
    [case READ] may take (at most [_frameLen - _dataOffset/8]) is at most
    [8*_frameLen + 7], and the cursor after the bytes that [case DEOFFSET]
    may take (at most [_frameLen - (_dataOffset-_syncOffset)/8]), entered
    from [case READ] or at the start of a call, is at most [16*_frameLen]. *)
Theorem run_stays_in_buffer (sw sl F : Z) (chunks : list (list byte))
    (src src' : list byte) (n n' : Z) :
  1 <= F -> 1 <= sl ->
  let f := fst (feed sw sl F init chunks) in
  (_state f = READ -> 0 <= n <= need_read F f ->
   _dataOffset (append_input f src n) <= 8 * F + 7 /\
   (n = need_read F f ->
    let g := correlated sw sl F (append_input f src n) in
    0 <= n' <= need_deoffset F g ->
    _dataOffset (append_input g src' n') <= 16 * F)) /\
  (_state f = DEOFFSET -> 0 <= n <= need_deoffset F f ->
   _dataOffset (append_input f src n) <= 16 * F).
Proof.
  intros HF Hsl f.
  pose proof (feed_within sw sl F chunks HF ltac:(lia)) as Hin. fold f in Hin.
  split.
  - intros Hst Hn. split.
    + apply append_read_bound; [exact HF|apply Hin|exact Hst|exact Hn].
    + intros -> g Hn'.
      apply (append_deoffset_bound sl); try assumption; [|reflexivity].
      split.
      * apply wf_correlated; [exact HF|lia|apply Hin|exact Hst|lia].
      * intros _. subst g. unfold correlated. cbn [_syncOffset].
        apply (proj2 (correlateU64_offset_tight sw sl _ F)).
  - intros Hst Hn. apply (append_deoffset_bound sl); assumption.
Qed.

Lemma run_stays_in_buffer_witness :
  _state (fst (feed 0x086D53884469481F 8 16 init [sync_at_37])) = READ /\
  _dataOffset
    (append_input (fst (feed 0x086D53884469481F 8 16 init [sync_at_37]))
                  [x2a] 0) <= 8 * 16 + 7.
Proof.
  split; [vm_compute; reflexivity|].
  apply (proj1
           (proj1 (run_stays_in_buffer 0x086D53884469481F 8 16 [sync_at_37]
                     [x2a] [] 0 0 ltac:(lia) ltac:(lia))
                  ltac:(vm_compute; reflexivity)
                  ltac:(vm_compute; split; discriminate))).
Defined.

(** *** [run] on an inverted stream *)

Lemma byte_bits_invert b : byte_bits (invert_byte b) = map negb (byte_bits b).
Proof. destruct b; reflexivity. Qed.

Lemma bits_byte_invert (l : list bool) :
  length l = 8%nat -> bits_byte (map negb l) = invert_byte (bits_byte l).
Proof.
  intros Hl.
  do 8 (destruct l as [|? l]; [discriminate|]).
  destruct l; [|discriminate].
  repeat match goal with b : bool |- _ => destruct b end; reflexivity.
Qed.

Lemma bits_of_bytes_invert l :
  bits_of_bytes (invert_bytes l) = map negb (bits_of_bytes l).
Proof.
  induction l as [|b l IH]; [reflexivity|].
  cbn [invert_bytes map]. rewrite !bits_of_bytes_cons, map_app.
  rewrite byte_bits_invert. f_equal. exact IH.
Qed.

Lemma bytes_of_bits_invert n : forall bits,
  (8 * n <= length bits)%nat ->
  bytes_of_bits n (map negb bits) = invert_bytes (bytes_of_bits n bits).
Proof.
  induction n as [|n IH]; intros bits Hlen; [reflexivity|].
  cbn [bytes_of_bits invert_bytes map].
  rewrite firstn_map, skipn_map.
  rewrite bits_byte_invert by (rewrite length_firstn; lia).
  f_equal. apply IH. rewrite length_skipn. lia.
Qed.

Lemma length_invert_bytes l : length (invert_bytes l) = length l.
Proof. apply length_map. Qed.

Lemma bitcpy_invert raw offset bits :
  bitcpy (map negb raw) offset bits = map negb (bitcpy raw offset bits).
Proof.
  unfold bitcpy. rewrite map_app, !skipn_map, !firstn_map. reflexivity.
Qed.

(** **** The distances on an inverted buffer *)

Lemma frame_bit_byte_bits f n :
  frame_bit f n = nth (n mod 8) (byte_bits (nth (n / 8) f x00)) false.
Proof.
  unfold frame_bit, byte_bits.
  pose proof (Nat.mod_upper_bound n 8 ltac:(lia)) as Hm.
  destruct (n mod 8)%nat as [|[|[|[|[|[|[|[|r]]]]]]]]; try reflexivity; lia.
Qed.

Lemma frame_bit_invert f n :
  (n < 8 * length f)%nat ->
  frame_bit (invert_bytes f) n = negb (frame_bit f n).
Proof.
  intros Hn. rewrite !frame_bit_byte_bits.
  assert (n / 8 < length f)%nat as Hi
    by (apply Nat.Div0.div_lt_upper_bound; lia).
  pose proof (Nat.mod_upper_bound n 8 ltac:(lia)) as Hm.
  unfold invert_bytes.
  rewrite (nth_indep _ x00 (invert_byte x00)) by (rewrite length_map; exact Hi).
  rewrite map_nth, byte_bits_invert.
  change false with (negb true) at 1. rewrite map_nth. f_equal.
  apply nth_indep. cbn. exact Hm.
Qed.

Lemma bits_value_invert f p n :
  (p + n <= 8 * length f)%nat ->
  bits_value (invert_bytes f) p n = 2 ^ Z.of_nat n - 1 - bits_value f p n.
Proof.
  induction n as [|n IH]; intros Hn; [reflexivity|].
  rewrite !bits_value_snoc, IH by lia.
  rewrite frame_bit_invert by lia.
  rewrite Nat2Z.inj_succ, Z.pow_succ_r by lia.
  destruct (frame_bit f (p + n)); cbn [negb Z.b2z]; lia.
Qed.

Lemma testbit_complement z i :
  0 <= z < 2 ^ 64 -> 0 <= i < 64 ->
  Z.testbit (2 ^ 64 - 1 - z) i = negb (Z.testbit z i).
Proof.
  intros Hz Hi.
  assert (2 ^ 64 - 1 - z = Z.lnot z mod 2 ^ 64) as ->.
  { unfold Z.lnot. replace (Z.pred (- z)) with (2 ^ 64 - 1 - z + (-1) * 2 ^ 64) by lia.
    rewrite Z.mod_add by lia. symmetry. apply Z.mod_small. lia. }
  rewrite Z.mod_pow2_bits_low by lia. apply Z.lnot_spec. lia.
Qed.

Lemma filter_complement {A} (g : A -> bool) (l : list A) :
  (length (filter g l) + length (filter (fun x => negb (g x)) l) = length l)%nat.
Proof.
  induction l as [|x l IH]; [reflexivity|].
  cbn [filter]. destruct (g x); cbn [negb length]; lia.
Qed.

Lemma inverseCorrelateU64_complement x y :
  0 <= x < 2 ^ 64 -> 0 <= y < 2 ^ 64 ->
  inverseCorrelateU64 x (2 ^ 64 - 1 - y) = 64 - inverseCorrelateU64 x y.
Proof.
  intros Hx Hy.
  rewrite !inverseCorrelateU64_count by lia.
  unfold differing_bits.
  pose proof (filter_complement
                (fun i => xorb (Z.testbit x (Z.of_nat i)) (Z.testbit y (Z.of_nat i)))
                (seq 0 64)) as Hc.
  rewrite length_seq in Hc.
  rewrite (filter_ext_in
             (fun i => xorb (Z.testbit x (Z.of_nat i))
                            (Z.testbit (2 ^ 64 - 1 - y) (Z.of_nat i)))
             (fun i => negb (xorb (Z.testbit x (Z.of_nat i))
                                  (Z.testbit y (Z.of_nat i))))).
  - lia.
  - intros i Hi. apply in_seq in Hi.
    rewrite testbit_complement by lia.
    destruct (Z.testbit x (Z.of_nat i)), (Z.testbit y (Z.of_nat i)); reflexivity.
Qed.

Lemma distance_invert sw f p :
  0 <= sw < 2 ^ 64 -> (p + 64 <= 8 * length f)%nat ->
  distance sw (invert_bytes f) p = 64 - distance sw f p.
Proof.
  intros Hsw Hp. rewrite !distance_eq.
  rewrite (bits_value_invert f p 64 Hp).
  pose proof (bits_value64_range f p) as Hr.
  generalize dependent (bits_value f p 64). intros w Hr.
  change (2 ^ Z.of_nat 64) with (2 ^ 64).
  apply inverseCorrelateU64_complement; assumption.
Qed.

Lemma mismatch_invert sw f p :
  0 <= sw < 2 ^ 64 -> (p + 64 <= 8 * length f)%nat ->
  mismatch sw (invert_bytes f) p = mismatch sw f p.
Proof.
  intros Hsw Hp. rewrite !mismatch_eq, distance_invert by assumption.
  generalize (distance sw f p). intros d. lia.
Qed.

(** The offset found does not depend on the polarity of the buffer. *)
Lemma correlateU64_offset_invert sw f len :
  0 <= sw < 2 ^ 64 -> length f = Z.to_nat len -> 8 <= len ->
  fst (correlateU64 sw 8 (invert_bytes f) len) = fst (correlateU64 sw 8 f len).
Proof.
  intros Hsw Hlen H8.
  destruct (correlateU64_offset_spec sw f len Hsw Hlen H8)
    as (o & -> & Hrange & Hmin & Hfirst).
  destruct (correlateU64_offset_spec sw (invert_bytes f) len Hsw
              ltac:(rewrite length_invert_bytes; exact Hlen) H8)
    as (o' & -> & Hrange' & Hmin' & Hfirst').
  assert (forall p, (p < 8 * (Z.to_nat len - 8))%nat ->
                    mismatch sw (invert_bytes f) p = mismatch sw f p) as Hsame
    by (intros p Hp; apply mismatch_invert; [exact Hsw|lia]).
  f_equal.
  destruct (Nat.lt_trichotomy o' o) as [Hlt|[Heq|Hgt]]; [|exact Heq|].
  - exfalso.
    assert (o < 8 * (Z.to_nat len - 8))%nat as Ho by lia.
    specialize (Hfirst o' Hlt). specialize (Hmin' o Ho).
    rewrite !Hsame in Hmin' by lia. lia.
  - exfalso.
    assert (o' < 8 * (Z.to_nat len - 8))%nat as Ho by lia.
    specialize (Hfirst' o Hgt). specialize (Hmin o' Ho).
    rewrite !Hsame in Hfirst' by lia. lia.
Qed.

(** **** One pass through the switch, and the loop *)

Section Inverted.

Variable sw : Z.
Variable F : Z.
Hypothesis sw_range : 0 <= sw < 2 ^ 64.
Hypothesis F_min : 8 <= F.

Lemma append_input_invert f src n :
  append_input (invert_state f) (invert_bytes src) n =
  invert_state (append_input f src n).
Proof.
  unfold append_input, invert_state.
  cbn [_state _rawData _dataOffset _syncOffset].
  unfold invert_bytes at 1. rewrite firstn_map.
  fold (invert_bytes (firstn (Z.to_nat n) src)).
  rewrite bits_of_bytes_invert, map_app. reflexivity.
Qed.

Lemma correlated_invert f :
  cursor_ok f -> 8 * F <= _dataOffset f ->
  correlated sw 8 F (invert_state f) = invert_state (correlated sw 8 F f).
Proof.
  intros Hc Hd. unfold cursor_ok in Hc.
  unfold correlated, invert_state.
  cbn [_state _rawData _dataOffset _syncOffset].
  rewrite bytes_of_bits_invert by lia.
  rewrite correlateU64_offset_invert;
    [reflexivity|exact sw_range|apply length_bytes_of_bits|exact F_min].
Qed.

Lemma emit_invert f rest :
  cursor_ok f -> 0 <= _syncOffset f ->
  _syncOffset f + 8 * F <= _dataOffset f ->
  emit F (invert_state f) (invert_bytes rest) = invert_outcome (emit F f rest).
Proof.
  intros Hc Hs Hd. unfold cursor_ok in Hc.
  unfold emit, invert_outcome, invert_state.
  cbn [_state _rawData _dataOffset _syncOffset].
  rewrite !bitcpy_invert, firstn_map.
  rewrite bytes_of_bits_invert; [reflexivity|].
  rewrite length_bitcpy by lia. lia.
Qed.

Lemma skipn_invert n l :
  skipn n (invert_bytes l) = invert_bytes (skipn n l).
Proof. unfold invert_bytes. apply skipn_map. Qed.

Lemma deoffset_invert f src :
  wf F f -> cursor_ok f -> _state f = DEOFFSET ->
  deoffset F (invert_state f) (invert_bytes src) =
  invert_outcome (deoffset F f src).
Proof.
  intros Hwf Hc Hst.
  pose proof (wf_need_deoffset F f Hwf Hst) as Hneed.
  assert (need_deoffset F (invert_state f) = need_deoffset F f) as Hn by reflexivity.
  destruct (Z.le_gt_cases (Z.of_nat (length src)) (need_deoffset F f)) as [Hle|Hgt].
  - destruct (deoffset_absorb F f src [] Hle) as [-> _].
    destruct (deoffset_absorb F (invert_state f) (invert_bytes src) [])
      as [-> _]; [rewrite length_invert_bytes, Hn; exact Hle|].
    rewrite length_invert_bytes, append_input_invert. reflexivity.
  - destruct (deoffset_overflow F f src [] ltac:(lia)) as [-> _].
    destruct (deoffset_overflow F (invert_state f) (invert_bytes src) [])
      as [-> _]; [rewrite length_invert_bytes, Hn; lia|].
    rewrite Hn, append_input_invert, skipn_invert.
    apply emit_invert.
    + apply cursor_append; [exact Hc|lia].
    + apply Hwf.
    + unfold append_input, need_deoffset. cbn [_dataOffset _syncOffset].
      destruct Hwf as [Hs Hwf]. rewrite Hst in Hwf.
      pose proof (Z.div_mod (_dataOffset f - _syncOffset f) 8 ltac:(lia)).
      pose proof (Z.mod_pos_bound (_dataOffset f - _syncOffset f) 8 ltac:(lia)).
      lia.
Qed.

Lemma step_invert f src :
  wf F f -> cursor_ok f ->
  step sw 8 F (invert_state f) (invert_bytes src) =
  invert_outcome (step sw 8 F f src).
Proof.
  intros Hwf Hc. destruct (_state f) eqn:Hst.
  - rewrite (step_READ sw 8 F f src Hst).
    rewrite (step_READ sw 8 F (invert_state f) (invert_bytes src) Hst).
    pose proof (wf_need_read F f Hwf Hst) as Hneed.
    assert (need_read F (invert_state f) = need_read F f) as Hn by reflexivity.
    destruct (Z.le_gt_cases (Z.of_nat (length src)) (need_read F f)) as [Hle|Hgt].
    + destruct (read_absorb sw 8 F f src [] Hle) as [-> _].
      destruct (read_absorb sw 8 F (invert_state f) (invert_bytes src) [])
        as [-> _]; [rewrite length_invert_bytes, Hn; exact Hle|].
      rewrite length_invert_bytes, append_input_invert. reflexivity.
    + destruct (read_overflow sw 8 F f src [] ltac:(lia)) as [-> _].
      destruct (read_overflow sw 8 F (invert_state f) (invert_bytes src) [])
        as [-> _]; [rewrite length_invert_bytes, Hn; lia|].
      rewrite Hn, append_input_invert, skipn_invert.
      destruct (correlated_cursor sw 8 F f src Hwf Hc Hst Hgt)
        as [Hc' Hd'].
      rewrite correlated_invert; [|apply cursor_append; [exact Hc|lia]|exact Hd'].
      apply deoffset_invert; [|exact Hc'|reflexivity].
      apply wf_correlated; try assumption; lia.
  - rewrite (step_DEOFFSET sw 8 F f src Hst).
    rewrite (step_DEOFFSET sw 8 F (invert_state f) (invert_bytes src) Hst).
    apply deoffset_invert; assumption.
Qed.

Lemma loop_invert n : forall f src out,
  wf F f -> cursor_ok f ->
  loop sw 8 F n (invert_state f) (invert_bytes src) (map invert_bytes out) =
  option_map (fun r => (invert_state (fst r), map invert_bytes (snd r)))
             (loop sw 8 F n f src out).
Proof.
  induction n as [|n IH]; intros f src out Hwf Hc; [reflexivity|].
  rewrite !loop_S. destruct src as [|x src]; [reflexivity|].
  change (invert_bytes (x :: src)) with (invert_byte x :: invert_bytes src).
  change (invert_byte x :: invert_bytes src) with (invert_bytes (x :: src)).
  rewrite (step_invert f (x :: src) Hwf Hc).
  pose proof (step_facts sw 8 F ltac:(lia) ltac:(lia) f (x :: src) Hwf) as Hs.
  pose proof (step_cursor sw 8 F ltac:(lia) ltac:(lia) f (x :: src) Hwf Hc) as Hk.
  destruct (step sw 8 F f (x :: src)) as [f'|f' frame rest]; cbn [invert_outcome].
  - reflexivity.
  - rewrite <- (IH f' rest (out ++ [frame])) by (apply Hs || exact Hk).
    rewrite map_app. reflexivity.
Qed.

End Inverted.

(** X24 -- [run] does not use the inversion flag that [correlateU64] sets:
    with an eight-byte sync word, a stream with every bit inverted is cut at
    the same bit offsets as the stream itself, and the frames written for it
    are those of the stream with every bit inverted, the state and cursor
    the same and the buffered bits inverted.  An inverted transmission is
    synchronised, not corrected. *)
Theorem run_passes_inversion_through (sw F : Z) (src : list byte) :
  0 <= sw < 2 ^ 64 -> 8 <= F ->
  run sw 8 F init (invert_bytes src) =
  (invert_state (fst (run sw 8 F init src)),
   map invert_bytes (snd (run sw 8 F init src))).
Proof.
  intros Hsw HF.
  pose proof (run_loop sw 8 F ltac:(lia) ltac:(lia) init src
                (init_wf F ltac:(lia))) as Hr.
  pose proof (run_loop sw 8 F ltac:(lia) ltac:(lia) init (invert_bytes src)
                (init_wf F ltac:(lia))) as Hr'.
  pose proof (loop_invert sw F Hsw HF (length src + 2) init src []
                (init_wf F ltac:(lia)) eq_refl) as Hi.
  rewrite Hr in Hi. cbn [option_map map] in Hi.
  rewrite length_invert_bytes in Hr'.
  change (invert_state init) with init in Hi.
  rewrite Hr' in Hi. inversion Hi. reflexivity.
Qed.

Lemma run_passes_inversion_through_witness :
  run 0x086D53884469481F 8 16 init (invert_bytes sample_stream) =
  (invert_state (fst (run 0x086D53884469481F 8 16 init sample_stream)),
   map invert_bytes (snd (run 0x086D53884469481F 8 16 init sample_stream))).
Proof.
  apply (run_passes_inversion_through 0x086D53884469481F 16 sample_stream); lia.
Defined.

(** **** Where the first frame starts *)

Lemma bytes_of_bits_firstn n : forall bits,
  bytes_of_bits n (firstn (8 * n) bits) = bytes_of_bits n bits.
Proof.
  induction n as [|n IH]; intros bits; [reflexivity|].
  cbn [bytes_of_bits].
  replace (8 * S n)%nat with (8 + 8 * n)%nat by lia.
  rewrite firstn_firstn, Nat.min_l by lia.
  rewrite skipn_firstn_comm.
  replace (8 + 8 * n - 8)%nat with (8 * n)%nat by lia.
  rewrite IH. reflexivity.
Qed.

Lemma bytes_of_bits_prefix n b1 b2 :
  firstn (8 * n) b1 = firstn (8 * n) b2 ->
  bytes_of_bits n b1 = bytes_of_bits n b2.
Proof.
  intros E. rewrite <- (bytes_of_bits_firstn n b1), <- (bytes_of_bits_firstn n b2).
  rewrite E. reflexivity.
Qed.

Lemma firstn_app_long {A} n (a b c : list A) :
  (n <= length a)%nat -> firstn n (a ++ b) = firstn n (a ++ c).
Proof.
  intros Hn. rewrite !firstn_app.
  replace (n - length a)%nat with 0%nat by lia. reflexivity.
Qed.

Lemma step_first_frame sw sl F src :
  1 <= F -> 0 <= sl ->
  let s := fst (correlateU64 sw sl (firstn (Z.to_nat F) src) F) in
  F + (F - (8 * F - s) / 8) < Z.of_nat (length src) ->
  exists f' rest,
    step sw sl F init src =
    Emit f' (bytes_of_bits (Z.to_nat F) (skipn (Z.to_nat s) (bits_of_bytes src)))
         rest.
Proof.
  intros HF Hsl s Hlen.
  assert (need_read F init = F) as Hneed.
  { unfold need_read, init. cbn [_dataOffset]. rewrite Z.div_0_l by lia. lia. }
  pose proof (correlateU64_offset_range sw sl (firstn (Z.to_nat F) src) F) as Hs.
  fold s in Hs.
  assert (0 <= (8 * F - s) / 8 <= F) as Hq.
  { split; [apply Z.div_pos; lia|].
    apply Z.div_le_upper_bound; lia. }
  rewrite step_READ by reflexivity.
  destruct (read_overflow sw sl F init src []) as [-> _]; [rewrite Hneed; lia|].
  rewrite Hneed.
  assert (append_input init src F =
          mkFramer READ (bits_of_bytes (firstn (Z.to_nat F) src)) (8 * F) 0) as ->.
  { unfold append_input, init. cbn [_state _rawData _dataOffset _syncOffset app].
    reflexivity. }
  assert (correlated sw sl F
            (mkFramer READ (bits_of_bytes (firstn (Z.to_nat F) src)) (8 * F) 0) =
          mkFramer DEOFFSET (bits_of_bytes (firstn (Z.to_nat F) src)) (8 * F) s) as ->.
  { unfold correlated. cbn [_rawData _dataOffset].
    rewrite bytes_of_bits_exact by (rewrite length_firstn; lia).
    reflexivity. }
  set (g := mkFramer DEOFFSET (bits_of_bytes (firstn (Z.to_nat F) src)) (8 * F) s).
  assert (need_deoffset F g = F - (8 * F - s) / 8) as Hnd by reflexivity.
  destruct (deoffset_overflow F g (skipn (Z.to_nat F) src) []) as [-> _].
  { rewrite Hnd, length_skipn. lia. }
  rewrite Hnd. set (need := F - (8 * F - s) / 8) in *.
  unfold emit. do 2 eexists. f_equal.
  apply bytes_of_bits_prefix.
  unfold append_input, g. cbn [_rawData _syncOffset].
  rewrite <- bits_of_bytes_app.
  assert (firstn (Z.to_nat F) src ++ firstn (Z.to_nat need) (skipn (Z.to_nat F) src) =
          firstn (Z.to_nat (F + need)) src) as ->.
  { rewrite Z2Nat.inj_add by lia. symmetry. apply firstn_plus. }
  set (k := Z.to_nat (F + need)).
  assert (length (bits_of_bytes (firstn k src)) = (8 * k)%nat) as Hk.
  { rewrite length_bits_of_bytes, length_firstn. subst k. lia. }
  assert (Z.to_nat s + 8 * Z.to_nat F <= 8 * k)%nat as Hin.
  { subst k need.
    pose proof (Z.div_mod (8 * F - s) 8 ltac:(lia)).
    pose proof (Z.mod_pos_bound (8 * F - s) 8 ltac:(lia)).
    lia. }
  unfold bitcpy.
  replace (Z.to_nat (8 * F)) with (8 * Z.to_nat F)%nat by lia.
  rewrite firstn_app, firstn_firstn, Nat.min_id.
  rewrite length_firstn, length_skipn, Hk.
  replace (8 * Z.to_nat F - Init.Nat.min (8 * Z.to_nat F) (8 * k - Z.to_nat s))%nat
    with 0%nat by lia.
  rewrite firstn_O, app_nil_r.
  rewrite <- (firstn_skipn k src) at 2.
  rewrite bits_of_bytes_app, skipn_app, Hk.
  replace (Z.to_nat s - 8 * k)%nat with 0%nat by lia.
  cbn [skipn]. rewrite firstn_app, length_skipn, Hk.
  replace (8 * Z.to_nat F - (8 * k - Z.to_nat s))%nat with 0%nat by lia.
  rewrite firstn_O, app_nil_r. reflexivity.
Qed.

(** X25 -- the first frame that [run] writes is the [8*_frameLen] bits of
    the stream from the bit offset that [correlateU64] finds in its first
    [_frameLen] bytes; it is written as soon as the stream holds one byte
    more than [case READ] and [case DEOFFSET] take for it. *)
Theorem first_frame_starts_at_sync_offset (sw sl F : Z) (src : list byte) :
  1 <= F -> 0 <= sl ->
  F + (F - (8 * F - fst (correlateU64 sw sl (firstn (Z.to_nat F) src) F)) / 8)
    < Z.of_nat (length src) ->
  exists later,
    snd (run sw sl F init src) =
    bytes_of_bits (Z.to_nat F)
      (skipn (Z.to_nat (fst (correlateU64 sw sl (firstn (Z.to_nat F) src) F)))
             (bits_of_bytes src)) :: later.
Proof.
  intros HF Hsl Hlen.
  destruct (step_first_frame sw sl F src HF Hsl Hlen) as (f' & rest & Hstep).
  pose proof (run_loop sw sl F HF Hsl init src (init_wf F HF)) as Hr.
  replace (length src + 2)%nat with (S (length src + 1)) in Hr by lia.
  rewrite loop_S in Hr.
  assert (0 < Z.of_nat (length src)) as Hpos.
  { pose proof (correlateU64_offset_range sw sl (firstn (Z.to_nat F) src) F) as Hs.
    assert ((8 * F - fst (correlateU64 sw sl (firstn (Z.to_nat F) src) F)) / 8 <= F).
    { apply Z.div_le_upper_bound; lia. }
    lia. }
  destruct src as [|x src]; [cbn [length] in Hpos; lia|].
  rewrite Hstep, loop_out in Hr.
  destruct (loop sw sl F (length (x :: src) + 1) f' rest []) as [[f1 o1]|];
    [|discriminate].
  cbn [option_map fst snd app] in Hr. inversion Hr as [Hrun].
  exists o1. reflexivity.
Qed.

Lemma first_frame_starts_at_sync_offset_witness :
  exists later,
    snd (run 0x086D53884469481F 8 16 init sample_stream) =
    bytes_of_bits (Z.to_nat 16)
      (skipn (Z.to_nat
                (fst (correlateU64 0x086D53884469481F 8
                        (firstn (Z.to_nat 16) sample_stream) 16)))
             (bits_of_bytes sample_stream)) :: later.
Proof.
  apply (first_frame_starts_at_sync_offset 0x086D53884469481F 8 16 sample_stream).
  - lia.
  - lia.
  - vm_compute. reflexivity.
Defined.

End FramerFacts.

(** * Properties of the RS41 decoder *)

Module RS41Facts.
Import RS41.

(** *** Arrays *)

Lemma length_update a : forall n b, length (update a n b) = length a.
Proof.
  induction a as [|h t IH]; intros [|n] b; simpl; auto.
Qed.

Lemma nth_update a : forall n m b,
  nth m (update a n b) x00 =
  if (n =? m)%nat && (n <? length a)%nat then b else nth m a x00.
Proof.
  induction a as [|h t IH]; intros n m b.
  - destruct n, m; simpl; try reflexivity; now rewrite andb_false_r.
  - destruct n as [|n], m as [|m]; simpl; try reflexivity.
    rewrite IH. reflexivity.
Qed.

Lemma length_wr a i b : length (wr a i b) = length a.
Proof.
  unfold wr. destruct (i <? 0); [reflexivity|apply length_update].
Qed.

Lemma rd_wr a i j b :
  rd (wr a i b) j =
  if (i =? j) && (0 <=? i) && (i <? Z.of_nat (length a)) then b else rd a j.
Proof.
  unfold rd, wr.
  destruct (Z.ltb_spec i 0), (Z.ltb_spec j 0), (Z.eqb_spec i j),
    (Z.leb_spec 0 i), (Z.ltb_spec i (Z.of_nat (length a)));
    cbn [andb]; try reflexivity; try lia.
  - rewrite nth_update.
    destruct (Nat.eqb_spec (Z.to_nat i) (Z.to_nat j)); [|lia].
    destruct (Nat.ltb_spec (Z.to_nat i) (length a)); [reflexivity|lia].
  - rewrite nth_update.
    destruct (Nat.eqb_spec (Z.to_nat i) (Z.to_nat j)); [|lia].
    destruct (Nat.ltb_spec (Z.to_nat i) (length a)); [lia|reflexivity].
  - rewrite nth_update.
    destruct (Nat.eqb_spec (Z.to_nat i) (Z.to_nat j)); [lia|reflexivity].
  - rewrite nth_update.
    destruct (Nat.eqb_spec (Z.to_nat i) (Z.to_nat j)); [lia|reflexivity].
Qed.

Lemma rd_wr_same a i b :
  0 <= i < Z.of_nat (length a) -> rd (wr a i b) i = b.
Proof.
  intros Hi. rewrite rd_wr, Z.eqb_refl.
  destruct (Z.leb_spec 0 i), (Z.ltb_spec i (Z.of_nat (length a)));
    try lia; reflexivity.
Qed.

Lemma rd_wr_other a i j b : i <> j -> rd (wr a i b) j = rd a j.
Proof.
  intros Hij. rewrite rd_wr.
  destruct (Z.eqb_spec i j); [contradiction|reflexivity].
Qed.

Lemma rd_repeat b n i :
  0 <= i < Z.of_nat n -> rd (repeat b n) i = b.
Proof.
  intros Hi. unfold rd. destruct (Z.ltb_spec i 0); [lia|].
  apply nth_repeat_lt. lia.
Qed.

(** *** Bytes *)

Lemma u8_to_u8 z : u8 (to_u8 z) = z mod 256.
Proof.
  unfold u8, to_u8.
  pose proof (Z.mod_pos_bound z 256 ltac:(lia)) as Hm.
  destruct (Byte.of_N (Z.to_N (z mod 256))) as [b|] eqn:E.
  - apply Byte.to_of_N in E. rewrite E. lia.
  - apply Byte.of_N_None_iff in E. lia.
Qed.

Lemma testbit_u8_to_u8 z j :
  0 <= j < 8 -> Z.testbit (u8 (to_u8 z)) j = Z.testbit z j.
Proof.
  intros Hj. rewrite u8_to_u8. change 256 with (2 ^ 8).
  apply Z.mod_pow2_bits_low. lia.
Qed.

Lemma testbit_clear x k j :
  0 <= k -> 0 <= j ->
  Z.testbit (Z.land x (Z.lnot (Z.shiftl 1 k))) j =
  Z.testbit x j && negb (k =? j).
Proof.
  intros Hk Hj.
  rewrite Z.land_spec, Z.lnot_spec, Z.shiftl_1_l, Z.pow2_bits_eqb by lia.
  reflexivity.
Qed.

Lemma u8_nonzero_bit b j : Z.testbit (u8 b) j = true -> u8 b <> 0.
Proof.
  intros Hb E. rewrite E, Z.bits_0 in Hb. discriminate.
Qed.

(** *** The calibration bitmap *)

Section Calibration.

Variable H : rs41_h.
Hypothesis count_nonneg : 0 <= RS41_CALIB_FRAGCOUNT H.
Hypothesis bitmap_size :
  sizeof_calibDataBitmap H = RS41_CALIB_FRAGCOUNT H / 8 + 1.

Let last := sizeof_calibDataBitmap H - 1.

Lemma stuck_bit_range :
  0 <= RS41_CALIB_FRAGCOUNT H mod 8 <= stuck_bit H /\ stuck_bit H < 8.
Proof.
  unfold stuck_bit.
  pose proof (Z.mod_pos_bound (RS41_CALIB_FRAGCOUNT H) 8 ltac:(lia)).
  destruct (Z.eqb_spec (RS41_CALIB_FRAGCOUNT H mod 8) 0); lia.
Qed.

Lemma length_init_bitmap :
  Z.of_nat (length (init_bitmap H)) = sizeof_calibDataBitmap H.
Proof.
  unfold init_bitmap. rewrite length_wr, repeat_length.
  pose proof (Z.div_pos (RS41_CALIB_FRAGCOUNT H) 8 count_nonneg ltac:(lia)).
  lia.
Qed.

(** After [init] a bit of the last byte that belongs to no declared
    fragment is still set. *)
Lemma init_bitmap_stuck :
  Z.testbit (u8 (rd (init_bitmap H) last)) (stuck_bit H) = true.
Proof.
  pose proof (Z.div_pos (RS41_CALIB_FRAGCOUNT H) 8 count_nonneg ltac:(lia)) as Hd.
  unfold init_bitmap. fold last.
  rewrite rd_wr_same by (rewrite repeat_length; unfold last; lia).
  rewrite rd_repeat by (unfold last; lia).
  rewrite testbit_u8_to_u8 by (pose proof stuck_bit_range; lia).
  unfold init_last_mask, stuck_bit.
  pose proof (Z.mod_pos_bound (RS41_CALIB_FRAGCOUNT H) 8 ltac:(lia)) as Hm.
  assert (RS41_CALIB_FRAGCOUNT H mod 8 = 0 \/ RS41_CALIB_FRAGCOUNT H mod 8 = 1 \/
          RS41_CALIB_FRAGCOUNT H mod 8 = 2 \/ RS41_CALIB_FRAGCOUNT H mod 8 = 3 \/
          RS41_CALIB_FRAGCOUNT H mod 8 = 4 \/ RS41_CALIB_FRAGCOUNT H mod 8 = 5 \/
          RS41_CALIB_FRAGCOUNT H mod 8 = 6 \/ RS41_CALIB_FRAGCOUNT H mod 8 = 7)
    as Hc by lia.
  repeat (destruct Hc as [Hc|Hc]); rewrite Hc; reflexivity.
Qed.

Lemma forallb_zero_rd (a : list byte) i :
  0 <= i < Z.of_nat (length a) -> u8 (rd a i) <> 0 ->
  forallb (fun b => u8 b =? 0) a = false.
Proof.
  intros Hi Hne.
  destruct (forallb (fun b => u8 b =? 0) a) eqn:E; [|reflexivity].
  rewrite forallb_forall in E.
  assert (In (rd a i) a) as Hin.
  { unfold rd. destruct (Z.ltb_spec i 0); [lia|]. apply nth_In. lia. }
  apply E in Hin. apply Z.eqb_eq in Hin. contradiction.
Qed.

Lemma apply_fragment_stuck d frag_seq frag_data :
  0 <= frag_seq < RS41_CALIB_FRAGCOUNT H ->
  stuck H d -> stuck H (apply_fragment H d frag_seq frag_data).
Proof.
  intros Hf (Hlen & Hbit & Hcal). fold last in Hbit.
  pose proof stuck_bit_range as Hs.
  pose proof (Z.div_pos (RS41_CALIB_FRAGCOUNT H) 8 count_nonneg ltac:(lia)) as Hd.
  pose proof (Z.mod_pos_bound frag_seq 8 ltac:(lia)) as Hm.
  assert (Z.testbit
            (u8 (rd (wr (_calibDataBitmap d) (frag_seq / 8)
                        (to_u8 (Z.land (u8 (rd (_calibDataBitmap d) (frag_seq / 8)))
                                       (Z.lnot (Z.shiftl 1 (frag_seq mod 8))))))
                    last))
            (stuck_bit H) = true) as Hbit'.
  { rewrite rd_wr.
    destruct (Z.eqb_spec (frag_seq / 8) last) as [E|E]; cbn [andb];
      [|exact Hbit].
    destruct ((0 <=? frag_seq / 8) && (frag_seq / 8 <? Z.of_nat (length (_calibDataBitmap d))));
      [|exact Hbit].
    rewrite testbit_u8_to_u8, testbit_clear by lia.
    rewrite E, Hbit.
    destruct (Z.eqb_spec (frag_seq mod 8) (stuck_bit H)) as [E'|E']; [|reflexivity].
    exfalso. unfold last in *.
    pose proof (Z.div_mod frag_seq 8 ltac:(lia)).
    pose proof (Z.div_mod (RS41_CALIB_FRAGCOUNT H) 8 ltac:(lia)).
    lia. }
  unfold stuck, apply_fragment. cbn [_calibDataBitmap _calibrated]. fold last.
  rewrite length_wr. split; [exact Hlen|]. split; [exact Hbit'|].
  rewrite (forallb_zero_rd _ last); [exact Hcal| |].
  - rewrite length_wr. unfold last. lia.
  - apply (u8_nonzero_bit _ (stuck_bit H)). exact Hbit'.
Qed.

Lemma init_stuck : stuck H (init H).
Proof.
  unfold stuck, init. cbn [_calibDataBitmap _calibrated]. fold last.
  split; [apply length_init_bitmap|]. split; [apply init_bitmap_stuck|reflexivity].
Qed.

(** Whatever declared fragments arrive after [init], in whatever order and
    however often, the decoder never becomes calibrated. *)
Lemma declared_fragments_never_complete frags :
  Forall (fun f => 0 <= fst f < RS41_CALIB_FRAGCOUNT H) frags ->
  _calibrated (apply_fragments H (init H) frags) = false.
Proof.
  intros Hall.
  assert (stuck H (apply_fragments H (init H) frags)) as (_ & _ & Hc);
    [|exact Hc].
  unfold apply_fragments.
  generalize init_stuck. generalize (init H).
  induction Hall as [|f frags Hf Hall IH]; intros d Hd.
  - exact Hd.
  - cbn [fold_left]. apply IH. apply apply_fragment_stuck; assumption.
Qed.

End Calibration.

(** C5, the code at a failing input: with 51 declared fragments and a
    bitmap of 7 bytes, [init] leaves the last byte at [0xEE] (slot 48
    cleared; slots 51, 53, 54 and 55, which no fragment fills, set), and after
    all 51 fragments have been applied the byte is [0xE8] and [_calibrated]
    is still false. *)
Theorem calibration_never_completes :
  map u8 (init_bitmap vaisala) = [255; 255; 255; 255; 255; 255; 0xEE] /\
  map u8 (_calibDataBitmap (apply_fragments vaisala (init vaisala) all_fragments))
    = [0; 0; 0; 0; 0; 0; 0xE8] /\
  _calibrated (apply_fragments vaisala (init vaisala) all_fragments) = false /\
  ub (apply_fragments vaisala (init vaisala) all_fragments) = false.
Proof. repeat split; vm_compute; reflexivity. Qed.

(** No index is checked: a fragment whose sixteen bytes do not fit into
    [_calibData] is copied all the same, to a place outside the array. *)
Lemma apply_fragment_unchecked (H : rs41_h) (d : decoder) (frag_seq : Z)
    (frag_data : list byte) :
  0 < RS41_CALIB_FRAGSIZE H ->
  Z.of_nat (length (_calibData d)) =
    RS41_CALIB_FRAGCOUNT H * RS41_CALIB_FRAGSIZE H ->
  RS41_CALIB_FRAGCOUNT H <= frag_seq ->
  ub (apply_fragment H d frag_seq frag_data) = true.
Proof.
  intros Hsize Hlen Hout. unfold apply_fragment. cbn [ub].
  destruct (Z.leb_spec (frag_seq * RS41_CALIB_FRAGSIZE H + RS41_CALIB_FRAGSIZE H)
                       (Z.of_nat (length (_calibData d)))); [nia|].
  cbn [negb]. rewrite orb_true_r. reflexivity.
Qed.

(** C7, the code at a failing input: the frame [scramble stray_frame]
    carries one checksum-valid status sub-record whose fragment index is 51,
    one past the declared indices 0 .. 50.  [run] hands it to
    [updateSondeData] and so to [updateCalibData], which checks no bound:
    the [memcpy] of the sixteen bytes is aimed at offset [51 * 16 = 816] of
    the 816-byte [_calibData], a store outside the array, where the claim
    has the fragment ignored. *)
Theorem out_of_range_fragment_is_stored :
  let frame := decoded vaisala engine_pass false (scramble stray_frame) in
  accepted vaisala frame = [0] /\
  subframe_type vaisala frame 0 = RS41_SFTYPE_INFO vaisala /\
  status_inside vaisala frame 0 = true /\
  u8 (data_at vaisala frame (0 + offsetof_frag_seq vaisala)) = 51 /\
  RS41_CALIB_FRAGCOUNT vaisala <= 51 /\
  51 * RS41_CALIB_FRAGSIZE vaisala =
    Z.of_nat (length (_calibData (init vaisala))) /\
  ub (init vaisala) = false /\
  ub (fst (fst (run [] raw_fix vaisala engine_pass false (init vaisala)
                    [scramble stray_frame]))) = true.
Proof.
  cbv zeta.
  split; [vm_compute; reflexivity|].
  split; [vm_compute; reflexivity|].
  split; [vm_compute; reflexivity|].
  split; [vm_compute; reflexivity|].
  split; [vm_compute; discriminate|].
  split; [vm_compute; reflexivity|].
  split; vm_compute; reflexivity.
Qed.

Section Walk.

Variable gps_fix : Type.
Variable gps_solution : list byte -> gps_fix.
Variable H : rs41_h.

Lemma subframe_len_range frame sub : 0 <= subframe_len H frame sub < 256.
Proof. apply FramerFacts.u8_range. Qed.

Lemma crcCheck_checksum_ok frame sub :
  crcCheck H frame sub = true <-> checksum_ok H frame sub.
Proof.
  unfold crcCheck, checksum_ok, CCITT_FALSE_POLY, CCITT_FALSE_INIT.
  set (lo := u8 (data_at H frame (sub + 2 + subframe_len H frame sub))).
  set (hi := u8 (data_at H frame (sub + 2 + subframe_len H frame sub + 1))).
  assert (0 <= lo < 256) as Hlo by apply FramerFacts.u8_range.
  assert (0 <= hi < 256) as Hhi by apply FramerFacts.u8_range.
  rewrite Z.lor_comm, FramerFacts.lor_shiftl_add by lia.
  change 0xFFFF with (Z.ones 16). rewrite Z.land_ones by lia.
  change (2 ^ 8) with 256. change (2 ^ 16) with 65536.
  rewrite Z.mod_small by lia.
  rewrite Z.eqb_eq. split; intros E; rewrite E; lia.
Qed.

(** Every round that stays in the loop has moved the offset forward by the
    declared length plus 4. *)
Lemma walk_step_advance frame offset ds offset' ds' :
  walk_step gps_solution H frame offset ds = inl (offset', ds') ->
  offset' = offset + subframe_len H frame offset + 4 /\
  offset + 4 <= offset' /\ offset < bytesLeft H frame /\
  offset' <= bytesLeft H frame.
Proof.
  unfold walk_step. pose proof (subframe_len_range frame offset) as Hl.
  destruct (Z.ltb_spec offset (bytesLeft H frame)); [|discriminate].
  destruct (Z.gtb_spec (offset + subframe_len H frame offset + 4) (bytesLeft H frame));
    [discriminate|].
  destruct (negb (crcCheck H frame offset)); intros E; inversion E; subst; lia.
Qed.

Lemma walk_S fuel frame offset ds :
  walk gps_solution H (S fuel) frame offset ds =
  match walk_step gps_solution H frame offset ds with
  | inl (offset', ds') => walk gps_solution H fuel frame offset' ds'
  | inr ds' => Some ds'
  end.
Proof. reflexivity. Qed.

Lemma accepted_from_S fuel frame offset :
  accepted_from H (S fuel) frame offset =
  if offset <? bytesLeft H frame then
    if offset + subframe_len H frame offset + 4 >? bytesLeft H frame then []
    else if negb (crcCheck H frame offset)
         then accepted_from H fuel frame (offset + subframe_len H frame offset + 4)
         else offset :: accepted_from H fuel frame (offset + subframe_len H frame offset + 4)
  else [].
Proof. reflexivity. Qed.

Lemma walk_enough n : forall frame offset ds,
  bytesLeft H frame - offset <= 4 * Z.of_nat n ->
  spec_walk H frame (bytesLeft H frame) offset
            (accepted_from H (S n) frame offset) /\
  walk gps_solution H (S n) frame offset ds =
  Some (fold_left (fun ds sub => updateSondeData gps_solution H ds frame sub)
                  (accepted_from H (S n) frame offset) ds).
Proof.
  induction n as [|n IH]; intros frame offset ds Hn;
    pose proof (subframe_len_range frame offset) as Hl.
  - rewrite walk_S, accepted_from_S. unfold walk_step.
    destruct (Z.ltb_spec offset (bytesLeft H frame)); [lia|].
    split; [apply walk_region_end; lia|reflexivity].
  - rewrite walk_S, accepted_from_S. unfold walk_step.
    destruct (Z.ltb_spec offset (bytesLeft H frame)) as [Hlt|Hge].
    2:{ split; [apply walk_region_end; lia|reflexivity]. }
    destruct (Z.gtb_spec (offset + subframe_len H frame offset + 4)
                         (bytesLeft H frame)) as [Hgt|Hle].
    { split; [apply walk_partial_record; lia|reflexivity]. }
    destruct (crcCheck H frame offset) eqn:Hcrc; cbn [negb].
    + destruct (IH frame (offset + subframe_len H frame offset + 4)
                  (updateSondeData gps_solution H ds frame offset))
        as (Hspec & Hwalk); [lia|].
      split.
      * apply walk_record; try assumption; try lia.
        apply crcCheck_checksum_ok. exact Hcrc.
      * rewrite Hwalk. reflexivity.
    + destruct (IH frame (offset + subframe_len H frame offset + 4) ds)
        as (Hspec & Hwalk); [lia|].
      split.
      * apply walk_skip_record; try assumption; try lia.
        intros Hok. apply crcCheck_checksum_ok in Hok. congruence.
      * exact Hwalk.
Qed.

Lemma walk_more_fuel n : forall m frame offset ds r,
  walk gps_solution H n frame offset ds = Some r ->
  walk gps_solution H (n + m) frame offset ds = Some r.
Proof.
  induction n as [|n IH]; intros m frame offset ds r Hw.
  - discriminate.
  - cbn [Nat.add]. rewrite walk_S in *.
    destruct (walk_step gps_solution H frame offset ds) as [[o' ds']|ds'].
    + apply IH. exact Hw.
    + exact Hw.
Qed.

Lemma walk_fuel_enough frame :
  bytesLeft H frame - 0 <= 4 * Z.of_nat (Z.to_nat (bytesLeft H frame / 4) + 1).
Proof.
  destruct (Z.le_gt_cases 0 (bytesLeft H frame)) as [Hpos|Hneg].
  - pose proof (Z.div_pos (bytesLeft H frame) 4 Hpos ltac:(lia)).
    pose proof (Z.mod_pos_bound (bytesLeft H frame) 4 ltac:(lia)).
    pose proof (Z.div_mod (bytesLeft H frame) 4 ltac:(lia)).
    lia.
  - lia.
Qed.

(** With the fuel that [decode_frame] gives it, the walk hands the accepted
    sub-records to [updateSondeData] in order. *)
Lemma decode_frame_accepted with_rs rs_decode frame ds :
  decode_frame gps_solution H rs_decode with_rs ds frame =
  fold_left (fun ds sub =>
               updateSondeData gps_solution H ds (decoded H rs_decode with_rs frame) sub)
            (accepted H (decoded H rs_decode with_rs frame)) ds.
Proof.
  set (dec := decoded H rs_decode with_rs frame).
  destruct (walk_enough (Z.to_nat (bytesLeft H dec / 4) + 1) dec 0 ds
              (walk_fuel_enough dec)) as (_ & Hw).
  assert (walk_fuel H dec = S (Z.to_nat (bytesLeft H dec / 4) + 1)) as Hfuel
    by (unfold walk_fuel; lia).
  unfold accepted, decode_frame. fold dec. rewrite Hfuel, Hw. reflexivity.
Qed.

(** C10 -- the sub-record walk terminates on every frame content: a round
    that stays in the loop has advanced the offset by the declared payload
    length plus 4, hence by at least 4, and the walk from offset 0 returns a
    result within [bytesLeft / 4 + 2] rounds. *)
Theorem walk_terminates (frame : list byte) (ds : decoder * SondeData gps_fix) :
  (forall offset ds0 offset' ds',
     walk_step gps_solution H frame offset ds0 = inl (offset', ds') ->
     offset' = offset + subframe_len H frame offset + 4 /\
     offset + 4 <= offset') /\
  exists r,
    forall fuel, (walk_fuel H frame <= fuel)%nat ->
    walk gps_solution H fuel frame 0 ds = Some r.
Proof.
  split.
  - intros offset ds0 offset' ds' E.
    apply walk_step_advance in E. tauto.
  - destruct (walk_enough (Z.to_nat (bytesLeft H frame / 4) + 1) frame 0 ds
                (walk_fuel_enough frame)) as (_ & Hw).
    eexists. intros fuel Hfuel.
    replace fuel with
      (S (Z.to_nat (bytesLeft H frame / 4) + 1) +
       (fuel - S (Z.to_nat (bytesLeft H frame / 4) + 1)))%nat
      by (unfold walk_fuel in Hfuel; lia).
    apply walk_more_fuel. exact Hw.
Qed.


End Walk.

Section Run.

Variable gps_fix : Type.
Variable no_fix : gps_fix.
Variable gps_solution : list byte -> gps_fix.
Variable H : rs41_h.

(** **** The result of the error correction does not reach [run] *)





Lemma run_frame_records with_rs e frames : forall d info out,
  fold_left (run_frame gps_solution H e with_rs) frames (d, info, out) =
  (fst (fold_left (fun ds f => decode_frame gps_solution H e with_rs ds f)
                  frames (d, info)),
   snd (fold_left (fun ds f => decode_frame gps_solution H e with_rs ds f)
                  frames (d, info)),
   out ++ records_from gps_solution H e with_rs (d, info) frames).
Proof.
  induction frames as [|f frames IH]; intros d info out.
  - cbn [fold_left records_from fst snd]. rewrite app_nil_r. reflexivity.
  - cbn [fold_left records_from]. unfold run_frame at 2.
    destruct (decode_frame gps_solution H e with_rs (d, info) f) as [d' info'] eqn:E.
    rewrite IH. cbn [snd]. rewrite <- app_assoc. reflexivity.
Qed.






(** **** The serial of a status sub-record *)







End Run.





(** **** Loops that store one element per round *)

Lemma store_loop (g : Z -> Z) (v : Z -> byte) (n : nat) : forall a,
  (forall i, 0 <= i < Z.of_nat n -> 0 <= g i < Z.of_nat (length a)) ->
  (forall i i', 0 <= i < i' -> i' < Z.of_nat n -> g i <> g i') ->
  let a' := fold_left (fun s i => wr s (g (Z.of_nat i)) (v (Z.of_nat i)))
                      (seq 0 n) a in
  length a' = length a /\
  (forall i, 0 <= i < Z.of_nat n -> rd a' (g i) = v i) /\
  (forall j, (forall i, 0 <= i < Z.of_nat n -> g i <> j) -> rd a' j = rd a j).
Proof.
  induction n as [|n IH]; intros a Hin Hinj.
  - cbn. split; [reflexivity|]. split; [intros; lia|reflexivity].
  - rewrite seq_S, Nat.add_0_l. cbv zeta. rewrite fold_left_app. cbn [fold_left].
    destruct (IH a) as (Hlen & Hget & Hother).
    { intros i Hi. apply Hin. lia. }
    { intros i i' Hi Hi'. apply Hinj; lia. }
    cbv zeta in Hlen, Hget, Hother.
    set (a1 := fold_left (fun s i => wr s (g (Z.of_nat i)) (v (Z.of_nat i)))
                         (seq 0 n) a) in *.
    split; [rewrite length_wr; exact Hlen|]. split.
    + intros i Hi. destruct (Z.eq_dec i (Z.of_nat n)) as [->|Hne].
      * apply rd_wr_same. rewrite Hlen. apply Hin. lia.
      * rewrite rd_wr_other by (apply not_eq_sym, Hinj; lia).
        apply Hget. lia.
    + intros j Hj. rewrite rd_wr_other by (apply Hj; lia).
      apply Hother. intros i Hi. apply Hj. lia.
Qed.

Lemma for_loop_store (g : Z -> Z) (v : Z -> byte) (n : Z) (a : list byte) :
  (forall i, 0 <= i < n -> 0 <= g i < Z.of_nat (length a)) ->
  (forall i i', 0 <= i < i' -> i' < n -> g i <> g i') ->
  let a' := for_loop n (fun i s => wr s (g i) (v i)) a in
  length a' = length a /\
  (forall i, 0 <= i < n -> rd a' (g i) = v i) /\
  (forall j, (forall i, 0 <= i < n -> g i <> j) -> rd a' j = rd a j).
Proof.
  intros Hin Hinj. unfold for_loop.
  destruct (store_loop g v (Z.to_nat n) a) as (H1 & H2 & H3).
  - intros i Hi. apply Hin. lia.
  - intros i i' Hi Hi'. apply Hinj; lia.
  - cbv zeta in *. split; [exact H1|]. split.
    + intros i Hi. apply H2. lia.
    + intros j Hj. apply H3. intros i Hi. apply Hj. lia.
Qed.

Section Interleave.

Variable H : rs41_h.

Lemma overwrite_length (dst src : list byte) :
  length (overwrite dst src) = length dst.
Proof.
  unfold overwrite. rewrite length_firstn, length_app, length_skipn. lia.
Qed.

Lemma deinterleave_spec frame chunk block blk :
  well_laid H frame chunk ->
  Z.of_nat (length blk) = RS41_REEDSOLOMON_N H ->
  let cw := deinterleave H frame chunk block blk in
  length cw = length blk /\
  (forall i, 0 <= i < chunk ->
     rd cw i = data_at H frame (RS41_REEDSOLOMON_INTERLEAVING H * i + block - 1)) /\
  (forall i, 0 <= i < RS41_REEDSOLOMON_T H ->
     rd cw (RS41_REEDSOLOMON_K H + i) =
     rd frame (offsetof_rs_checksum H + (i + RS41_REEDSOLOMON_T H * block))) /\
  (forall i, chunk <= i < RS41_REEDSOLOMON_K H -> rd cw i = rd blk i).
Proof.
  intros (HI & HT & Hchunk & HN & Hrs & Hpar & Hdata) Hlen cw.
  subst cw. unfold deinterleave.
  destruct (for_loop_store (fun i => i)
              (fun i => data_at H frame (RS41_REEDSOLOMON_INTERLEAVING H * i + block - 1))
              chunk blk) as (L1 & G1 & O1); [intros; lia|intros; lia|].
  cbv zeta in L1, G1, O1.
  set (blk1 := for_loop chunk _ blk) in *.
  destruct (for_loop_store (fun i => RS41_REEDSOLOMON_K H + i)
              (fun i => rd frame (offsetof_rs_checksum H + (i + RS41_REEDSOLOMON_T H * block)))
              (RS41_REEDSOLOMON_T H) blk1) as (L2 & G2 & O2);
    [intros; lia|intros; lia|].
  cbv zeta in L2, G2, O2.
  split; [congruence|]. split; [|split].
  - intros i Hi. rewrite O2 by (intros; lia). apply G1. exact Hi.
  - exact G2.
  - intros i Hi. rewrite O2 by (intros; lia). apply O1. intros; lia.
Qed.

Lemma reinterleave_spec frame chunk block blk :
  well_laid H frame chunk ->
  0 <= block < RS41_REEDSOLOMON_INTERLEAVING H ->
  let frame' := reinterleave H frame chunk block blk in
  length frame' = length frame /\
  (forall i, 0 <= i < chunk ->
     data_at H frame' (RS41_REEDSOLOMON_INTERLEAVING H * i + block - 1) = rd blk i) /\
  (forall i, 0 <= i < RS41_REEDSOLOMON_T H ->
     rd frame' (offsetof_rs_checksum H + (i + RS41_REEDSOLOMON_T H * block)) =
     rd blk (RS41_REEDSOLOMON_K H + i)) /\
  (forall j,
     (forall i, 0 <= i < chunk ->
        offsetof_data H + (RS41_REEDSOLOMON_INTERLEAVING H * i + block - 1) <> j) ->
     (forall i, 0 <= i < RS41_REEDSOLOMON_T H ->
        offsetof_rs_checksum H + (i + RS41_REEDSOLOMON_T H * block) <> j) ->
     rd frame' j = rd frame j).
Proof.
  intros (HI & HT & Hchunk & HN & Hrs & Hpar & Hdata) Hb frame'.
  subst frame'. unfold reinterleave, set_data_at, data_at.
  destruct (for_loop_store
              (fun i => offsetof_data H + (RS41_REEDSOLOMON_INTERLEAVING H * i + block - 1))
              (fun i => rd blk i) chunk frame) as (L1 & G1 & O1);
    [intros; nia|intros; nia|].
  cbv zeta in L1, G1, O1.
  set (frame1 := for_loop chunk _ frame) in *.
  destruct (for_loop_store
              (fun i => offsetof_rs_checksum H + (i + RS41_REEDSOLOMON_T H * block))
              (fun i => rd blk (RS41_REEDSOLOMON_K H + i))
              (RS41_REEDSOLOMON_T H) frame1) as (L2 & G2 & O2);
    [intros; nia|intros; lia|].
  cbv zeta in L2, G2, O2.
  split; [congruence|]. split; [|split].
  - intros i Hi. rewrite O2 by (intros; nia). apply G1. exact Hi.
  - exact G2.
  - intros j Hd Hp. rewrite O2 by exact Hp. apply O1. exact Hd.
Qed.


End Interleave.



(** *** Descrambling loses nothing *)

Lemma to_u8_u8 b : to_u8 (u8 b) = b.
Proof. destruct b; reflexivity. Qed.

Lemma reorder_bits_range b : 0 <= reorder_bits (u8 b) < 256.
Proof. destruct b; (vm_compute; split; [discriminate|reflexivity]). Qed.

Lemma reorder_bits_involutive b : reorder_bits (reorder_bits (u8 b)) = u8 b.
Proof. destruct b; reflexivity. Qed.

Lemma lxor_range8 x y :
  0 <= x < 256 -> 0 <= y < 256 -> 0 <= Z.lxor x y < 256.
Proof.
  intros Hx Hy. split.
  - apply Z.lxor_nonneg. lia.
  - destruct (Z.eq_dec (Z.lxor x y) 0) as [->|Hne]; [reflexivity|].
    assert (0 <= Z.lxor x y) by (apply Z.lxor_nonneg; lia).
    change 256 with (2 ^ 8).
    apply Z.log2_lt_pow2; [lia|].
    pose proof (Z.log2_lxor x y ltac:(lia) ltac:(lia)) as Hl.
    assert (Z.log2 x < 8).
    { destruct (Z.eq_dec x 0) as [->|]; [reflexivity|].
      apply Z.log2_lt_pow2; [lia|]. change (2 ^ 8) with 256. lia. }
    assert (Z.log2 y < 8).
    { destruct (Z.eq_dec y 0) as [->|]; [reflexivity|].
      apply Z.log2_lt_pow2; [lia|]. change (2 ^ 8) with 256. lia. }
    lia.
Qed.

Lemma lxor_cancel a x p : Z.lxor (Z.lxor a (Z.lxor (Z.lxor a x) p)) p = x.
Proof.
  apply Z.bits_inj'. intros n Hn. rewrite !Z.lxor_spec.
  destruct (Z.testbit a n), (Z.testbit x n), (Z.testbit p n); reflexivity.
Qed.

Lemma u8_to_u8_small z : 0 <= z < 256 -> u8 (to_u8 z) = z.
Proof. intros Hz. rewrite u8_to_u8. apply Z.mod_small. exact Hz. Qed.

Lemma descramble_scramble_byte i b :
  descramble_byte i (scramble_byte i b) = b.
Proof.
  unfold descramble_byte, scramble_byte.
  generalize (rd _prn (i mod RS41_PRN_PERIOD)). intros p.
  pose proof (FramerFacts.u8_range b) as Hb.
  pose proof (FramerFacts.u8_range p) as Hp.
  assert (0 <= Z.lxor (Z.lxor 255 (u8 b)) (u8 p) < 256) as Hv
    by (apply lxor_range8; [apply lxor_range8; lia|lia]).
  rewrite <- (u8_to_u8_small _ Hv) at 1.
  rewrite (u8_to_u8_small _ (reorder_bits_range _)).
  rewrite reorder_bits_involutive, (u8_to_u8_small _ Hv).
  rewrite lxor_cancel. apply to_u8_u8.
Qed.

Lemma scramble_descramble_byte i b :
  scramble_byte i (descramble_byte i b) = b.
Proof.
  unfold descramble_byte, scramble_byte.
  generalize (rd _prn (i mod RS41_PRN_PERIOD)). intros p.
  pose proof (reorder_bits_range b) as Hb.
  pose proof (FramerFacts.u8_range p) as Hp.
  assert (0 <= Z.lxor (Z.lxor 255 (reorder_bits (u8 b))) (u8 p) < 256) as Hv
    by (apply lxor_range8; [apply lxor_range8; lia|lia]).
  rewrite (u8_to_u8_small _ Hv), lxor_cancel.
  rewrite reorder_bits_involutive. apply to_u8_u8.
Qed.

Lemma rd_nth (a : list byte) (n : nat) : rd a (Z.of_nat n) = nth n a x00.
Proof.
  unfold rd. destruct (Z.ltb_spec (Z.of_nat n) 0); [lia|].
  rewrite Nat2Z.id. reflexivity.
Qed.

(** A loop that rewrites element [i] from its own old value in round [i]. *)
Lemma rewrite_loop (h : Z -> byte -> byte) (n : nat) : forall a,
  let a' := fold_left (fun raw i =>
                         wr raw (Z.of_nat i) (h (Z.of_nat i) (rd raw (Z.of_nat i))))
                      (seq 0 n) a in
  length a' = length a /\
  forall j : nat,
    nth j a' x00 =
    if (j <? n)%nat && (j <? length a)%nat then h (Z.of_nat j) (nth j a x00)
    else nth j a x00.
Proof.
  induction n as [|n IH]; intros a.
  - cbn. split; [reflexivity|]. intros j. reflexivity.
  - cbv zeta. rewrite seq_S, fold_left_app. cbn [fold_left Nat.add].
    destruct (IH a) as [Hlen Hnth]. cbv zeta in Hlen, Hnth.
    set (a1 := fold_left _ (seq 0 n) a) in *.
    split; [rewrite length_wr; exact Hlen|].
    intros j. rewrite <- !rd_nth, rd_wr, !rd_nth, Hlen.
    rewrite (Hnth n), (Hnth j).
    destruct (Z.eqb_spec (Z.of_nat n) (Z.of_nat j)) as [E|E];
      destruct (Z.leb_spec 0 (Z.of_nat n)); try lia;
      destruct (Z.ltb_spec (Z.of_nat n) (Z.of_nat (length a)));
      destruct (Nat.ltb_spec j n); destruct (Nat.ltb_spec j (S n));
      destruct (Nat.ltb_spec j (length a)); destruct (Nat.ltb_spec n n);
      cbn [andb]; try lia; try reflexivity.
    assert (n = j) by lia. subst j. reflexivity.
Qed.

Lemma descramble_nth H frame :
  length (descramble H frame) = length frame /\
  forall j : nat,
    nth j (descramble H frame) x00 =
    if (j <? Z.to_nat (sizeof_RS41Frame H))%nat && (j <? length frame)%nat
    then descramble_byte (Z.of_nat j) (nth j frame x00)
    else nth j frame x00.
Proof.
  unfold descramble, for_loop.
  apply (rewrite_loop descramble_byte (Z.to_nat (sizeof_RS41Frame H)) frame).
Qed.

Lemma map_nth_seq (l : list byte) :
  map (fun i => nth i l x00) (seq 0 (length l)) = l.
Proof.
  apply (nth_ext _ _ x00 x00).
  - rewrite length_map, length_seq. reflexivity.
  - intros n Hn. rewrite length_map, length_seq in Hn.
    rewrite (nth_indep _ x00 (nth 0 l x00))
      by (rewrite length_map, length_seq; exact Hn).
    rewrite (map_nth (fun i => nth i l x00) (seq 0 (length l)) 0%nat n).
    rewrite seq_nth by exact Hn. reflexivity.
Qed.

(** X12 -- [descramble] loses nothing: on a buffer of [sizeof(RS41Frame)]
    bytes it keeps the length and is undone, byte for byte, by taking the
    exclusive-or with [0xFF] and the same PRN byte and reversing the bits
    again; so two different frames never descramble to the same frame. *)
Theorem descramble_is_invertible (H : rs41_h) (frame : list byte) :
  length frame = Z.to_nat (sizeof_RS41Frame H) ->
  length (descramble H frame) = length frame /\
  scramble (descramble H frame) = frame /\
  descramble H (scramble frame) = frame /\
  (forall other, length other = length frame ->
     descramble H other = descramble H frame -> other = frame).
Proof.
  intros Hlen.
  destruct (descramble_nth H frame) as [Hl Hn].
  assert (forall f, length f = Z.to_nat (sizeof_RS41Frame H) ->
                    scramble (descramble H f) = f) as Hleft.
  { intros f Hf. destruct (descramble_nth H f) as [Hl' Hn'].
    unfold scramble. rewrite Hl'.
    rewrite <- (map_nth_seq f) at 2.
    apply map_ext_in. intros i Hi. apply in_seq in Hi.
    rewrite Hn'.
    destruct (Nat.ltb_spec i (Z.to_nat (sizeof_RS41Frame H))); [|lia].
    destruct (Nat.ltb_spec i (length f)); [|lia].
    cbn [andb]. apply scramble_descramble_byte. }
  split; [exact Hl|]. split; [apply Hleft; exact Hlen|]. split.
  - assert (length (scramble frame) = length frame) as Hs
      by (unfold scramble; rewrite length_map, length_seq; reflexivity).
    destruct (descramble_nth H (scramble frame)) as [Hl' Hn'].
    apply (nth_ext _ _ x00 x00); [congruence|].
    intros n Hlt. rewrite Hl', Hs in Hlt. rewrite Hn', Hs.
    destruct (Nat.ltb_spec n (Z.to_nat (sizeof_RS41Frame H))); [|lia].
    destruct (Nat.ltb_spec n (length frame)); [|lia].
    cbn [andb]. unfold scramble.
    rewrite (nth_indep _ x00 (scramble_byte (Z.of_nat 0) (nth 0 frame x00)))
      by (rewrite length_map, length_seq; lia).
    rewrite (map_nth (fun i => scramble_byte (Z.of_nat i) (nth i frame x00))
                     (seq 0 (length frame)) 0%nat n).
    rewrite seq_nth by lia. cbn [Nat.add].
    apply descramble_scramble_byte.
  - intros other Ho E.
    rewrite <- (Hleft other) by congruence.
    rewrite E. apply Hleft. exact Hlen.
Qed.

Lemma descramble_is_invertible_witness :
  scramble (descramble vaisala status_frame) = status_frame.
Proof.
  apply (proj1 (proj2 (descramble_is_invertible vaisala status_frame
                         ltac:(reflexivity)))).
Defined.

(** *** [rsCorrect] and the frame *)

Lemma update_nth (a : list byte) : forall n, update a n (nth n a x00) = a.
Proof.
  induction a as [|h t IH]; intros [|n]; cbn; try reflexivity.
  rewrite IH. reflexivity.
Qed.

Lemma wr_rd (a : list byte) i : wr a i (rd a i) = a.
Proof.
  unfold wr, rd. destruct (i <? 0); [reflexivity|apply update_nth].
Qed.

Lemma for_loop_same (g : Z -> Z) (v : Z -> byte) (n : Z) (a : list byte) :
  (forall i, 0 <= i < n -> v i = rd a (g i)) ->
  for_loop n (fun i s => wr s (g i) (v i)) a = a.
Proof.
  intros Hv. unfold for_loop.
  assert (forall l, (forall i, In i l -> 0 <= Z.of_nat i < n) ->
                    fold_left (fun s i => wr s (g (Z.of_nat i)) (v (Z.of_nat i))) l a = a)
    as Hl.
  { induction l as [|x l IH]; intros Hin; [reflexivity|].
    cbn [fold_left]. rewrite Hv by (apply Hin; left; reflexivity).
    rewrite wr_rd. apply IH. intros i Hi. apply Hin. right. exact Hi. }
  apply Hl. intros i Hi. apply in_seq in Hi. lia.
Qed.

Lemma well_laid_length H f1 f2 chunk :
  length f1 = length f2 -> well_laid H f1 chunk -> well_laid H f2 chunk.
Proof. unfold well_laid. intros <-. auto. Qed.

Section Blocks.

Variable H : rs41_h.
Variable e : list byte -> Z * list byte.

Lemma reinterleave_deinterleave frame chunk block blk :
  well_laid H frame chunk ->
  Z.of_nat (length blk) = RS41_REEDSOLOMON_N H ->
  reinterleave H frame chunk block (deinterleave H frame chunk block blk) = frame.
Proof.
  intros Hwl Hlen.
  destruct (deinterleave_spec H frame chunk block blk Hwl Hlen)
    as (_ & Gd & Gp & _).
  unfold reinterleave, set_data_at.
  set (cw := deinterleave H frame chunk block blk) in *.
  assert (for_loop chunk
            (fun i fr =>
               wr fr (offsetof_data H + (RS41_REEDSOLOMON_INTERLEAVING H * i + block - 1))
                  (rd cw i)) frame = frame) as ->.
  { apply (for_loop_same
             (fun i => offsetof_data H + (RS41_REEDSOLOMON_INTERLEAVING H * i + block - 1))
             (fun i => rd cw i)).
    intros i Hi. rewrite Gd by exact Hi. reflexivity. }
  apply (for_loop_same
           (fun i => offsetof_rs_checksum H + (i + RS41_REEDSOLOMON_T H * block))
           (fun i => rd cw (RS41_REEDSOLOMON_K H + i))).
  intros i Hi. apply Gp. exact Hi.
Qed.

Lemma rs_block_unchanged frame blk chunk block v :
  well_laid H frame chunk ->
  Z.of_nat (length blk) = RS41_REEDSOLOMON_N H ->
  (forall cw, overwrite cw (snd (e cw)) = cw) ->
  (forall cw, 0 <= fst (e cw)) ->
  rs_block H e chunk block (mkRs frame blk v) =
  mkRs frame (deinterleave H frame chunk block blk) v.
Proof.
  intros Hwl Hlen Hsame Hok. unfold rs_block. cbn [rs_frame rsBlock valid].
  specialize (Hsame (deinterleave H frame chunk block blk)).
  specialize (Hok (deinterleave H frame chunk block blk)).
  destruct (e (deinterleave H frame chunk block blk)) as [rc out].
  cbn [fst snd] in *. rewrite Hsame.
  rewrite reinterleave_deinterleave by assumption.
  destruct (Z.ltb_spec rc 0); [lia|reflexivity].
Qed.

Lemma rs_loop_unchanged frame chunk (blocks : list nat) : forall blk,
  well_laid H frame chunk ->
  Z.of_nat (length blk) = RS41_REEDSOLOMON_N H ->
  (forall cw, overwrite cw (snd (e cw)) = cw) ->
  (forall cw, 0 <= fst (e cw)) ->
  let s := fold_left (fun s i => rs_block H e chunk (Z.of_nat i) s) blocks
                     (mkRs frame blk true) in
  rs_frame s = frame /\ valid s = true.
Proof.
  induction blocks as [|b blocks IH]; intros blk Hwl Hlen Hsame Hok.
  - cbn. auto.
  - cbv zeta. cbn [fold_left].
    rewrite rs_block_unchanged by assumption.
    apply IH; try assumption.
    destruct (deinterleave_spec H frame chunk (Z.of_nat b) blk Hwl Hlen) as (L & _).
    rewrite L. exact Hlen.
Qed.

Lemma rs_block_outside chunk block s j :
  well_laid H (rs_frame s) chunk ->
  0 <= block < RS41_REEDSOLOMON_INTERLEAVING H ->
  outside_code H chunk j ->
  length (rs_frame (rs_block H e chunk block s)) = length (rs_frame s) /\
  rd (rs_frame (rs_block H e chunk block s)) j = rd (rs_frame s) j.
Proof.
  intros Hwl Hb Hj. unfold rs_block.
  destruct (e (deinterleave H (rs_frame s) chunk block (rsBlock s))) as [rc out].
  cbn [rs_frame].
  destruct (reinterleave_spec H (rs_frame s) chunk block
              (overwrite (deinterleave H (rs_frame s) chunk block (rsBlock s)) out)
              Hwl Hb) as (L & _ & _ & O).
  split; [exact L|]. apply O.
  - intros i Hi. destruct Hwl as (HI & HT & Hc & _ & _ & Hp & _).
    unfold outside_code in Hj. nia.
  - intros i Hi. destruct Hwl as (HI & HT & Hc & _ & _ & Hp & _).
    unfold outside_code in Hj. nia.
Qed.

Lemma rs_loop_outside chunk j (blocks : list nat) : forall s,
  well_laid H (rs_frame s) chunk ->
  (forall b, In b blocks -> Z.of_nat b < RS41_REEDSOLOMON_INTERLEAVING H) ->
  outside_code H chunk j ->
  let s' := fold_left (fun s i => rs_block H e chunk (Z.of_nat i) s) blocks s in
  length (rs_frame s') = length (rs_frame s) /\
  rd (rs_frame s') j = rd (rs_frame s) j.
Proof.
  induction blocks as [|b blocks IH]; intros s Hwl Hin Hj.
  - cbn. auto.
  - cbv zeta. cbn [fold_left].
    destruct (rs_block_outside chunk (Z.of_nat b) s j Hwl) as [L R];
      [split; [lia|apply Hin; left; reflexivity]|exact Hj|].
    destruct (IH (rs_block H e chunk (Z.of_nat b) s)) as [L' R'].
    + apply (well_laid_length H (rs_frame s)); [symmetry; exact L|exact Hwl].
    + intros b' Hb'. apply Hin. right. exact Hb'.
    + exact Hj.
    + cbv zeta in L', R'. split; congruence.
Qed.

End Blocks.

(** X13 -- deinterleaving and reinterleaving lose nothing: with an engine
    that changes no symbol of the block it is given and reports no failure,
    [rsCorrect] returns the frame exactly as it was, and the value true. *)
Theorem rsCorrect_transparent_engine (H : rs41_h)
    (e : list byte -> Z * list byte) (frame : list byte) :
  well_laid H frame (chunk_len H frame) ->
  0 <= RS41_REEDSOLOMON_N H ->
  (forall cw, overwrite cw (snd (e cw)) = cw) ->
  (forall cw, 0 <= fst (e cw)) ->
  rsCorrect H e frame = (frame, true).
Proof.
  intros Hwl HN Hsame Hok. unfold rsCorrect, for_loop.
  destruct (rs_loop_unchanged H e frame (chunk_len H frame)
              (seq 0 (Z.to_nat (RS41_REEDSOLOMON_INTERLEAVING H)))
              (repeat x00 (Z.to_nat (RS41_REEDSOLOMON_N H))) Hwl)
    as [Hf Hv]; try assumption.
  { rewrite repeat_length. lia. }
  cbv zeta in Hf, Hv. rewrite Hf, Hv. reflexivity.
Qed.

Lemma rsCorrect_transparent_engine_witness :
  rsCorrect vaisala engine_pass status_frame = (status_frame, true).
Proof.
  apply (rsCorrect_transparent_engine vaisala engine_pass status_frame).
  - unfold well_laid. vm_compute. repeat split; discriminate.
  - vm_compute. discriminate.
  - intros cw. unfold overwrite, engine_pass. cbn [snd].
    rewrite length_firstn.
    destruct (Nat.le_ge_cases 231 (length cw)) as [Hle|Hge].
    + rewrite Nat.min_l by exact Hle. rewrite firstn_skipn. apply firstn_all.
    + rewrite Nat.min_r by exact Hge.
      rewrite (firstn_all2 cw) by exact Hge.
      rewrite skipn_all, app_nil_r. apply firstn_all.
  - intros cw. cbn. lia.
Defined.

(** X14 -- whatever the engine does, [rsCorrect] keeps the length of the
    frame and changes no byte outside the parity bytes and the
    [I * chunk_len] bytes that start one byte before the data region: the
    bytes before the parity bytes (the sync header), any bytes between the
    parity bytes and the flag byte, and everything behind the interleaved
    data (for a standard frame, the extended-data region) are left as
    [descramble] produced them. *)
Theorem rsCorrect_touches_code_bytes_only (H : rs41_h)
    (e : list byte -> Z * list byte) (frame : list byte) (j : Z) :
  well_laid H frame (chunk_len H frame) ->
  outside_code H (chunk_len H frame) j ->
  length (fst (rsCorrect H e frame)) = length frame /\
  rd (fst (rsCorrect H e frame)) j = rd frame j.
Proof.
  intros Hwl Hj. unfold rsCorrect, for_loop. cbn [fst].
  apply (rs_loop_outside H e (chunk_len H frame) j
           (seq 0 (Z.to_nat (RS41_REEDSOLOMON_INTERLEAVING H)))
           (mkRs frame (repeat x00 (Z.to_nat (RS41_REEDSOLOMON_N H))) true)).
  - exact Hwl.
  - intros b Hb. apply in_seq in Hb. lia.
  - exact Hj.
Qed.

Lemma rsCorrect_touches_code_bytes_only_witness :
  length (fst (rsCorrect vaisala engine_fail status_frame)) = length status_frame /\
  rd (fst (rsCorrect vaisala engine_fail status_frame)) 320 = rd status_frame 320.
Proof.
  apply (rsCorrect_touches_code_bytes_only vaisala engine_fail status_frame 320).
  - unfold well_laid. vm_compute. repeat split; discriminate.
  - right. right. vm_compute. discriminate.
Defined.

(** *** Calibration fragments *)

Lemma list_ext_rd (l1 l2 : list byte) :
  length l1 = length l2 ->
  (forall j, 0 <= j < Z.of_nat (length l1) -> rd l1 j = rd l2 j) ->
  l1 = l2.
Proof.
  intros Hlen Hrd. apply (nth_ext _ _ x00 x00); [exact Hlen|].
  intros n Hn. specialize (Hrd (Z.of_nat n) ltac:(lia)).
  unfold rd in Hrd. destruct (Z.ltb_spec (Z.of_nat n) 0); [lia|].
  rewrite Nat2Z.id in Hrd. exact Hrd.
Qed.

Lemma rd_outside (a : list byte) j :
  j < 0 \/ Z.of_nat (length a) <= j -> rd a j = x00.
Proof.
  intros Hj. unfold rd. destruct (Z.ltb_spec j 0); [reflexivity|].
  apply nth_overflow. lia.
Qed.

Lemma wr_outside (a : list byte) i b :
  i < 0 \/ Z.of_nat (length a) <= i -> wr a i b = a.
Proof.
  intros Hi. apply list_ext_rd; [apply length_wr|].
  intros j Hj. rewrite length_wr in Hj. rewrite rd_wr.
  destruct (Z.eqb_spec i j); [|reflexivity].
  destruct (Z.leb_spec 0 i), (Z.ltb_spec i (Z.of_nat (length a)));
    cbn [andb]; try reflexivity; lia.
Qed.

Lemma memcpy_rd dst o src n :
  0 <= o -> 0 <= n -> o + n <= Z.of_nat (length dst) ->
  length (memcpy dst o src n) = length dst /\
  forall j, rd (memcpy dst o src n) j =
            if (o <=? j) && (j <? o + n) then rd src (j - o) else rd dst j.
Proof.
  intros Ho Hn Hlen. unfold memcpy.
  destruct (for_loop_store (fun t => o + t) (fun t => rd src t) n dst)
    as (L & G & O); [intros; lia|intros; lia|].
  cbv zeta beta in L, G, O.
  split; [exact L|].
  intros j.
  destruct (Z.leb_spec o j), (Z.ltb_spec j (o + n)); cbn [andb].
  - replace j with (o + (j - o)) at 1 by lia. apply G. lia.
  - apply O. intros; lia.
  - apply O. intros; lia.
  - apply O. intros; lia.
Qed.

(** **** Bytes by their bits *)

Lemma byte_eq_bits (b1 b2 : byte) :
  (forall j, 0 <= j < 8 -> Z.testbit (u8 b1) j = Z.testbit (u8 b2) j) ->
  b1 = b2.
Proof.
  intros Hb. rewrite <- (to_u8_u8 b1), <- (to_u8_u8 b2). f_equal.
  apply Z.bits_inj'. intros j Hj.
  destruct (Z.lt_ge_cases j 8) as [Hlt|Hge]; [apply Hb; lia|].
  pose proof (FramerFacts.u8_range b1). pose proof (FramerFacts.u8_range b2).
  rewrite !(Z.bits_above_log2) ; try reflexivity; try lia.
  - destruct (Z.eq_dec (u8 b2) 0) as [->|]; [cbn; lia|].
    assert (Z.log2 (u8 b2) < 8) by (apply Z.log2_lt_pow2; [lia|change (2^8) with 256; lia]).
    lia.
  - destruct (Z.eq_dec (u8 b1) 0) as [->|]; [cbn; lia|].
    assert (Z.log2 (u8 b1) < 8) by (apply Z.log2_lt_pow2; [lia|change (2^8) with 256; lia]).
    lia.
Qed.

Lemma byte_zero_bits (b : byte) :
  u8 b = 0 <-> (forall j, 0 <= j < 8 -> Z.testbit (u8 b) j = false).
Proof.
  split.
  - intros -> j _. apply Z.bits_0.
  - intros Hb.
    assert (b = x00) as ->.
    { apply byte_eq_bits. intros j Hj. rewrite Hb by exact Hj.
      change (u8 x00) with 0. symmetry. apply Z.bits_0. }
    reflexivity.
Qed.

Lemma slot_index i j k :
  0 <= j < 8 -> (8 * i + j = k <-> i = k / 8 /\ j = k mod 8).
Proof.
  intros Hj.
  pose proof (Z.div_mod k 8 ltac:(lia)).
  pose proof (Z.mod_pos_bound k 8 ltac:(lia)).
  lia.
Qed.

Lemma slot_clear_slot bitmap k k' :
  slot (clear_slot bitmap k) k' = slot bitmap k' && negb (k =? k').
Proof.
  unfold slot, clear_slot.
  pose proof (Z.mod_pos_bound k 8 ltac:(lia)) as Hm.
  pose proof (Z.mod_pos_bound k' 8 ltac:(lia)) as Hm'.
  rewrite rd_wr.
  destruct (Z.eqb_spec (k / 8) (k' / 8)) as [E|E]; cbn [andb].
  - destruct (Z.leb_spec 0 (k / 8)), (Z.ltb_spec (k / 8) (Z.of_nat (length bitmap)));
      cbn [andb].
    + rewrite testbit_u8_to_u8, testbit_clear by lia. rewrite E.
      f_equal. f_equal.
      destruct (Z.eqb_spec (k mod 8) (k' mod 8)), (Z.eqb_spec k k'); try reflexivity.
      * exfalso. pose proof (Z.div_mod k 8 ltac:(lia)).
        pose proof (Z.div_mod k' 8 ltac:(lia)). lia.
      * exfalso. subst. contradiction.
    + rewrite <- E, rd_outside by lia. change (u8 x00) with 0.
      rewrite Z.bits_0. reflexivity.
    + rewrite <- E, rd_outside by lia. change (u8 x00) with 0.
      rewrite Z.bits_0. reflexivity.
    + rewrite <- E, rd_outside by lia. change (u8 x00) with 0.
      rewrite Z.bits_0. reflexivity.
  - destruct (Z.eqb_spec k k'); [subst; contradiction|].
    cbn [negb]. rewrite andb_true_r. reflexivity.
Qed.

Lemma length_clear_slot bitmap k : length (clear_slot bitmap k) = length bitmap.
Proof. apply length_wr. Qed.

Lemma bitmap_ext (bm1 bm2 : list byte) :
  length bm1 = length bm2 ->
  (forall k, slot bm1 k = slot bm2 k) -> bm1 = bm2.
Proof.
  intros Hlen Hs. apply list_ext_rd; [exact Hlen|].
  intros i Hi. apply byte_eq_bits. intros j Hj.
  specialize (Hs (8 * i + j)). unfold slot in Hs.
  destruct (proj1 (slot_index i j (8 * i + j) Hj) eq_refl) as [E1 E2].
  rewrite <- E1, <- E2 in Hs. exact Hs.
Qed.

Lemma complete_slots (bitmap : list byte) :
  forallb (fun b => u8 b =? 0) bitmap = true <->
  (forall k, slot bitmap k = false).
Proof.
  rewrite forallb_forall. split.
  - intros Hall k. unfold slot.
    destruct (Z.lt_ge_cases (k / 8) 0) as [Hneg|Hpos];
      [rewrite rd_outside by lia; apply Z.bits_0|].
    destruct (Z.lt_ge_cases (k / 8) (Z.of_nat (length bitmap))) as [Hin|Hout];
      [|rewrite rd_outside by lia; apply Z.bits_0].
    assert (In (rd bitmap (k / 8)) bitmap) as HIn.
    { unfold rd. destruct (Z.ltb_spec (k / 8) 0); [lia|]. apply nth_In. lia. }
    apply Hall, Z.eqb_eq in HIn. rewrite HIn. apply Z.bits_0.
  - intros Hs b Hb. apply Z.eqb_eq, byte_zero_bits. intros j Hj.
    destruct (In_nth _ _ x00 Hb) as (n & Hn & <-).
    specialize (Hs (8 * Z.of_nat n + j)). unfold slot in Hs.
    destruct (proj1 (slot_index (Z.of_nat n) j (8 * Z.of_nat n + j) Hj) eq_refl)
      as [E1 E2].
    rewrite <- E1, <- E2, rd_nth in Hs. exact Hs.
Qed.

Lemma apply_fragment_bitmap H d k data :
  _calibDataBitmap (apply_fragment H d k data) = clear_slot (_calibDataBitmap d) k.
Proof. reflexivity. Qed.

Lemma apply_fragment_calibrated H d k data :
  _calibrated (apply_fragment H d k data) =
  forallb (fun b => u8 b =? 0) (clear_slot (_calibDataBitmap d) k) || _calibrated d.
Proof.
  unfold apply_fragment, clear_slot. cbn [_calibrated].
  destruct (forallb _ _); reflexivity.
Qed.

Lemma complete_clear_slot bitmap k :
  forallb (fun b => u8 b =? 0) bitmap = true ->
  forallb (fun b => u8 b =? 0) (clear_slot bitmap k) = true.
Proof.
  rewrite !complete_slots. intros Hs k'.
  rewrite slot_clear_slot, Hs. reflexivity.
Qed.

Lemma clear_slot_comm bitmap k1 k2 :
  clear_slot (clear_slot bitmap k1) k2 = clear_slot (clear_slot bitmap k2) k1.
Proof.
  apply bitmap_ext; [rewrite !length_clear_slot; reflexivity|].
  intros k. rewrite !slot_clear_slot.
  destruct (slot bitmap k), (k1 =? k), (k2 =? k); reflexivity.
Qed.

Lemma clear_slot_twice bitmap k :
  clear_slot (clear_slot bitmap k) k = clear_slot bitmap k.
Proof.
  apply bitmap_ext; [rewrite !length_clear_slot; reflexivity|].
  intros k'. rewrite !slot_clear_slot.
  destruct (slot bitmap k'), (k =? k'); reflexivity.
Qed.

Lemma apply_fragment_data H d k data :
  _calibData (apply_fragment H d k data) =
  if k * RS41_CALIB_FRAGSIZE H + RS41_CALIB_FRAGSIZE H <=?
       Z.of_nat (length (_calibData d))
  then memcpy (_calibData d) (k * RS41_CALIB_FRAGSIZE H) data (RS41_CALIB_FRAGSIZE H)
  else _calibData d.
Proof. reflexivity. Qed.

Lemma apply_fragment_ub H d k data :
  ub (apply_fragment H d k data) =
  ub d ||
  negb (k * RS41_CALIB_FRAGSIZE H + RS41_CALIB_FRAGSIZE H <=?
          Z.of_nat (length (_calibData d))) ||
  negb (k / 8 <? Z.of_nat (length (_calibDataBitmap d))).
Proof. reflexivity. Qed.

Lemma length_apply_fragment_data H d k data :
  0 <= k -> 0 <= RS41_CALIB_FRAGSIZE H ->
  length (_calibData (apply_fragment H d k data)) = length (_calibData d).
Proof.
  intros Hk Hs. rewrite apply_fragment_data.
  destruct (Z.leb_spec (k * RS41_CALIB_FRAGSIZE H + RS41_CALIB_FRAGSIZE H)
                       (Z.of_nat (length (_calibData d)))); [|reflexivity].
  apply memcpy_rd; nia.
Qed.

Lemma decoder_eq (d1 d2 : decoder) :
  _calibData d1 = _calibData d2 ->
  _calibDataBitmap d1 = _calibDataBitmap d2 ->
  _calibrated d1 = _calibrated d2 ->
  ub d1 = ub d2 -> d1 = d2.
Proof.
  destruct d1, d2. cbn. intros -> -> -> ->. reflexivity.
Qed.

(** X15 -- a fragment whose index lies within the calibration buffer is
    stored at [index * FRAGSIZE]: afterwards the [FRAGSIZE] bytes there are
    those of the fragment, every other byte of [_calibData] is as before,
    its slot in the bitmap is clear and every other slot is as before, and
    (the bitmap byte being there) nothing is stored out of bounds. *)
Theorem fragment_is_stored (H : rs41_h) (d : decoder) (k : Z)
    (data : list byte) :
  0 <= k -> 0 <= RS41_CALIB_FRAGSIZE H ->
  k * RS41_CALIB_FRAGSIZE H + RS41_CALIB_FRAGSIZE H <=
    Z.of_nat (length (_calibData d)) ->
  k / 8 < Z.of_nat (length (_calibDataBitmap d)) ->
  let d' := apply_fragment H d k data in
  length (_calibData d') = length (_calibData d) /\
  (forall t, 0 <= t < RS41_CALIB_FRAGSIZE H ->
     rd (_calibData d') (k * RS41_CALIB_FRAGSIZE H + t) = rd data t) /\
  (forall j, j < k * RS41_CALIB_FRAGSIZE H \/
             k * RS41_CALIB_FRAGSIZE H + RS41_CALIB_FRAGSIZE H <= j ->
     rd (_calibData d') j = rd (_calibData d) j) /\
  slot (_calibDataBitmap d') k = false /\
  (forall k', k' <> k ->
     slot (_calibDataBitmap d') k' = slot (_calibDataBitmap d) k') /\
  ub d' = ub d.
Proof.
  intros Hk Hs Hin Hbyte d'. subst d'.
  rewrite apply_fragment_data, apply_fragment_bitmap, apply_fragment_ub.
  destruct (Z.leb_spec (k * RS41_CALIB_FRAGSIZE H + RS41_CALIB_FRAGSIZE H)
                       (Z.of_nat (length (_calibData d)))); [|lia].
  destruct (Z.ltb_spec (k / 8) (Z.of_nat (length (_calibDataBitmap d)))); [|lia].
  destruct (memcpy_rd (_calibData d) (k * RS41_CALIB_FRAGSIZE H) data
              (RS41_CALIB_FRAGSIZE H)) as [L R]; [nia|lia|lia|].
  split; [exact L|]. split; [|split; [|split; [|split]]].
  - intros t Ht. rewrite R.
    destruct (Z.leb_spec (k * RS41_CALIB_FRAGSIZE H) (k * RS41_CALIB_FRAGSIZE H + t));
      [|lia].
    destruct (Z.ltb_spec (k * RS41_CALIB_FRAGSIZE H + t)
                         (k * RS41_CALIB_FRAGSIZE H + RS41_CALIB_FRAGSIZE H)); [|lia].
    cbn [andb]. f_equal. lia.
  - intros j Hj. rewrite R.
    destruct (Z.leb_spec (k * RS41_CALIB_FRAGSIZE H) j),
             (Z.ltb_spec j (k * RS41_CALIB_FRAGSIZE H + RS41_CALIB_FRAGSIZE H));
      cbn [andb]; try reflexivity; lia.
  - rewrite slot_clear_slot, Z.eqb_refl. apply andb_false_r.
  - intros k' Hne. rewrite slot_clear_slot.
    destruct (Z.eqb_spec k k'); [congruence|]. apply andb_true_r.
  - cbn [negb]. rewrite !orb_false_r. reflexivity.
Qed.

Lemma fragment_is_stored_witness :
  rd (_calibData (apply_fragment vaisala (init vaisala) 3 (repeat x11 16)))
     (3 * RS41_CALIB_FRAGSIZE vaisala + 5) = rd (repeat x11 16) 5.
Proof.
  pose proof (fragment_is_stored vaisala (init vaisala) 3 (repeat x11 16)
                ltac:(lia) ltac:(vm_compute; discriminate)
                ltac:(vm_compute; discriminate)
                ltac:(vm_compute; reflexivity)) as (_ & Hget & _).
  apply Hget. vm_compute. split; [discriminate|reflexivity].
Defined.

(** X16 -- [updateCalibData] is idempotent on the fragments it stores
    inside its arrays: a fragment whose index lies within the calibration
    buffer and the bitmap, arriving again with the same content, changes
    nothing, neither the calibration data nor the bitmap nor the calibrated
    flag. *)
Theorem fragment_again_changes_nothing (H : rs41_h) (d : decoder) (k : Z)
    (data : list byte) :
  0 <= k -> 0 <= RS41_CALIB_FRAGSIZE H ->
  k * RS41_CALIB_FRAGSIZE H + RS41_CALIB_FRAGSIZE H <=
    Z.of_nat (length (_calibData d)) ->
  k / 8 < Z.of_nat (length (_calibDataBitmap d)) ->
  apply_fragment H (apply_fragment H d k data) k data = apply_fragment H d k data.
Proof.
  intros Hk Hs _ _.
  pose proof (length_apply_fragment_data H d k data Hk Hs) as Hlen.
  apply decoder_eq.
  - rewrite (apply_fragment_data H (apply_fragment H d k data)), Hlen.
    rewrite apply_fragment_data.
    destruct (Z.leb_spec (k * RS41_CALIB_FRAGSIZE H + RS41_CALIB_FRAGSIZE H)
                         (Z.of_nat (length (_calibData d)))) as [Hin|Hout];
      [|reflexivity].
    destruct (memcpy_rd (_calibData d) (k * RS41_CALIB_FRAGSIZE H) data
                (RS41_CALIB_FRAGSIZE H)) as [L R]; [nia|lia|lia|].
    destruct (memcpy_rd (memcpy (_calibData d) (k * RS41_CALIB_FRAGSIZE H) data
                           (RS41_CALIB_FRAGSIZE H))
                (k * RS41_CALIB_FRAGSIZE H) data (RS41_CALIB_FRAGSIZE H))
      as [L' R']; [nia|lia|lia|].
    apply list_ext_rd; [exact L'|].
    intros j Hj. rewrite R', R.
    destruct ((k * RS41_CALIB_FRAGSIZE H <=? j) &&
              (j <? k * RS41_CALIB_FRAGSIZE H + RS41_CALIB_FRAGSIZE H));
      reflexivity.
  - rewrite !apply_fragment_bitmap. apply clear_slot_twice.
  - rewrite !apply_fragment_calibrated, !apply_fragment_bitmap, clear_slot_twice.
    destruct (forallb _ _); reflexivity.
  - rewrite (apply_fragment_ub H (apply_fragment H d k data)), Hlen.
    rewrite apply_fragment_bitmap, length_clear_slot, apply_fragment_ub.
    destruct (ub d), (_ <=? _), (_ <? _); reflexivity.
Qed.

Lemma fragment_again_changes_nothing_witness :
  apply_fragment vaisala (apply_fragment vaisala (init vaisala) 3 (repeat x11 16))
                 3 (repeat x11 16) =
  apply_fragment vaisala (init vaisala) 3 (repeat x11 16).
Proof.
  apply (fragment_again_changes_nothing vaisala (init vaisala) 3 (repeat x11 16));
    [lia|vm_compute; discriminate|vm_compute; discriminate|vm_compute; reflexivity].
Defined.

(** X17 -- two fragments of different indices, both within the calibration
    buffer and the bitmap, may arrive in either order: the decoder ends
    with the same calibration data, bitmap and calibrated flag. *)
Theorem fragments_commute (H : rs41_h) (d : decoder) (k1 k2 : Z)
    (data1 data2 : list byte) :
  0 <= k1 -> 0 <= k2 -> k1 <> k2 -> 0 <= RS41_CALIB_FRAGSIZE H ->
  k1 * RS41_CALIB_FRAGSIZE H + RS41_CALIB_FRAGSIZE H <=
    Z.of_nat (length (_calibData d)) ->
  k2 * RS41_CALIB_FRAGSIZE H + RS41_CALIB_FRAGSIZE H <=
    Z.of_nat (length (_calibData d)) ->
  k1 / 8 < Z.of_nat (length (_calibDataBitmap d)) ->
  k2 / 8 < Z.of_nat (length (_calibDataBitmap d)) ->
  apply_fragment H (apply_fragment H d k1 data1) k2 data2 =
  apply_fragment H (apply_fragment H d k2 data2) k1 data1.
Proof.
  intros Hk1 Hk2 Hne Hs _ _ _ _.
  pose proof (length_apply_fragment_data H d k1 data1 Hk1 Hs) as Hl1.
  pose proof (length_apply_fragment_data H d k2 data2 Hk2 Hs) as Hl2.
  set (FS := RS41_CALIB_FRAGSIZE H) in *.
  apply decoder_eq.
  - rewrite (apply_fragment_data H (apply_fragment H d k1 data1)), Hl1.
    rewrite (apply_fragment_data H (apply_fragment H d k2 data2)), Hl2.
    rewrite !apply_fragment_data. fold FS.
    destruct (Z.leb_spec (k1 * FS + FS) (Z.of_nat (length (_calibData d)))) as [H1|H1];
      destruct (Z.leb_spec (k2 * FS + FS) (Z.of_nat (length (_calibData d)))) as [H2|H2];
      try reflexivity.
    destruct (memcpy_rd (_calibData d) (k1 * FS) data1 FS) as [L1 R1]; [nia|lia|lia|].
    destruct (memcpy_rd (_calibData d) (k2 * FS) data2 FS) as [L2 R2]; [nia|lia|lia|].
    destruct (memcpy_rd (memcpy (_calibData d) (k1 * FS) data1 FS) (k2 * FS) data2 FS)
      as [L12 R12]; [nia|lia|lia|].
    destruct (memcpy_rd (memcpy (_calibData d) (k2 * FS) data2 FS) (k1 * FS) data1 FS)
      as [L21 R21]; [nia|lia|lia|].
    apply list_ext_rd; [congruence|].
    intros j Hj. rewrite R12, R21, R1, R2.
    destruct (Z.leb_spec (k1 * FS) j), (Z.ltb_spec j (k1 * FS + FS)),
             (Z.leb_spec (k2 * FS) j), (Z.ltb_spec j (k2 * FS + FS));
      cbn [andb]; try reflexivity.
    exfalso. nia.
  - rewrite !apply_fragment_bitmap. apply clear_slot_comm.
  - rewrite !apply_fragment_calibrated, !apply_fragment_bitmap.
    rewrite (clear_slot_comm (_calibDataBitmap d) k2 k1).
    destruct (forallb (fun b => u8 b =? 0)
                (clear_slot (clear_slot (_calibDataBitmap d) k1) k2)) eqn:E12;
      [reflexivity|].
    cbn [orb].
    destruct (forallb (fun b => u8 b =? 0) (clear_slot (_calibDataBitmap d) k1)) eqn:E1.
    { apply (complete_clear_slot _ k2) in E1. congruence. }
    destruct (forallb (fun b => u8 b =? 0) (clear_slot (_calibDataBitmap d) k2)) eqn:E2.
    { apply (complete_clear_slot _ k1) in E2.
      rewrite clear_slot_comm in E2. congruence. }
    reflexivity.
  - rewrite (apply_fragment_ub H (apply_fragment H d k1 data1)), Hl1.
    rewrite (apply_fragment_ub H (apply_fragment H d k2 data2)), Hl2.
    rewrite !apply_fragment_bitmap, !length_clear_slot, !apply_fragment_ub.
    fold FS.
    destruct (ub d), (k1 * FS + FS <=? _), (k2 * FS + FS <=? _),
             (k1 / 8 <? _), (k2 / 8 <? _); reflexivity.
Qed.

Lemma fragments_commute_witness :
  apply_fragment vaisala (apply_fragment vaisala (init vaisala) 3 (repeat x11 16))
                 50 (repeat x22 16) =
  apply_fragment vaisala (apply_fragment vaisala (init vaisala) 50 (repeat x22 16))
                 3 (repeat x11 16).
Proof.
  apply (fragments_commute vaisala (init vaisala) 3 50 (repeat x11 16) (repeat x22 16));
    [lia|lia|lia|vm_compute; discriminate|vm_compute; discriminate
    |vm_compute; discriminate|vm_compute; reflexivity|vm_compute; reflexivity].
Defined.

(** *** The decoder state over the frames of [run] *)

Section State.

Variable gps_fix : Type.
Variable no_fix : gps_fix.
Variable gps_solution : list byte -> gps_fix.
Variable H : rs41_h.
Variable e : list byte -> Z * list byte.
Variable with_rs : bool.

(** The decoder that [updateSondeData] leaves does not depend on the
    record it is given. *)
Lemma updateSondeData_decoder d info frame sub :
  fst (updateSondeData gps_solution H (d, info) frame sub) =
  if subframe_type H frame sub =? RS41_SFTYPE_INFO H
  then updateCalibData H d frame sub else d.
Proof.
  unfold updateSondeData.
  destruct (subframe_type H frame sub =? RS41_SFTYPE_INFO H); [reflexivity|].
  destruct (subframe_type H frame sub =? RS41_SFTYPE_GPSPOS H); reflexivity.
Qed.

Lemma run_decoder d frames :
  fst (fst (run no_fix gps_solution H e with_rs d frames)) =
  fst (fold_left (fun ds f => decode_frame gps_solution H e with_rs ds f)
                 frames (d, default_SondeData no_fix)).
Proof.
  unfold run. rewrite run_frame_records. reflexivity.
Qed.

(** **** Calibration is never undone *)

Lemma apply_fragment_keeps d k data :
  (_calibrated d = true -> _calibrated (apply_fragment H d k data) = true) /\
  (forall k', slot (_calibDataBitmap d) k' = false ->
     slot (_calibDataBitmap (apply_fragment H d k data)) k' = false) /\
  length (_calibDataBitmap (apply_fragment H d k data)) =
    length (_calibDataBitmap d).
Proof.
  split; [|split].
  - intros Hc. rewrite apply_fragment_calibrated, Hc. apply orb_true_r.
  - intros k' Hk. rewrite apply_fragment_bitmap, slot_clear_slot, Hk. reflexivity.
  - rewrite apply_fragment_bitmap. apply length_clear_slot.
Qed.

Lemma updateSondeData_keeps d info frame sub :
  let d' := fst (updateSondeData gps_solution H (d, info) frame sub) in
  (_calibrated d = true -> _calibrated d' = true) /\
  (forall k, slot (_calibDataBitmap d) k = false ->
     slot (_calibDataBitmap d') k = false) /\
  length (_calibDataBitmap d') = length (_calibDataBitmap d).
Proof.
  cbv zeta. rewrite updateSondeData_decoder.
  destruct (subframe_type H frame sub =? RS41_SFTYPE_INFO H); [|auto].
  unfold updateCalibData. apply apply_fragment_keeps.
Qed.

Lemma records_keep frame (subs : list Z) : forall d info,
  let d' := fst (fold_left (fun ds sub => updateSondeData gps_solution H ds frame sub)
                           subs (d, info)) in
  (_calibrated d = true -> _calibrated d' = true) /\
  (forall k, slot (_calibDataBitmap d) k = false ->
     slot (_calibDataBitmap d') k = false) /\
  length (_calibDataBitmap d') = length (_calibDataBitmap d).
Proof.
  induction subs as [|sub subs IH]; intros d info; [cbn; auto|].
  cbv zeta. cbn [fold_left].
  pose proof (updateSondeData_keeps d info frame sub) as (K1 & K2 & K3).
  cbv zeta in K1, K2, K3.
  destruct (updateSondeData gps_solution H (d, info) frame sub) as [d1 i1].
  cbn [fst] in K1, K2, K3.
  destruct (IH d1 i1) as (J1 & J2 & J3). cbv zeta in J1, J2, J3.
  split; [auto|]. split; [auto|congruence].
Qed.

Lemma frames_keep (frames : list (list byte)) : forall d info,
  let d' := fst (fold_left (fun ds f => decode_frame gps_solution H e with_rs ds f)
                           frames (d, info)) in
  (_calibrated d = true -> _calibrated d' = true) /\
  (forall k, slot (_calibDataBitmap d) k = false ->
     slot (_calibDataBitmap d') k = false) /\
  length (_calibDataBitmap d') = length (_calibDataBitmap d).
Proof.
  induction frames as [|f frames IH]; intros d info; [cbn; auto|].
  cbv zeta. cbn [fold_left].
  pose proof (records_keep (decoded H e with_rs f)
                (accepted H (decoded H e with_rs f)) d info) as (K1 & K2 & K3).
  cbv zeta in K1, K2, K3.
  rewrite <- (decode_frame_accepted gps_fix gps_solution H with_rs e) in K1, K2, K3.
  destruct (decode_frame gps_solution H e with_rs (d, info) f) as [d1 i1].
  cbn [fst] in K1, K2, K3.
  destruct (IH d1 i1) as (J1 & J2 & J3). cbv zeta in J1, J2, J3.
  split; [auto|]. split; [auto|congruence].
Qed.

(** X20 -- [run] never undoes calibration: over frames whose status
    sub-records are all read inside their frame, and with every fragment
    stored inside the arrays of the decoder, a decoder that is calibrated
    stays calibrated, a slot of the bitmap that is clear stays clear, and
    the bitmap keeps its size.  Nothing in such frames (a status record
    with another serial included) resets the decoder. *)
Theorem run_never_uncalibrates (d : decoder) (frames : list (list byte)) :
  Forall (fun f => status_reads_inside H (decoded H e with_rs f) = true) frames ->
  ub (fst (fst (run no_fix gps_solution H e with_rs d frames))) = false ->
  (_calibrated d = true ->
   _calibrated (fst (fst (run no_fix gps_solution H e with_rs d frames))) = true) /\
  (forall k, slot (_calibDataBitmap d) k = false ->
     slot (_calibDataBitmap
             (fst (fst (run no_fix gps_solution H e with_rs d frames)))) k = false) /\
  length (_calibDataBitmap
            (fst (fst (run no_fix gps_solution H e with_rs d frames)))) =
    length (_calibDataBitmap d).
Proof.
  intros _ _. rewrite run_decoder. apply frames_keep.
Qed.

End State.

Lemma run_never_uncalibrates_witness :
  slot (_calibDataBitmap
          (fst (fst (run [] raw_fix vaisala engine_pass false (init vaisala)
                         [scramble status_frame; scramble empty_frame])))) 48
    = false.
Proof.
  apply (proj1 (proj2 (run_never_uncalibrates (list byte) [] raw_fix vaisala
                         engine_pass false (init vaisala)
                         [scramble status_frame; scramble empty_frame]
                         ltac:(repeat constructor; vm_compute; reflexivity)
                         ltac:(vm_compute; reflexivity)))).
  vm_compute. reflexivity.
Defined.

(** *** The sub-records that the walk hands on *)

Lemma accepted_from_region H fuel : forall frame offset,
  0 <= offset ->
  Forall (fun sub =>
            offset <= sub /\
            sub + subframe_len H frame sub + 4 <= bytesLeft H frame /\
            crcCheck H frame sub = true)
         (accepted_from H fuel frame offset) /\
  4 * Z.of_nat (length (accepted_from H fuel frame offset)) <=
    Z.max 0 (bytesLeft H frame - offset).
Proof.
  induction fuel as [|fuel IH]; intros frame offset Hoff.
  - cbn. split; [constructor|lia].
  - rewrite accepted_from_S.
    pose proof (subframe_len_range H frame offset) as Hl.
    destruct (Z.ltb_spec offset (bytesLeft H frame)) as [Hlt|Hge];
      [|cbn; split; [constructor|lia]].
    destruct (Z.gtb_spec (offset + subframe_len H frame offset + 4)
                         (bytesLeft H frame)) as [Hgt|Hle];
      [cbn; split; [constructor|lia]|].
    destruct (IH frame (offset + subframe_len H frame offset + 4) ltac:(lia))
      as [Hall Hcount].
    assert (Forall (fun sub =>
                      offset <= sub /\
                      sub + subframe_len H frame sub + 4 <= bytesLeft H frame /\
                      crcCheck H frame sub = true)
                   (accepted_from H fuel frame
                      (offset + subframe_len H frame offset + 4))) as Hall'.
    { apply Forall_impl with (2 := Hall). intros sub (H1 & H2 & H3).
      split; [lia|]. split; assumption. }
    destruct (crcCheck H frame offset) eqn:Hcrc; cbn [negb].
    + split.
      * constructor; [|exact Hall']. split; [lia|]. split; [lia|exact Hcrc].
      * cbn [length]. lia.
    + split; [exact Hall'|lia].
Qed.

(** X23 -- every sub-record that the walk of [run] hands to
    [updateSondeData] starts at or behind the start of the data region,
    ends, checksum included, within the [bytesLeft] bytes walked, and has
    passed [crcCheck]; and a frame yields at most [bytesLeft / 4] of them. *)
Theorem accepted_records_lie_in_region (H : rs41_h) (frame : list byte) :
  Forall (fun sub =>
            0 <= sub /\
            sub + subframe_len H frame sub + 4 <= bytesLeft H frame /\
            crcCheck H frame sub = true)
         (accepted H frame) /\
  4 * Z.of_nat (length (accepted H frame)) <= Z.max 0 (bytesLeft H frame).
Proof.
  unfold accepted.
  destruct (accepted_from_region H (walk_fuel H frame) frame 0 ltac:(lia))
    as [Hall Hcount].
  split; [exact Hall|]. rewrite Z.sub_0_r in Hcount. exact Hcount.
Qed.

End RS41Facts.

(** * Properties of the log writer *)

Module PTUFacts.
Import PTU.
Import String.
Local Open Scope string_scope.

Section Writer.

Variable fopen_succeeds : string -> bool.
Variable point : Type.
Variable format : point -> string.

Lemma append_assoc (a b c : string) : (a ++ b) ++ c = a ++ (b ++ c).
Proof.
  induction a as [|x a IH]; [reflexivity|]. cbn. rewrite IH. reflexivity.
Qed.

Lemma append_empty (a : string) : a ++ "" = a.
Proof.
  induction a as [|x a IH]; [reflexivity|]. cbn. rewrite IH. reflexivity.
Qed.

Lemma rows_from (ps : list point) : forall text,
  fold_left (fun text p => text ++ format p) ps text = text ++ rows point format ps.
Proof.
  unfold rows.
  induction ps as [|p ps IH]; intros text.
  - cbn. symmetry. apply append_empty.
  - cbn [fold_left]. rewrite (IH (text ++ format p)), (IH ("" ++ format p)).
    cbn [append]. apply append_assoc.
Qed.

Lemma put_same fs name text : put fs name text name = Some text.
Proof. unfold put. rewrite String.eqb_refl. reflexivity. Qed.

Lemma put_other fs name text n : n <> name -> put fs name text n = fs n.
Proof.
  intros Hne. unfold put.
  destruct (String.eqb_spec n name); [contradiction|reflexivity].
Qed.

Lemma write_same fs name old text :
  fs name = Some old -> write fs name text name = Some (old ++ text).
Proof. intros E. unfold write. rewrite E. apply put_same. Qed.

Lemma write_other fs name text n : n <> name -> write fs name text n = fs n.
Proof.
  intros Hne. unfold write. destruct (fs name); apply put_other; exact Hne.
Qed.

Lemma addPoints_open (ps : list point) : forall fs name old,
  fs name = Some old ->
  let s := fold_left (addPoint point format) ps (mkState (Some name) fs) in
  _fd s = Some name /\
  files s name = Some (old ++ rows point format ps) /\
  (forall n, n <> name -> files s n = fs n).
Proof.
  induction ps as [|p ps IH]; intros fs name old Hold.
  - cbn. rewrite append_empty. auto.
  - cbv zeta. cbn [fold_left].
    assert (addPoint point format (mkState (Some name) fs) p =
            mkState (Some name) (write fs name (format p))) as -> by reflexivity.
    destruct (IH (write fs name (format p)) name (old ++ format p)
                 (write_same fs name old (format p) Hold)) as (I1 & I2 & I3).
    cbv zeta in I1, I2, I3.
    split; [exact I1|]. split.
    + rewrite I2. unfold rows at 2. cbn [fold_left].
      rewrite rows_from. cbn [append]. rewrite append_assoc. reflexivity.
    + intros n Hn. rewrite I3 by exact Hn. apply write_other. exact Hn.
Qed.

(** X21 -- a log that [init] could open holds, after any number of calls of
    [addPoint], the header line and then one line per point in the order of
    the calls, whatever the file held before and whatever the writer was
    doing before; [init] returns true, and no other file is touched. *)
Theorem log_holds_header_and_rows (s : state) (fname : string)
    (ps : list point) :
  fopen_succeeds fname = true ->
  let s' := fold_left (addPoint point format) ps
                      (fst (init fopen_succeeds s fname)) in
  snd (init fopen_succeeds s fname) = true /\
  _fd s' = Some fname /\
  files s' fname = Some (header ++ rows point format ps) /\
  (forall n, n <> fname -> files s' n = files s n).
Proof.
  intros Hopen. cbv zeta. unfold init. rewrite Hopen. cbn [fst snd].
  split; [reflexivity|].
  set (fs1 := files match _fd s with Some _ => deinit s | None => s end).
  assert (fs1 = files s) as Hfs1.
  { subst fs1. unfold deinit. destruct (_fd s); reflexivity. }
  destruct (addPoints_open ps (write (put fs1 fname "") fname header) fname header)
    as (A1 & A2 & A3).
  { rewrite (write_same _ _ "" header (put_same _ _ _)). reflexivity. }
  cbv zeta in A1, A2, A3.
  split; [exact A1|]. split; [exact A2|].
  intros n Hn. rewrite A3 by exact Hn.
  rewrite write_other, put_other by exact Hn. rewrite Hfs1. reflexivity.
Qed.

Lemma addPoints_closed (ps : list point) : forall s,
  _fd s = None -> fold_left (addPoint point format) ps s = s.
Proof.
  induction ps as [|p ps IH]; intros s Hs; [reflexivity|].
  cbn [fold_left].
  assert (addPoint point format s p = s) as ->
    by (unfold addPoint; rewrite Hs; reflexivity).
  apply IH. exact Hs.
Qed.

(** X22 -- a writer without an open file drops every point and touches no
    file; and that is the state after [deinit], and after an [init] whose
    [fopen] fails, which returns false, even if a log was open before: its
    file keeps what it held and gets no further line. *)
Theorem closed_writer_drops_points (s : state) (fname : string)
    (ps : list point) :
  (_fd s = None -> fold_left (addPoint point format) ps s = s) /\
  fold_left (addPoint point format) ps (deinit s) = mkState None (files s) /\
  (fopen_succeeds fname = false ->
   init fopen_succeeds s fname = (mkState None (files s), false) /\
   fold_left (addPoint point format) ps (fst (init fopen_succeeds s fname)) =
     mkState None (files s)).
Proof.
  assert (deinit s = mkState None (files s)) as Hd.
  { unfold deinit. destruct s as [[name|] fs]; reflexivity. }
  split; [apply addPoints_closed|]. split.
  - rewrite Hd. apply addPoints_closed. reflexivity.
  - intros Hfail.
    assert (init fopen_succeeds s fname = (mkState None (files s), false)) as Hi.
    { unfold init. rewrite Hfail. destruct (_fd s); [rewrite Hd|]; reflexivity. }
    split; [exact Hi|]. rewrite Hi. apply addPoints_closed. reflexivity.
Qed.

End Writer.

(** A host on which every file can be opened, and points that are their own
    lines. *)
Lemma log_holds_header_and_rows_witness :
  files (fold_left (addPoint string (fun p => p)) ["1,2"; "3,4"]
                   (fst (init (fun _ => true) (mkState None (fun _ => None)) "log.csv")))
        "log.csv" =
  Some (header ++ rows string (fun p => p) ["1,2"; "3,4"]).
Proof.
  apply (proj1 (proj2 (proj2
           (log_holds_header_and_rows (fun _ => true) string (fun p => p)
              (mkState None (fun _ => None)) "log.csv" ["1,2"; "3,4"]
              eq_refl)))).
Defined.

Lemma closed_writer_drops_points_witness :
  fold_left (addPoint string (fun p => p)) ["1,2"]
            (mkState None (fun _ => None)) =
  mkState None (fun _ => None).
Proof.
  apply (proj1 (closed_writer_drops_points (fun _ => false) string (fun p => p)
                  (mkState None (fun _ => None)) "log.csv" ["1,2"])).
  reflexivity.
Defined.

End PTUFacts.
